(** * chunky-zip: incremental appending of one entry to a ZIP archive

    A shallow embedding of [chunky_zip/storage_zip.py],
    [chunky_zip/compressed_zip.py] and [chunky_zip/__init__.py], together
    with the parts of CPython's [zipfile], [zlib] and [io] modules the three
    files call into.

    Conventions
    - Python integers are [Z]; byte strings are [list byte]; [str] values are
      [string] (the UTF-8 bytes of the Python string).
    - A Python call that may raise returns a [result]; the constructor of
      [error] names the exception.
    - The archive file, the process-wide compressor registry and the wall
      clock form the [world] that every writer operation threads through. *)

From Stdlib Require Import ZArith List Bool String Ascii Lia.
From Stdlib.Floats Require Import SpecFloat.
From Stdlib.Strings Require Import Byte.
From stdpp Require Import gmap strings list.

Open Scope Z_scope.

(** ** Exceptions and results *)

Inductive error :=
| ArchiveClosed   (* ValueError("Attempt to write to ZIP archive that was already closed") *)
| StructError     (* struct.error: a value does not fit its field *)
| LargeZipFile    (* zipfile.LargeZipFile *)
| BadZipFile      (* zipfile.BadZipFile *)
| BadTimestamp    (* ValueError("ZIP does not support timestamps before 1980") *)
| SeekError       (* OSError / ValueError of a seek to a negative offset *)
| KeyError        (* no such entry in the archive *)
| FileNotFoundError
| NotImplementedError
| TypeError
| CompressorError (* whatever the compression backend raises *).

Inductive result (A : Type) :=
| Ok (a : A)
| Err (e : error).
Arguments Ok {A} a.
Arguments Err {A} e.

Definition bind {A B} (r : result A) (k : A -> result B) : result B :=
  match r with
  | Ok a => k a
  | Err e => Err e
  end.

Notation "'let*' x ':=' e 'in' k" := (bind e (fun x => k))
  (at level 10, x pattern, e at level 200, k at level 200).

(** ** Bytes and [struct.pack] *)

Abbreviation bytes := (list byte).

#[global] Instance byte_eq_decision : EqDecision byte := Byte.byte_eq_dec.

Definition Z_of_byte (b : byte) : Z := Z.of_N (Byte.to_N b).

Definition byte_of_Z (z : Z) : byte :=
  match Byte.of_N (Z.to_N (z mod 256)) with
  | Some b => b
  | None => x00
  end.

(** [n] bytes of [v], least significant first. *)
Fixpoint le_bytes (n : nat) (v : Z) : bytes :=
  match n with
  | O => []
  | S n' => byte_of_Z v :: le_bytes n' (v / 256)
  end.

(** The number whose little-endian bytes are [bs]. *)
Fixpoint le_value (bs : bytes) : Z :=
  match bs with
  | [] => 0
  | b :: bs' => Z_of_byte b + 256 * le_value bs'
  end.

(** The integer formats of [struct]: B, H, L and Q, little-endian, standard
    sizes. *)
Inductive fmt := fB | fH | fL | fQ.

Definition fmt_size (f : fmt) : nat :=
  match f with fB => 1 | fH => 2 | fL => 4 | fQ => 8 end%nat.

(** [struct.pack] of one integer: [struct.error] when it is out of range. *)
Definition pack1 (f : fmt) (v : Z) : result bytes :=
  if (0 <=? v) && (v <? 2 ^ (8 * Z.of_nat (fmt_size f)))
  then Ok (le_bytes (fmt_size f) v)
  else Err StructError.

Fixpoint pack (fields : list (fmt * Z)) : result bytes :=
  match fields with
  | [] => Ok []
  | (f, v) :: rest =>
      let* b := pack1 f v in
      let* bs := pack rest in
      Ok (b ++ bs)
  end.

Definition bytes_of_string (s : string) : bytes := list_byte_of_string s.

(** ** Binary file objects ([io.BufferedRandom]) *)

Record stream := { buf : bytes; pos : Z }.

Definition seek (s : stream) (p : Z) : result stream :=
  if p <? 0 then Err SeekError else Ok {| buf := buf s; pos := p |}.

Definition tell (s : stream) : Z := pos s.

(** Writing overwrites in place and extends the file; a gap left by a seek
    past the end is filled with zero bytes.  Writing nothing changes
    nothing. *)
Definition write (s : stream) (d : bytes) : stream :=
  match d with
  | [] => s
  | _ =>
      let p := Z.to_nat (pos s) in
      {| buf := take p (buf s) ++ replicate (p - length (buf s)) x00
                  ++ d ++ drop (p + length d) (buf s);
         pos := pos s + Z.of_nat (length d) |}
  end.

(** [truncate()] resizes the file to the current position. *)
Definition truncate (s : stream) : stream :=
  let p := Z.to_nat (pos s) in
  {| buf := take p (buf s) ++ replicate (p - length (buf s)) x00;
     pos := pos s |}.

(** ** [zlib.crc32]

    CRC-32 of ISO 3309 / ITU-T V.42 (reflected polynomial 0xEDB88320), with
    the running value passed in and out in its finalised form, as
    [zlib.crc32(data, value)] does. *)

Definition crc32_bit (c : Z) : Z :=
  if Z.testbit c 0
  then Z.lxor (Z.shiftr c 1) 0xEDB88320
  else Z.shiftr c 1.

Definition crc32_byte (c : Z) (b : byte) : Z :=
  Nat.iter 8 crc32_bit (Z.lxor c (Z_of_byte b)).

Definition crc32 (data : bytes) (value : Z) : Z :=
  Z.lxor
    (fold_left crc32_byte data (Z.lxor (Z.land value 0xFFFFFFFF) 0xFFFFFFFF))
    0xFFFFFFFF.

(** ** [zipfile]: constants and entry descriptors *)

Inductive compress_method := ZIP_STORED | ZIP_DEFLATED | ZIP_BZIP2 | ZIP_LZMA.

#[global] Instance compress_method_eq_dec : EqDecision compress_method.
Proof. solve_decision. Defined.

(** The method ids of the ZIP format. *)
Definition compress_code (c : compress_method) : Z :=
  match c with
  | ZIP_STORED => 0
  | ZIP_DEFLATED => 8
  | ZIP_BZIP2 => 12
  | ZIP_LZMA => 14
  end.

Definition ZIP64_LIMIT : Z := Z.shiftl 1 31 - 1.
Definition ZIP_FILECOUNT_LIMIT : Z := Z.shiftl 1 16 - 1.
Definition DEFAULT_VERSION : Z := 20.
Definition ZIP64_VERSION : Z := 45.
Definition BZIP2_VERSION : Z := 46.
Definition LZMA_VERSION : Z := 63.
Definition _MASK_USE_DATA_DESCRIPTOR : Z := Z.shiftl 1 3.
Definition _MASK_UTF_FILENAME : Z := Z.shiftl 1 11.
Definition Z_FULL_FLUSH : Z := 3.

Definition stringFileHeader : bytes := [x50; x4b; x03; x04].
Definition stringCentralDir : bytes := [x50; x4b; x01; x02].
Definition stringEndArchive : bytes := [x50; x4b; x05; x06].
Definition stringEndArchive64 : bytes := [x50; x4b; x06; x06].
Definition stringEndArchive64Locator : bytes := [x50; x4b; x06; x07].
Definition sizeFileHeader : nat := 30.

(** [datetime.now().timetuple()[:6]] *)
Record datetime := {
  year : Z; month : Z; day : Z; hour : Z; minute : Z; second : Z
}.

(** [zipfile.ZipInfo], with the attributes that the writers and
    [ZipInfo.FileHeader] use.  The remaining attributes keep the values
    [ZipInfo.__init__] gives them (empty comment, [reserved = 0],
    [create_system = 3], no attributes) and are written as such. *)
Record ZipInfo := {
  filename : string;
  date_time : datetime;
  compress_type : compress_method;
  extra : bytes;
  create_version : Z;
  extract_version : Z;
  flag_bits : Z;
  CRC : Z;
  compress_size : Z;
  file_size : Z;
  header_offset : Z
}.

Definition set_date_time (zi : ZipInfo) (dt : datetime) : ZipInfo :=
  {| filename := filename zi; date_time := dt;
     compress_type := compress_type zi; extra := extra zi;
     create_version := create_version zi;
     extract_version := extract_version zi; flag_bits := flag_bits zi;
     CRC := CRC zi; compress_size := compress_size zi;
     file_size := file_size zi; header_offset := header_offset zi |}.

Definition set_compress_size (zi : ZipInfo) (n : Z) : ZipInfo :=
  {| filename := filename zi; date_time := date_time zi;
     compress_type := compress_type zi; extra := extra zi;
     create_version := create_version zi;
     extract_version := extract_version zi; flag_bits := flag_bits zi;
     CRC := CRC zi; compress_size := n;
     file_size := file_size zi; header_offset := header_offset zi |}.

Definition set_file_size_CRC (zi : ZipInfo) (n crc : Z) : ZipInfo :=
  {| filename := filename zi; date_time := date_time zi;
     compress_type := compress_type zi; extra := extra zi;
     create_version := create_version zi;
     extract_version := extract_version zi; flag_bits := flag_bits zi;
     CRC := crc; compress_size := compress_size zi;
     file_size := n; header_offset := header_offset zi |}.

Definition set_versions (zi : ZipInfo) (cv ev : Z) : ZipInfo :=
  {| filename := filename zi; date_time := date_time zi;
     compress_type := compress_type zi; extra := extra zi;
     create_version := cv; extract_version := ev;
     flag_bits := flag_bits zi;
     CRC := CRC zi; compress_size := compress_size zi;
     file_size := file_size zi; header_offset := header_offset zi |}.

(** [ZipInfo.__init__] terminates the file name at the first null byte.
    (It also rewrites [os.sep] to a slash; [os.sep] is the slash here.) *)
Fixpoint terminate_at_nul (s : string) : string :=
  match s with
  | EmptyString => EmptyString
  | String c s' =>
      if Ascii.eqb c Ascii.zero then EmptyString
      else String c (terminate_at_nul s')
  end.

(** [ZipInfo(filename, date_time)] *)
Definition new_ZipInfo (name : string) (dt : datetime) : result ZipInfo :=
  if year dt <? 1980 then Err BadTimestamp
  else Ok {| filename := terminate_at_nul name; date_time := dt;
             compress_type := ZIP_STORED; extra := [];
             create_version := DEFAULT_VERSION;
             extract_version := DEFAULT_VERSION; flag_bits := 0;
             CRC := 0; compress_size := 0; file_size := 0;
             header_offset := 0 |}.

Definition is_ascii (s : string) : bool :=
  forallb (fun b => Z_of_byte b <? 128) (bytes_of_string s).

(** [ZipInfo._encodeFilenameFlags] *)
Definition _encodeFilenameFlags (zi : ZipInfo) : bytes * Z :=
  if is_ascii (filename zi)
  then (bytes_of_string (filename zi), flag_bits zi)
  else (bytes_of_string (filename zi),
        Z.lor (flag_bits zi) _MASK_UTF_FILENAME).

Definition dosdate (dt : datetime) : Z :=
  Z.lor (Z.lor (Z.shiftl (year dt - 1980) 9) (Z.shiftl (month dt) 5)) (day dt).

Definition dostime (dt : datetime) : Z :=
  Z.lor (Z.lor (Z.shiftl (hour dt) 11) (Z.shiftl (minute dt) 5))
        (second dt / 2).

(** The version a method needs, as [FileHeader] and [_write_end_record]
    raise [min_version]. *)
Definition method_version (c : compress_method) (min_version : Z) : Z :=
  match c with
  | ZIP_BZIP2 => Z.max BZIP2_VERSION min_version
  | ZIP_LZMA => Z.max LZMA_VERSION min_version
  | _ => min_version
  end.

(** [ZipInfo.FileHeader(zip64)]: the local file header as bytes.  The call
    also raises the descriptor's versions, so the descriptor is returned
    with the bytes. *)
Definition FileHeader (zi : ZipInfo) (zip64 : bool) : result (ZipInfo * bytes) :=
  let dt := date_time zi in
  let '(crc, csize, fsize) :=
    if Z.land (flag_bits zi) _MASK_USE_DATA_DESCRIPTOR =? 0
    then (CRC zi, compress_size zi, file_size zi)
    else (0, 0, 0) in
  let* extra :=
    if zip64
    then let* z := pack [(fH, 1); (fH, 16); (fQ, fsize); (fQ, csize)] in
         Ok (extra zi ++ z)
    else Ok (extra zi) in
  let* (fsize, csize, min_version) :=
    if (fsize >? ZIP64_LIMIT) || (csize >? ZIP64_LIMIT)
    then if zip64
         then Ok (0xffffffff, 0xffffffff, ZIP64_VERSION)
         else Err LargeZipFile
    else Ok (fsize, csize, 0) in
  let min_version := method_version (compress_type zi) min_version in
  let zi' := set_versions zi (Z.max min_version (create_version zi))
                             (Z.max min_version (extract_version zi)) in
  let '(fname, flags) := _encodeFilenameFlags zi' in
  let* header :=
    pack [(fB, extract_version zi'); (fB, 0); (fH, flags);
          (fH, compress_code (compress_type zi')); (fH, dostime dt);
          (fH, dosdate dt); (fL, crc); (fL, csize); (fL, fsize);
          (fH, Z.of_nat (length fname)); (fH, Z.of_nat (length extra))] in
  Ok (zi', stringFileHeader ++ header ++ fname ++ extra).

(** ** [zipfile]: the central directory

    [_strip_extra(extra, xids)] with [xids = (1,)]: the extra field
    without its ZIP64 records.  Every round of the loop moves [i] at least
    four bytes on, so [length extra] rounds are enough. *)
Fixpoint _strip_extra_loop (fuel : nat) (extra : bytes) (xid : Z)
    (i start : nat) (modified : bool) (buffer : bytes) : bytes :=
  let finish :=
    if modified then buffer ++ drop start extra else extra in
  match fuel with
  | O => finish
  | S fuel' =>
      if (i + 4 <=? length extra)%nat then
        let x := le_value (take 2 (drop i extra)) in
        let xlen := le_value (take 2 (drop (i + 2) extra)) in
        let j := (i + 4 + Z.to_nat xlen)%nat in
        if x =? xid
        then _strip_extra_loop fuel' extra xid j j true
               (buffer ++ take (i - start) (drop start extra))
        else _strip_extra_loop fuel' extra xid j start modified buffer
      else finish
  end.

Definition _strip_extra (extra : bytes) (xid : Z) : bytes :=
  _strip_extra_loop (S (length extra)) extra xid 0 0 false [].

(** One central-directory record, as [ZipFile._write_end_record] writes it,
    and next to it the descriptor that [ZipFile._RealGetContents] rebuilds
    from that record when the archive is opened again: the sizes and the
    offset come back unchanged, the time stamp in DOS resolution, the
    versions raised, the ZIP64 record (when one was needed) in [extra]. *)
Definition central_record (zi : ZipInfo) : result (ZipInfo * bytes) :=
  let big := (file_size zi >? ZIP64_LIMIT) || (compress_size zi >? ZIP64_LIMIT) in
  let far := header_offset zi >? ZIP64_LIMIT in
  let extra64 :=
    (if big then [file_size zi; compress_size zi] else [])
      ++ (if far then [header_offset zi] else []) in
  let fsize := if big then 0xffffffff else file_size zi in
  let csize := if big then 0xffffffff else compress_size zi in
  let hoff := if far then 0xffffffff else header_offset zi in
  let* extra_data :=
    match extra64 with
    | [] => Ok (extra zi)
    | _ =>
        let* z := pack ((fH, 1) :: (fH, 8 * Z.of_nat (length extra64))
                          :: map (fun v => (fQ, v)) extra64) in
        Ok (z ++ _strip_extra (extra zi) 1)
    end in
  let min_version :=
    method_version (compress_type zi)
      (match extra64 with [] => 0 | _ => ZIP64_VERSION end) in
  let ev := Z.max min_version (extract_version zi) in
  let cv := Z.max min_version (create_version zi) in
  let '(fname, flags) := _encodeFilenameFlags zi in
  let d := dosdate (date_time zi) in
  let t := dostime (date_time zi) in
  let* centdir :=
    pack [(fB, cv); (fB, 3); (fB, ev); (fB, 0); (fH, flags);
          (fH, compress_code (compress_type zi)); (fH, t); (fH, d);
          (fL, CRC zi); (fL, csize); (fL, fsize);
          (fH, Z.of_nat (length fname)); (fH, Z.of_nat (length extra_data));
          (fH, 0); (fH, 0); (fH, 0); (fL, 0); (fL, hoff)] in
  Ok ({| filename := filename zi;
         date_time :=
           {| year := Z.shiftr d 9 + 1980;
              month := Z.land (Z.shiftr d 5) 0xF;
              day := Z.land d 0x1F;
              hour := Z.shiftr t 11;
              minute := Z.land (Z.shiftr t 5) 0x3F;
              second := Z.land t 0x1F * 2 |};
         compress_type := compress_type zi;
         extra := extra_data;
         create_version := cv; extract_version := ev; flag_bits := flags;
         CRC := CRC zi; compress_size := compress_size zi;
         file_size := file_size zi; header_offset := header_offset zi |},
      stringCentralDir ++ centdir ++ fname ++ extra_data).

Fixpoint central_records (infos : list ZipInfo) : result (list ZipInfo * bytes) :=
  match infos with
  | [] => Ok ([], [])
  | zi :: rest =>
      let* (zi', b) := central_record zi in
      let* (rest', bs) := central_records rest in
      Ok (zi' :: rest', b ++ bs)
  end.

(** [ZipFile._write_end_record], for an archive without comment: the
    central directory followed by the end-of-archive record (and by the
    ZIP64 end records first, when the directory needs them).  Returns the
    directory as the next open will load it, and the bytes. *)
Definition _write_end_record (start_dir : Z) (infos : list ZipInfo)
  : result (list ZipInfo * bytes) :=
  let* (loaded, cd) := central_records infos in
  let pos2 := start_dir + Z.of_nat (length cd) in
  let centDirCount := Z.of_nat (length infos) in
  let centDirSize := pos2 - start_dir in
  let centDirOffset := start_dir in
  let requires_zip64 :=
    (centDirCount >? ZIP_FILECOUNT_LIMIT) || (centDirOffset >? ZIP64_LIMIT)
      || (centDirSize >? ZIP64_LIMIT) in
  let* zip64recs :=
    if requires_zip64 then
      let* zip64endrec :=
        pack [(fQ, 44); (fH, 45); (fH, 45); (fL, 0); (fL, 0);
              (fQ, centDirCount); (fQ, centDirCount);
              (fQ, centDirSize); (fQ, centDirOffset)] in
      let* zip64locrec := pack [(fL, 0); (fQ, pos2); (fL, 1)] in
      Ok (stringEndArchive64 ++ zip64endrec
            ++ stringEndArchive64Locator ++ zip64locrec)
    else Ok [] in
  let centDirCount :=
    if requires_zip64 then Z.min centDirCount 0xFFFF else centDirCount in
  let centDirSize :=
    if requires_zip64 then Z.min centDirSize 0xFFFFFFFF else centDirSize in
  let centDirOffset :=
    if requires_zip64 then Z.min centDirOffset 0xFFFFFFFF else centDirOffset in
  let* endrec :=
    pack [(fH, 0); (fH, 0); (fH, centDirCount); (fH, centDirCount);
          (fL, centDirSize); (fL, centDirOffset); (fH, 0)] in
  Ok (loaded, cd ++ zip64recs ++ stringEndArchive ++ endrec).

(** ** Archives on disk and [ZipFile] sessions *)

(** A ZIP archive stored at some path: the bytes of the file, and what
    opening it parses from its end: where the central directory starts
    and the entries it lists. *)
Record archive := {
  contents : bytes;
  dir_offset : Z;
  directory : list ZipInfo
}.

(** The entries a session holds are [ZipInfo] objects.  The writer puts
    its own descriptor object into the list and goes on mutating it, so
    the list refers to it ([Self]) instead of holding a copy. *)
Inductive zref := Loaded (zi : ZipInfo) | Self.

Definition deref (self_zi : ZipInfo) (r : zref) : ZipInfo :=
  match r with
  | Loaded zi => zi
  | Self => self_zi
  end.

(** A [zipfile.ZipFile] object. *)
Record ZipFile := {
  fp : option stream;
  filelist : list zref;
  NameToInfo : gmap string zref;
  start_dir : Z;
  _didModify : bool
}.

Definition name_index (infos : list ZipInfo) : gmap string zref :=
  fold_left (fun m zi => <[filename zi := Loaded zi]> m) infos ∅.

(** [ZipFile(path, "a")]: an existing archive is parsed and the stream
    positioned on its central directory; a missing file is created
    empty. *)
Definition ZipFile_append (file : option archive) : ZipFile :=
  match file with
  | Some a =>
      {| fp := Some {| buf := contents a; pos := dir_offset a |};
         filelist := Loaded <$> directory a;
         NameToInfo := name_index (directory a);
         start_dir := dir_offset a;
         _didModify := false |}
  | None =>
      {| fp := Some {| buf := []; pos := 0 |};
         filelist := [];
         NameToInfo := ∅;
         start_dir := 0;
         _didModify := true |}
  end.

(** [ZipFile.close()] of an append session.  A modified archive gets its
    central directory rewritten at [start_dir] and is cut there; an
    unmodified one keeps the directory it was opened with. *)
Definition ZipFile_close (self_zi : ZipInfo) (old : option archive)
    (zf : ZipFile) : result (option archive) :=
  match fp zf with
  | None => Ok old
  | Some s =>
      if _didModify zf then
        let* s := seek s (start_dir zf) in
        let* (loaded, tail) :=
          _write_end_record (start_dir zf) (deref self_zi <$> filelist zf) in
        let s := truncate (write s tail) in
        Ok (Some {| contents := buf s;
                    dir_offset := start_dir zf;
                    directory := loaded |})
      else
        Ok (Some {| contents := buf s;
                    dir_offset := start_dir zf;
                    directory := from_option directory [] old |})
  end.

(** [ZipFile.getinfo(name)]: the last entry loaded under that name. *)
Definition getinfo (infos : list ZipInfo) (name : string) : option ZipInfo :=
  last (filter (fun zi => filename zi = name) infos).

(** ** Compression backends ([zlib], [bz2], [lzma])

    A streaming compressor is a deterministic object: what a call returns
    is a function of the calls made on it before.  The backends are
    therefore given by that function, [codec_call], and a compressor
    object is the list of the calls it has served.  [codec_decompress] is
    what the matching streaming decompressor of [zipfile] produces for a
    compressed stream. *)

Inductive op :=
| Compress (data : bytes)      (* compressor.compress(data) *)
| Flush (mode : option Z).     (* compressor.flush() / compressor.flush(mode) *)

Class codec := {
  codec_call : compress_method -> list op -> op -> result bytes;
  codec_decompress : compress_method -> bytes -> result bytes
}.

(** An object held by the registry: the compressor that
    [zipfile] builds for [method], and the calls it has served, oldest
    first. *)
Record compressor := {
  method : compress_method;
  calls : list op
}.

(** What [get_compressor] hands out: a new [EmptyCompress()] object, or
    the object registered under a key. *)
Inductive adapter :=
| EmptyCompress
| Registered (key : string).

(** ** The world of a writer *)

Record world := {
  fs : gmap string archive;                        (* archives by path *)
  zip_compressor_storage : gmap string compressor; (* the module's dict *)
  clock : nat -> datetime;                         (* successive [datetime.now()] *)
  ticks : nat
}.

Definition set_fs (w : world) (f : gmap string archive) : world :=
  {| fs := f; zip_compressor_storage := zip_compressor_storage w;
     clock := clock w; ticks := ticks w |}.

Definition set_storage (w : world) (r : gmap string compressor) : world :=
  {| fs := fs w; zip_compressor_storage := r;
     clock := clock w; ticks := ticks w |}.

Definition datetime_now (w : world) : datetime * world :=
  (clock w (ticks w),
   {| fs := fs w; zip_compressor_storage := zip_compressor_storage w;
      clock := clock w; ticks := S (ticks w) |}).

(** ** [chunky_zip.storage_zip] *)

(** The attributes of a writer object. *)
Record writer := {
  output_zip : string;
  filename_in_zip : string;
  compression : compress_method;
  zipinfo : ZipInfo
}.

Definition set_zipinfo (self : writer) (zi : ZipInfo) : writer :=
  {| output_zip := output_zip self; filename_in_zip := filename_in_zip self;
     compression := compression self; zipinfo := zi |}.

Definition set_fp (zf : ZipFile) (s : stream) : ZipFile :=
  {| fp := Some s; filelist := filelist zf; NameToInfo := NameToInfo zf;
     start_dir := start_dir zf; _didModify := _didModify zf |}.

Definition _extract_zipinfo (output_zip filename_in_zip : string)
    (compression : compress_method) (w : world) : result (ZipInfo * world) :=
  let fresh :=
    let '(dt, w') := datetime_now w in
    let* zi := new_ZipInfo filename_in_zip dt in
    Ok ({| filename := filename zi; date_time := date_time zi;
           compress_type := compression; extra := extra zi;
           create_version := create_version zi;
           extract_version := extract_version zi;
           flag_bits := flag_bits zi;
           CRC := crc32 [] 0; compress_size := 0; file_size := 0;
           header_offset := 0 |}, w') in
  match fs w !! output_zip with
  | Some a =>
      match getinfo (directory a) filename_in_zip with
      | Some zi => Ok (zi, w)
      | None => fresh
      end
  | None => fresh
  end.

Definition _exclude_file_info (self : writer) (zip_infos : list zref) : list zref :=
  filter (fun z => filename (deref (zipinfo self) z) <> filename_in_zip self)
         zip_infos.

Definition swap_zipinfo (self : writer) (zip_file : ZipFile) : ZipFile :=
  {| fp := fp zip_file;
     filelist := _exclude_file_info self (filelist zip_file) ++ [Self];
     NameToInfo := <[filename_in_zip self := Self]> (NameToInfo zip_file);
     start_dir := start_dir zip_file;
     _didModify := _didModify zip_file |}.

Definition update_zip_info_time (self : writer) (w : world) : writer * world :=
  let '(dt, w') := datetime_now w in
  (set_zipinfo self (set_date_time (zipinfo self) dt), w').

Definition update_zipinfo_data (self : writer) (chunk : option bytes)
    (compressed_data : bytes) (w : world) : writer * world :=
  let '(self, w) := update_zip_info_time self w in
  let zi := set_compress_size (zipinfo self)
              (compress_size (zipinfo self) + Z.of_nat (length compressed_data)) in
  match chunk with
  | Some chunk =>
      (set_zipinfo self
         (set_file_size_CRC zi (file_size zi + Z.of_nat (length chunk))
                            (crc32 chunk (CRC zi))), w)
  | None => (set_zipinfo self zi, w)
  end.

(** Python floats are IEEE 754 binary64. *)
Definition prec : Z := 53.
Definition emax : Z := 1024.

(** [float(z)] *)
Definition float_of_int (z : Z) : spec_float := binary_normalize prec emax z 0 false.

(** The literal [1.05]: the double nearest to 21/20. *)
Definition float_1_05 : spec_float := S754_finite false 4728779608739021 (-52).

(** [self.zipinfo.file_size * 1.05 > ZIP64_LIMIT] *)
Definition force_zip64 (self : writer) : bool :=
  match SFcompare (SFmul prec emax (float_of_int (file_size (zipinfo self))) float_1_05)
                  (float_of_int ZIP64_LIMIT) with
  | Some Gt => true
  | _ => false
  end.

Definition write_zipinfo (self : writer) (write_stream : option stream)
  : result (writer * stream) :=
  match write_stream with
  | None => Err ArchiveClosed
  | Some s =>
      let* s := seek s (header_offset (zipinfo self)) in
      let* (zi, header) := FileHeader (zipinfo self) (force_zip64 self) in
      Ok (set_zipinfo self zi, write s header)
  end.

Definition write_appended_data (self : writer) (write_stream : option stream)
    (data : bytes) : result stream :=
  match write_stream with
  | None => Err ArchiveClosed
  | Some s =>
      let initial_offset := tell s in
      let* s := seek s (initial_offset + compress_size (zipinfo self)) in
      Ok (write s data)
  end.

Definition update_start_dir (zip_file : ZipFile) (write_stream : option stream)
  : result ZipFile :=
  match write_stream with
  | None => Err ArchiveClosed
  | Some s =>
      Ok {| fp := fp zip_file; filelist := filelist zip_file;
            NameToInfo := NameToInfo zip_file;
            start_dir := tell s;
            _didModify := _didModify zip_file |}
  end.

Definition mark_modified (zf : ZipFile) : ZipFile :=
  {| fp := fp zf; filelist := filelist zf; NameToInfo := NameToInfo zf;
     start_dir := start_dir zf; _didModify := true |}.

(** The session of [_write], up to and without the [close()] that leaving
    the [with] block performs. *)
Definition _write_session (self : writer) (chunk : option bytes)
    (compressed_data : bytes) (w : world) : result (writer * ZipFile * world) :=
  let zf := ZipFile_append (fs w !! output_zip self) in
  let '(self, w) := update_zip_info_time self w in
  let zf := swap_zipinfo self zf in
  let* (self, s) := write_zipinfo self (fp zf) in
  let zf := set_fp zf s in
  let* s := write_appended_data self (fp zf) compressed_data in
  let zf := set_fp zf s in
  let '(self, w) := update_zipinfo_data self chunk compressed_data w in
  let* zf := update_start_dir zf (fp zf) in
  let* (self, s) := write_zipinfo self (fp zf) in
  let zf := set_fp zf s in
  Ok (self, mark_modified zf, w).

Definition _write (self : writer) (chunk : option bytes)
    (compressed_data : bytes) (w : world) : result (writer * world) :=
  let old := fs w !! output_zip self in
  let* (self, zf, w) := _write_session self chunk compressed_data w in
  let* a := ZipFile_close (zipinfo self) old zf in
  Ok (self, set_fs w (match a with
                      | Some a => <[output_zip self := a]> (fs w)
                      | None => fs w
                      end)).

Module ChunkedStoredZipWriter.

Definition __init__ (output_zip filename_in_zip : string) (w : world)
  : result (writer * world) :=
  let* (zi, w) := _extract_zipinfo output_zip filename_in_zip ZIP_STORED w in
  Ok ({| output_zip := output_zip; filename_in_zip := filename_in_zip;
         compression := ZIP_STORED; zipinfo := zi |}, w).

Definition write_chunk (self : writer) (chunk : bytes) (w : world)
  : result (writer * world) :=
  _write self (Some chunk) chunk w.

Definition flush (self : writer) (w : world) : result (writer * world) :=
  Ok (self, w).

Definition close (self : writer) (w : world) : result (writer * world) :=
  Ok (self, w).

Definition __exit__ (self : writer) (w : world) : result (writer * world) :=
  close self w.

End ChunkedStoredZipWriter.

(** ** [chunky_zip.compressed_zip] *)

Definition _compressor_path (self : writer) : string :=
  (output_zip self ++ "/" ++ filename_in_zip self)%string.

(** The header that [zip_file.open(filename_in_zip, "w")] writes into the
    throwaway archive; it raises what [FileHeader] raises. *)
Definition throwaway_header (self : writer) : result (ZipInfo * bytes) :=
  let* zi := new_ZipInfo (filename_in_zip self)
               {| year := 1980; month := 1; day := 1;
                  hour := 0; minute := 0; second := 0 |} in
  FileHeader {| filename := filename zi; date_time := date_time zi;
                compress_type := compression self; extra := extra zi;
                create_version := create_version zi;
                extract_version := extract_version zi;
                flag_bits := flag_bits zi; CRC := CRC zi;
                compress_size := compress_size zi;
                file_size := file_size zi;
                header_offset := header_offset zi |} false.

(** One call on an adapter.  [EmptyCompress.flush] takes no argument. *)
Definition adapter_call `{codec} (a : adapter) (o : op) (w : world)
  : result (bytes * world) :=
  match a with
  | EmptyCompress =>
      match o with
      | Compress data => Ok (data, w)
      | Flush None => Ok ([], w)
      | Flush (Some _) => Err TypeError
      end
  | Registered key =>
      match zip_compressor_storage w !! key with
      | None => Err KeyError
      | Some c =>
          let* out := codec_call (method c) (calls c) o in
          Ok (out,
              set_storage w
                (<[key := {| method := method c; calls := calls c ++ [o] |}]>
                   (zip_compressor_storage w)))
      end
  end.

Module ChunkedCompressedZipWriter.

Definition __init__ (output_zip filename_in_zip : string)
    (compression : compress_method) (w : world) : result (writer * world) :=
  let* (zi, w) := _extract_zipinfo output_zip filename_in_zip compression w in
  Ok ({| output_zip := output_zip; filename_in_zip := filename_in_zip;
         compression := compression; zipinfo := zi |}, w).

Definition get_compressor (self : writer) (w : world)
  : result (adapter * world) :=
  if decide (compression self = ZIP_STORED) then Ok (EmptyCompress, w)
  else
    match zip_compressor_storage w !! _compressor_path self with
    | Some _ => Ok (Registered (_compressor_path self), w)
    | None =>
        let* _ := throwaway_header self in
        Ok (Registered (_compressor_path self),
            set_storage w
              (<[_compressor_path self :=
                   {| method := compression self; calls := [] |}]>
                 (zip_compressor_storage w)))
    end.

Definition write_chunk `{codec} (self : writer) (chunk : bytes) (w : world)
  : result (writer * world) :=
  let* (a, w) := get_compressor self w in
  let* (data, w) := adapter_call a (Compress chunk) w in
  _write self (Some chunk) data w.

Definition flush `{codec} (self : writer) (w : world)
  : result (writer * world) :=
  match compression self with
  | ZIP_BZIP2 | ZIP_LZMA =>
      let* (a, w) := get_compressor self w in
      let* (buffered_data, w) := adapter_call a (Flush None) w in
      if (length buffered_data =? 0)%nat then Ok (self, w)
      else _write self None buffered_data w
  | _ => Ok (self, w)
  end.

Definition close `{codec} (self : writer) (w : world)
  : result (writer * world) :=
  match compression self with
  | ZIP_DEFLATED =>
      let* (a, w) := get_compressor self w in
      let* (buffered_data, w) := adapter_call a (Flush (Some Z_FULL_FLUSH)) w in
      if (length buffered_data =? 0)%nat then Ok (self, w)
      else _write self None buffered_data w
  | _ => Ok (self, w)
  end.

Definition __exit__ `{codec} (self : writer) (w : world)
  : result (writer * world) :=
  close self w.

End ChunkedCompressedZipWriter.

(** ** [chunky_zip]: the chunk loop *)

Definition DEFAULT_CHUNK_SIZE : nat := 1024 * 1024.

(** [read_file_in_chunks]: the successive [file_obj.read(chunk_size)] up to
    the first empty one.  Every read of a positive size shortens the rest,
    so as many rounds as there are bytes are enough. *)
Fixpoint read_chunks (fuel : nat) (rest : bytes) (chunk_size : nat) : list bytes :=
  match fuel with
  | O => []
  | S fuel' =>
      let chunk := take chunk_size rest in
      match chunk with
      | [] => []
      | _ => chunk :: read_chunks fuel' (drop chunk_size rest) chunk_size
      end
  end.

Definition read_file_in_chunks (file_obj : bytes) (chunk_size : nat) : list bytes :=
  read_chunks (length file_obj) file_obj chunk_size.

(** [os.path.basename] (POSIX): what follows the last slash. *)
Fixpoint basename (path : string) : string :=
  match path with
  | EmptyString => EmptyString
  | String c rest =>
      if Ascii.eqb c "/" then basename rest
      else if existsb (Ascii.eqb "/") (list_ascii_of_string rest)
           then basename rest
           else path
  end.

(** The two loops of [zip_file_in_chunks], over the chunks that the source
    file yields: one writer per chunk, entered, used and left, then one
    more writer for [flush()]. *)
Fixpoint stored_loop (chunks : list bytes)
    (output_zip filename_in_zip : string) (w : world) : result world :=
  match chunks with
  | [] => Ok w
  | chunk :: rest =>
      let* (zw, w) := ChunkedStoredZipWriter.__init__ output_zip filename_in_zip w in
      let* (zw, w) := ChunkedStoredZipWriter.write_chunk zw chunk w in
      let* (_, w) := ChunkedStoredZipWriter.__exit__ zw w in
      stored_loop rest output_zip filename_in_zip w
  end.

Fixpoint compressed_loop `{codec} (chunks : list bytes)
    (output_zip filename_in_zip : string) (compression : compress_method)
    (w : world) : result world :=
  match chunks with
  | [] => Ok w
  | chunk :: rest =>
      let* (zw, w) := ChunkedCompressedZipWriter.__init__
                        output_zip filename_in_zip compression w in
      let* (zw, w) := ChunkedCompressedZipWriter.write_chunk zw chunk w in
      let* (_, w) := ChunkedCompressedZipWriter.__exit__ zw w in
      compressed_loop rest output_zip filename_in_zip compression w
  end.

(** [zip_file_in_chunks], given the chunks read from [input_file]. *)
Definition zip_chunks `{codec} (chunks : list bytes)
    (input_file output_zip : string) (compression : compress_method)
    (w : world) : result world :=
  let filename_in_zip := basename input_file in
  if decide (compression = ZIP_STORED) then
    let* w := stored_loop chunks output_zip filename_in_zip w in
    let* (zw, w) := ChunkedStoredZipWriter.__init__ output_zip filename_in_zip w in
    let* (zw, w) := ChunkedStoredZipWriter.flush zw w in
    let* (_, w) := ChunkedStoredZipWriter.__exit__ zw w in
    Ok w
  else
    let* w := compressed_loop chunks output_zip filename_in_zip compression w in
    let* (zw, w) := ChunkedCompressedZipWriter.__init__
                      output_zip filename_in_zip compression w in
    let* (zw, w) := ChunkedCompressedZipWriter.flush zw w in
    let* (_, w) := ChunkedCompressedZipWriter.__exit__ zw w in
    Ok w.

(** [zip_file_in_chunks(input_file, output_zip, compression)], where
    [source] is what [input_file] holds. *)
Definition zip_file_in_chunks `{codec} (source : bytes)
    (input_file output_zip : string) (compression : compress_method)
    (w : world) : result world :=
  zip_chunks (read_file_in_chunks source DEFAULT_CHUNK_SIZE)
             input_file output_zip compression w.

(** ** Reading an entry back

    [ZipFile(path).open(name).read()], as [tests/utils.py] reads an entry:
    the central directory gives the entry's sizes, CRC and header offset;
    the local header gives the start of the data; the data is
    decompressed, cut at the declared size and checked against the CRC. *)
Definition read_entry `{codec} (a : archive) (name : string) : result bytes :=
  match getinfo (directory a) name with
  | None => Err KeyError
  | Some zi =>
      let at_header := drop (Z.to_nat (header_offset zi)) (contents a) in
      let fheader := take sizeFileHeader at_header in
      if negb (length fheader =? sizeFileHeader)%nat then Err BadZipFile
      else if negb (bool_decide (take 4 fheader = stringFileHeader)) then Err BadZipFile
      else
        let fname_len := Z.to_nat (le_value (take 2 (drop 26 fheader))) in
        let extra_len := Z.to_nat (le_value (take 2 (drop 28 fheader))) in
        let fname := take fname_len (drop sizeFileHeader at_header) in
        if negb (bool_decide (fname = bytes_of_string (filename zi)))
        then Err BadZipFile
        else
          let data :=
            take (Z.to_nat (compress_size zi))
                 (drop (sizeFileHeader + fname_len + extra_len) at_header) in
          let* plain :=
            match compress_type zi with
            | ZIP_STORED => Ok data
            | m => codec_decompress m data
            end in
          let plain := take (Z.to_nat (file_size zi)) plain in
          if crc32 plain 0 =? CRC zi then Ok plain else Err BadZipFile
  end.

(** ** Instances used in examples

    A toy backend that holds back everything it is fed and releases it on
    the next flush, of whichever kind; its compressed streams are their own
    plain text. *)

Fixpoint pending (h : list op) (acc : bytes) : bytes :=
  match h with
  | [] => acc
  | Compress d :: h' => pending h' (acc ++ d)
  | Flush _ :: h' => pending h' []
  end.

Definition hold_codec : codec := {|
  codec_call _ h o :=
    match o with
    | Compress _ => Ok []
    | Flush _ => Ok (pending h [])
    end;
  codec_decompress _ d := Ok d
|}.

(** A clock that advances by one second per reading. *)
Definition example_clock (n : nat) : datetime :=
  {| year := 2025; month := 3; day := 14;
     hour := 15; minute := 9; second := Z.of_nat n mod 60 |}.

(** No archive on disk, nothing registered. *)
Definition empty_world : world :=
  {| fs := ∅; zip_compressor_storage := ∅;
     clock := example_clock; ticks := 0 |}.

(** ** Measures used in the statements *)

Fixpoint fields_size (fields : list (fmt * Z)) : nat :=
  match fields with
  | [] => 0
  | (f, _) :: rest => fmt_size f + fields_size rest
  end%nat.

(** The length of [FileHeader(zip64)]: thirty fixed bytes, the name, the
    extra field, and twenty more bytes for the ZIP64 record. *)
Definition header_length (zi : ZipInfo) (zip64 : bool) : nat :=
  (sizeFileHeader + length (bytes_of_string (filename zi)) + length (extra zi)
   + (if zip64 then 20 else 0))%nat.

(** Two descriptors that differ at most in their versions. *)
Definition same_but_versions (a b : ZipInfo) : Prop :=
  filename a = filename b /\ date_time a = date_time b
  /\ compress_type a = compress_type b /\ extra a = extra b
  /\ flag_bits a = flag_bits b /\ CRC a = CRC b
  /\ compress_size a = compress_size b /\ file_size a = file_size b
  /\ header_offset a = header_offset b.

(** Two descriptors that name the same entry with the same sizes, CRC,
    method and header offset. *)
Definition same_entry (a b : ZipInfo) : Prop :=
  filename a = filename b /\ compress_type a = compress_type b
  /\ CRC a = CRC b /\ compress_size a = compress_size b
  /\ file_size a = file_size b /\ header_offset a = header_offset b.

(** The stream that [ZipFile(path, "a")] starts from. *)
Definition open_stream (old : option archive) : stream :=
  match old with
  | Some a => {| buf := contents a; pos := dir_offset a |}
  | None => {| buf := []; pos := 0 |}
  end.

Definition old_directory (old : option archive) : list ZipInfo :=
  match old with
  | Some a => directory a
  | None => []
  end.

(** The descriptor after [update_zipinfo_data], apart from its time
    stamp. *)
Definition counted (zi : ZipInfo) (chunk : option bytes) (data : bytes) : ZipInfo :=
  let zi := set_compress_size zi (compress_size zi + Z.of_nat (length data)) in
  match chunk with
  | Some chunk =>
      set_file_size_CRC zi (file_size zi + Z.of_nat (length chunk))
                        (crc32 chunk (CRC zi))
  | None => zi
  end.

Definition tick (n : nat) (w : world) : world :=
  {| fs := fs w; zip_compressor_storage := zip_compressor_storage w;
     clock := clock w; ticks := (n + ticks w)%nat |}.

(** The number of entries of a directory listing that bear a name. *)
Definition count_named (name : string) (infos : list ZipInfo) : nat :=
  length (filter (fun zi => filename zi = name) infos).

(** The writer that [ChunkedStoredZipWriter("out.zip", "in.txt")] builds
    when there is no archive yet. *)
Definition example_stored_writer : writer :=
  {| output_zip := "out.zip"; filename_in_zip := "in.txt";
     compression := ZIP_STORED;
     zipinfo := {| filename := "in.txt"; date_time := example_clock 0;
                   compress_type := ZIP_STORED; extra := [];
                   create_version := DEFAULT_VERSION;
                   extract_version := DEFAULT_VERSION; flag_bits := 0;
                   CRC := 0; compress_size := 0; file_size := 0;
                   header_offset := 0 |} |}.

(** The outputs of a run of calls on a compressor of a method that has
    served [h]. *)
Fixpoint codec_run `{codec} (m : compress_method) (h : list op) (ops : list op)
  : result (list bytes) :=
  match ops with
  | [] => Ok []
  | o :: rest =>
      let* out := codec_call m h o in
      let* outs := codec_run m (h ++ [o]) rest in
      Ok (out :: outs)
  end.

(** The compressor that a writer for [key] will be handed: the registered
    one, or a new one of the writer's method. *)
Definition live (m : compress_method) (key : string) (w : world) : compressor :=
  match zip_compressor_storage w !! key with
  | Some c => c
  | None => {| method := m; calls := [] |}
  end.

(** The archive at [out] lists [name] with these counters. *)
Definition holds_entry (out name : string) (crc fsz csz : Z) (w : world) : Prop :=
  exists a zi,
    fs w !! out = Some a /\ getinfo (directory a) name = Some zi
    /\ filename zi = name /\ CRC zi = crc /\ file_size zi = fsz
    /\ compress_size zi = csz.

(** The counters that the next writer for [name] starts from: those of
    the listed entry, or the initial ones when there is no archive. *)
Definition entry_state (out name : string) (crc fsz csz : Z) (w : world) : Prop :=
  (fs w !! out = None /\ crc = crc32 [] 0 /\ fsz = 0 /\ csz = 0)
  \/ holds_entry out name crc fsz csz w.

(** The calls on the compressor of a method: those that [flush()] and
    [close()] make, those of one round of the chunk loop (the chunk, then
    the [close()] of leaving the writer), and those of the final writer
    ([flush()], then [close()]). *)
Definition flush_calls (m : compress_method) : list op :=
  match m with
  | ZIP_BZIP2 | ZIP_LZMA => [Flush None]
  | _ => []
  end.

Definition exit_calls (m : compress_method) : list op :=
  match m with
  | ZIP_DEFLATED => [Flush (Some Z_FULL_FLUSH)]
  | _ => []
  end.

Definition chunk_calls (m : compress_method) (chunk : bytes) : list op :=
  Compress chunk :: exit_calls m.

Definition final_calls (m : compress_method) : list op :=
  flush_calls m ++ exit_calls m.

Definition loop_calls (m : compress_method) (chunks : list bytes) : list op :=
  flat_map (chunk_calls m) chunks.

Definition total_length (outs : list bytes) : Z := Z.of_nat (length (concat outs)).

(** A writer for [name] in [out] whose descriptor carries these
    counters. *)
Definition writer_at (self : writer) (out name : string) (m : compress_method)
    (crc fsz csz : Z) : Prop :=
  output_zip self = out /\ filename_in_zip self = name /\ compression self = m
  /\ filename (zipinfo self) = name /\ CRC (zipinfo self) = crc
  /\ file_size (zipinfo self) = fsz /\ compress_size (zipinfo self) = csz.

Definition fed_crc (chunk : option bytes) (crc : Z) : Z :=
  match chunk with
  | Some c => crc32 c crc
  | None => crc
  end.

Definition fed_size (chunk : option bytes) (fsz : Z) : Z :=
  match chunk with
  | Some c => fsz + Z.of_nat (length c)
  | None => fsz
  end.

(** From world [w] to world [w'], the compressor for [key] has served
    [ops] and answered [outs]. *)
Definition ran `{codec} (m : compress_method) (key : string) (w : world)
    (ops : list op) (outs : list bytes) (w' : world) : Prop :=
  codec_run (method (live m key w)) (calls (live m key w)) ops = Ok outs
  /\ live m key w'
     = {| method := method (live m key w);
          calls := calls (live m key w) ++ ops |}.

Definition key_of (out name : string) : string := (out ++ "/" ++ name)%string.

(** The shape that [flush] and [close] share: one flush call on the
    compressor, and its output, unless empty, written without chunk. *)
Definition drain `{codec} (self : writer) (o : op) (w : world)
  : result (writer * world) :=
  let* (a, w) := ChunkedCompressedZipWriter.get_compressor self w in
  let* (buffered_data, w) := adapter_call a o w in
  if (length buffered_data =? 0)%nat then Ok (self, w)
  else _write self None buffered_data w.

Definition example_chunks : list bytes :=
  [bytes_of_string "hello "; bytes_of_string "world"].

(** The [n] bytes of [b] from offset [x] on. *)
Definition segment (x n : nat) (b : bytes) : bytes := take n (drop x b).

(** The fields of a local file header, read back from its bytes. *)
Definition header_CRC (hdr : bytes) : Z := le_value (segment 14 4 hdr).
Definition header_compress_size (hdr : bytes) : Z := le_value (segment 18 4 hdr).
Definition header_file_size (hdr : bytes) : Z := le_value (segment 22 4 hdr).

(** The sizes in the ZIP64 record that ends a header written with
    [zip64 = True]. *)
Definition zip64_file_size (hdr : bytes) : Z :=
  le_value (segment (length hdr - 16) 8 hdr).
Definition zip64_compress_size (hdr : bytes) : Z :=
  le_value (segment (length hdr - 8) 8 hdr).

(** A stored writer resuming an entry of 2045222521 bytes. *)
Definition example_large_writer : writer :=
  {| output_zip := "out.zip"; filename_in_zip := "in.txt";
     compression := ZIP_STORED;
     zipinfo := {| filename := "in.txt"; date_time := example_clock 0;
                   compress_type := ZIP_STORED; extra := [];
                   create_version := DEFAULT_VERSION;
                   extract_version := DEFAULT_VERSION; flag_bits := 0;
                   CRC := 0; compress_size := 2045222521;
                   file_size := 2045222521; header_offset := 0 |} |}.

(** A writer bound to the entry name [F] in the archive at [out]: an
    object that one of the two classes has constructed for [out] and [F],
    as it is then or after any number of successful [_write]s, the only
    method that changes a writer. *)
Inductive bound_to (out F : string) : writer -> Prop :=
| bound_stored w0 self w1 :
    ChunkedStoredZipWriter.__init__ out F w0 = Ok (self, w1) ->
    bound_to out F self
| bound_compressed m w0 self w1 :
    ChunkedCompressedZipWriter.__init__ out F m w0 = Ok (self, w1) ->
    bound_to out F self
| bound_written self chunk data w self' w' :
    bound_to out F self ->
    _write self chunk data w = Ok (self', w') ->
    bound_to out F self'.

(** An entry name with a null character, [a\x00b]. *)
Definition example_nul_name : string :=
  String "a" (String Ascii.zero (String "b" EmptyString)).

(** A writer whose descriptor records more compressed bytes than a header
    without ZIP64 can hold. *)
Definition example_oversized_writer : writer :=
  {| output_zip := "out.zip"; filename_in_zip := "in.txt";
     compression := ZIP_DEFLATED;
     zipinfo := {| filename := "in.txt"; date_time := example_clock 0;
                   compress_type := ZIP_DEFLATED; extra := [];
                   create_version := DEFAULT_VERSION;
                   extract_version := DEFAULT_VERSION; flag_bits := 0;
                   CRC := 0; compress_size := 2147483648;
                   file_size := 0; header_offset := 0 |} |}.

(** From [w] to [w'], nothing changed but the archive at [out] and the
    registered compressor for [key] (and the clock went on). *)
Definition frame (out key : string) (w w' : world) : Prop :=
  (forall p, p <> out -> fs w' !! p = fs w !! p)
  /\ (forall k, k <> key ->
        zip_compressor_storage w' !! k = zip_compressor_storage w !! k)
  /\ clock w' = clock w.

(** Whether a path holds a slash. *)
Definition has_slash (s : string) : bool :=
  existsb (Ascii.eqb "/") (list_ascii_of_string s).

(** The writer that [ChunkedStoredZipWriter("other.zip", "in.txt")] builds
    when there is no archive yet. *)
Definition example_other_writer : writer :=
  {| output_zip := "other.zip"; filename_in_zip := "in.txt";
     compression := ZIP_STORED; zipinfo := zipinfo example_stored_writer |}.

(** The bytes of a local file header for [name] without extra field, as
    far as a reader looks at them: the signature, the two length fields
    and the name. *)
Definition plain_header (name : string) (hdr : bytes) : Prop :=
  length hdr = (sizeFileHeader + length (bytes_of_string name))%nat
  /\ take 4 hdr = stringFileHeader
  /\ le_value (segment 26 2 hdr) = Z.of_nat (length (bytes_of_string name))
  /\ le_value (segment 28 2 hdr) = 0
  /\ drop sizeFileHeader hdr = bytes_of_string name.

(** The archive at [out] starts with the entry [name]: its header at
    offset 0, then [data], then the central directory, which lists the
    entry with this method, CRC and size. *)
Definition entry_data (out name : string) (m : compress_method) (crc fsz : Z)
    (data : bytes) (w : world) : Prop :=
  exists a zi hdr,
    fs w !! out = Some a
    /\ getinfo (directory a) name = Some zi
    /\ filename zi = name /\ compress_type zi = m
    /\ CRC zi = crc /\ file_size zi = fsz
    /\ compress_size zi = Z.of_nat (length data)
    /\ header_offset zi = 0 /\ extra zi = []
    /\ Z.land (flag_bits zi) _MASK_USE_DATA_DESCRIPTOR = 0
    /\ plain_header name hdr
    /\ dir_offset a = Z.of_nat (length hdr + length data)
    /\ take (length hdr + length data) (contents a) = hdr ++ data.

(** What the next writer for [name] finds: no archive yet, or the entry
    with its data. *)
Definition entry_bytes (out name : string) (m : compress_method) (crc fsz : Z)
    (data : bytes) (w : world) : Prop :=
  (fs w !! out = None /\ crc = crc32 [] 0 /\ fsz = 0 /\ data = [])
  \/ entry_data out name m crc fsz data w.

(** A writer for [name] in [out] that has written [data] so far. *)
Definition writer_data (self : writer) (out name : string) (m : compress_method)
    (crc fsz : Z) (data : bytes) : Prop :=
  output_zip self = out /\ filename_in_zip self = name /\ compression self = m
  /\ filename (zipinfo self) = name /\ compress_type (zipinfo self) = m
  /\ CRC (zipinfo self) = crc /\ file_size (zipinfo self) = fsz
  /\ compress_size (zipinfo self) = Z.of_nat (length data)
  /\ header_offset (zipinfo self) = 0 /\ extra (zipinfo self) = []
  /\ Z.land (flag_bits (zipinfo self)) _MASK_USE_DATA_DESCRIPTOR = 0.

(** A compressed writer resuming an entry one byte short of the size from
    which headers carry the ZIP64 record, with thirty bytes of compressed
    data so far. *)
Definition example_crossing_writer : writer :=
  {| output_zip := "out.zip"; filename_in_zip := "in.txt";
     compression := ZIP_DEFLATED;
     zipinfo := {| filename := "in.txt"; date_time := example_clock 0;
                   compress_type := ZIP_DEFLATED; extra := [];
                   create_version := DEFAULT_VERSION;
                   extract_version := DEFAULT_VERSION; flag_bits := 0;
                   CRC := 0; compress_size := 30;
                   file_size := 2045222520; header_offset := 0 |} |}.

(** A toy backend that passes what it is fed straight through and answers
    every flush with the four bytes of an empty stored block. *)
Definition sync_codec : codec := {|
  codec_call _ _ o :=
    match o with
    | Compress d => Ok d
    | Flush _ => Ok [x00; x00; xff; xff]
    end;
  codec_decompress _ d := Ok d
|}.

(** A time of day and a date as the clock gives them, within the years
    that the DOS date field can hold. *)
Definition valid_datetime (dt : datetime) : Prop :=
  1980 <= year dt <= 2107 /\ 1 <= month dt <= 12 /\ 1 <= day dt <= 31
  /\ 0 <= hour dt <= 23 /\ 0 <= minute dt <= 59 /\ 0 <= second dt <= 59.

(** A descriptor whose fields fit the header fields they are packed into,
    for an entry at offset 0 without extra field. *)
Definition packable (zi : ZipInfo) : Prop :=
  0 <= create_version zi <= 255 /\ 0 <= extract_version zi <= 255
  /\ (flag_bits zi = 0 \/ flag_bits zi = _MASK_UTF_FILENAME)
  /\ 0 <= CRC zi < 2 ^ 32
  /\ Z.of_nat (length (bytes_of_string (filename zi))) <= 65535
  /\ extra zi = [] /\ header_offset zi = 0.

(** The archive at [out], if there is one, lists the entry [name] and
    nothing else, with a packable descriptor. *)
Definition sound_entry (out name : string) (w : world) : Prop :=
  match fs w !! out with
  | None => True
  | Some a =>
      exists zi, directory a = [zi] /\ filename zi = name /\ packable zi
  end.

(** What a compressed run carries from one step to the next: the entry
    and its bytes, an archive without other entries, a clock within the
    DOS years, and the calls that the registered compressor has served. *)
Definition run_state (out name : string) (m : compress_method) (crc fsz : Z)
    (data : bytes) (h : list op) (w : world) : Prop :=
  entry_bytes out name m crc fsz data w
  /\ sound_entry out name w
  /\ (forall n, valid_datetime (clock w n))
  /\ live m (key_of out name) w = {| method := m; calls := h |}.

(** A world whose clock stands in 1979, before the first year of a DOS
    date. *)
Definition example_early_world : world :=
  {| fs := ∅; zip_compressor_storage := ∅;
     clock := fun _ => {| year := 1979; month := 12; day := 31;
                          hour := 23; minute := 59; second := 59 |};
     ticks := 0 |}.

(** A compressor has been ended: it has served a [flush()] without
    mode. *)
Definition flushed (h : list op) : bool :=
  existsb (fun o => match o with Flush None => true | _ => false end) h.

(** A toy backend that, like [bz2.BZ2Compressor] and
    [lzma.LZMACompressor], holds back what it is fed until the flush and
    raises on every call after it. *)
Definition once_codec : codec := {|
  codec_call _ h o :=
    if flushed h then Err CompressorError
    else match o with
         | Compress _ => Ok []
         | Flush _ => Ok (pending h [])
         end;
  codec_decompress _ d := Ok d
|}.

(** * Properties *)

(** ** The result monad *)

Lemma bind_Ok {A B} (r : result A) (k : A -> result B) (b : B) :
  bind r k = Ok b -> exists a, r = Ok a /\ k a = Ok b.
Proof. destruct r as [a|e]; simpl; [eauto | discriminate]. Qed.

Lemma bind_Err {A B} (r : result A) (k : A -> result B) (e : error) :
  bind r k = Err e -> r = Err e \/ exists a, r = Ok a /\ k a = Err e.
Proof. destruct r as [a|e']; simpl; [eauto | intros [= ->]; auto]. Qed.

Ltac inv_bind H :=
  let a := fresh "a" in
  let E := fresh "E" in
  apply bind_Ok in H as (a & E & H).

(** ** [struct.pack] *)

Lemma length_le_bytes n v : length (le_bytes n v) = n.
Proof. revert v; induction n; intros; simpl; auto. Qed.

Lemma pack1_Err f v e : pack1 f v = Err e -> e = StructError.
Proof. unfold pack1; case_match; congruence. Qed.

Lemma pack_Err fields e : pack fields = Err e -> e = StructError.
Proof.
  induction fields as [|[f v] rest IH]; simpl; [discriminate|].
  intros H. apply bind_Err in H as [H | (b & _ & H)].
  - eauto using pack1_Err.
  - apply bind_Err in H as [H | (bs & _ & H)]; [auto | discriminate].
Qed.

Lemma seek_Err s p e : seek s p = Err e -> e = SeekError.
Proof. unfold seek; case_match; congruence. Qed.

Lemma FileHeader_Err zi zip64 e :
  FileHeader zi zip64 = Err e -> e = StructError \/ e = LargeZipFile.
Proof.
  unfold FileHeader.
  destruct (Z.land (flag_bits zi) _MASK_USE_DATA_DESCRIPTOR =? 0);
    intros H;
    (apply bind_Err in H as [H | (x & _ & H)];
     [ destruct zip64; [|discriminate];
       apply bind_Err in H as [H | (? & _ & H)];
       [left; eauto using pack_Err | discriminate]
     | apply bind_Err in H as [H | ([[? ?] ?] & _ & H)];
       [ repeat case_match; try discriminate; inversion H; auto
       | destruct (_encodeFilenameFlags _);
         apply bind_Err in H as [H | (? & _ & H)];
         [left; eauto using pack_Err | discriminate] ] ]).
Qed.

(** C8 (ArchiveClosedError).  Each of the three steps of [_write] that
    touch the stream (writing the local header, appending the compressed
    data, updating the directory offset) raises the "already closed"
    [ValueError] exactly when the stream it is given is [None]; on an open
    stream none of them raises it. *)
Theorem closed_stream_error_iff
    (self : writer) (zip_file : ZipFile) (write_stream : option stream)
    (data : bytes) :
  (write_zipinfo self write_stream = Err ArchiveClosed <-> write_stream = None)
  /\ (write_appended_data self write_stream data = Err ArchiveClosed
      <-> write_stream = None)
  /\ (update_start_dir zip_file write_stream = Err ArchiveClosed
      <-> write_stream = None).
Proof.
  repeat split; try (intros ->; reflexivity);
    destruct write_stream as [s|]; auto; simpl; intros H; exfalso.
  - apply bind_Err in H as [H | (s' & _ & H)].
    + apply seek_Err in H; discriminate.
    + apply bind_Err in H as [H | ([zi hdr] & _ & H)]; [|discriminate].
      apply FileHeader_Err in H as [H | H]; discriminate.
  - apply bind_Err in H as [H | (s' & _ & H)]; [|discriminate].
    apply seek_Err in H; discriminate.
  - discriminate.
Qed.

Lemma pack1_length f v b : pack1 f v = Ok b -> length b = fmt_size f.
Proof.
  unfold pack1; case_match; [|discriminate].
  intros [= <-]. apply length_le_bytes.
Qed.

Lemma pack_length fields b : pack fields = Ok b -> length b = fields_size fields.
Proof.
  revert b; induction fields as [|[f v] rest IH]; simpl; intros b H.
  - injection H as <-; reflexivity.
  - inv_bind H. inv_bind H. injection H as <-.
    rewrite length_app. erewrite pack1_length, IH; eauto.
Qed.

(** ** [FileHeader] *)

Lemma FileHeader_Ok zi zip64 zi' hdr :
  FileHeader zi zip64 = Ok (zi', hdr) ->
  exists crc csize fsize z64 fixed mv,
    (crc, csize, fsize) =
      (if Z.land (flag_bits zi) _MASK_USE_DATA_DESCRIPTOR =? 0
       then (CRC zi, compress_size zi, file_size zi) else (0, 0, 0))
    /\ (if zip64
        then pack [(fH, 1); (fH, 16); (fQ, fsize); (fQ, csize)] = Ok z64
        else z64 = [])
    /\ ((fsize >? ZIP64_LIMIT) || (csize >? ZIP64_LIMIT) = true -> zip64 = true)
    /\ zi' = set_versions zi (Z.max mv (create_version zi))
                             (Z.max mv (extract_version zi))
    /\ pack [(fB, extract_version zi'); (fB, 0);
             (fH, snd (_encodeFilenameFlags zi'));
             (fH, compress_code (compress_type zi));
             (fH, dostime (date_time zi)); (fH, dosdate (date_time zi));
             (fL, crc);
             (fL, if (fsize >? ZIP64_LIMIT) || (csize >? ZIP64_LIMIT)
                  then 0xffffffff else csize);
             (fL, if (fsize >? ZIP64_LIMIT) || (csize >? ZIP64_LIMIT)
                  then 0xffffffff else fsize);
             (fH, Z.of_nat (length (bytes_of_string (filename zi))));
             (fH, Z.of_nat (length (extra zi ++ z64)))] = Ok fixed
    /\ hdr = stringFileHeader ++ fixed ++ bytes_of_string (filename zi)
               ++ extra zi ++ z64.
Proof.
  unfold FileHeader.
  set (t := if Z.land (flag_bits zi) _MASK_USE_DATA_DESCRIPTOR =? 0
            then (CRC zi, compress_size zi, file_size zi) else (0, 0, 0)).
  destruct t as [[crc csize] fsize] eqn:Et. intros H.
  inv_bind H. rename a into ex. inv_bind H.
  destruct a as [[fsize' csize'] mv0].
  set (mv := method_version (compress_type zi) mv0) in *.
  destruct (_encodeFilenameFlags _) as [fname flags] eqn:Ef.
  inv_bind H. injection H as <- <-.
  assert (Hfn : fname = bytes_of_string (filename zi)
                /\ flags = snd (_encodeFilenameFlags
                                  (set_versions zi (Z.max mv (create_version zi))
                                     (Z.max mv (extract_version zi))))).
  { rewrite Ef. unfold _encodeFilenameFlags in Ef. simpl in Ef.
    destruct (is_ascii (filename zi)); injection Ef as <- <-; auto. }
  destruct Hfn as [-> ->].
  exists crc, csize, fsize.
  exists (if zip64 then drop (length (extra zi)) ex else []), a, mv.
  assert (Hex : ex = extra zi ++ (if zip64 then drop (length (extra zi)) ex else [])
                /\ (if zip64
                    then pack [(fH, 1); (fH, 16); (fQ, fsize); (fQ, csize)]
                         = Ok (drop (length (extra zi)) ex)
                    else True)).
  { destruct zip64.
    - inv_bind E. injection E as <-. rewrite drop_app_length. auto.
    - injection E as <-. rewrite app_nil_r. auto. }
  destruct Hex as [Hex Hz].
  assert (Hbig : ((fsize >? ZIP64_LIMIT) || (csize >? ZIP64_LIMIT) = true -> zip64 = true)
                 /\ fsize' = (if (fsize >? ZIP64_LIMIT) || (csize >? ZIP64_LIMIT)
                              then 0xffffffff else fsize)
                 /\ csize' = (if (fsize >? ZIP64_LIMIT) || (csize >? ZIP64_LIMIT)
                              then 0xffffffff else csize)).
  { destruct ((fsize >? ZIP64_LIMIT) || (csize >? ZIP64_LIMIT)).
    - destruct zip64; [|discriminate]. injection E0 as <- <- <-. auto.
    - injection E0 as <- <- <-. split; [discriminate | auto]. }
  destruct Hbig as (Hbig & -> & ->).
  repeat split; auto.
  - destruct zip64; auto.
  - rewrite <- Hex. exact E1.
  - rewrite <- Hex. reflexivity.
Qed.

Lemma FileHeader_same zi zip64 zi' hdr :
  FileHeader zi zip64 = Ok (zi', hdr) -> same_but_versions zi zi'.
Proof.
  intros H. apply FileHeader_Ok in H as (? & ? & ? & ? & ? & ? & _ & _ & _ & -> & _).
  repeat split.
Qed.

Lemma FileHeader_length zi zip64 zi' hdr :
  FileHeader zi zip64 = Ok (zi', hdr) -> length hdr = header_length zi zip64.
Proof.
  intros H.
  apply FileHeader_Ok in H as (crc & cs & fsz & z64 & fixed & mv & _ & Hz & _ & _ & Hp & ->).
  apply pack_length in Hp. unfold header_length.
  rewrite !length_app, Hp. simpl.
  destruct zip64.
  - apply pack_length in Hz. rewrite Hz. simpl. lia.
  - subst z64. simpl. lia.
Qed.

(** ** The central directory *)

Lemma central_record_same zi zi' b :
  central_record zi = Ok (zi', b) -> same_entry zi zi'.
Proof.
  unfold central_record. intros H.
  inv_bind H. destruct (_encodeFilenameFlags zi) as [fname flags].
  inv_bind H. injection H as <- _. repeat split.
Qed.

Lemma central_records_same infos loaded b :
  central_records infos = Ok (loaded, b) -> Forall2 same_entry infos loaded.
Proof.
  revert loaded b; induction infos as [|zi rest IH]; simpl; intros loaded b H.
  - injection H as <- <-. constructor.
  - inv_bind H. destruct a as [zi' b1]. inv_bind H. destruct a as [rest' b2].
    injection H as <- <-. constructor; eauto using central_record_same.
Qed.

Lemma _write_end_record_same sd infos loaded tail :
  _write_end_record sd infos = Ok (loaded, tail) -> Forall2 same_entry infos loaded.
Proof.
  unfold _write_end_record. intros H.
  inv_bind H. destruct a as [l cd]. inv_bind H. inv_bind H.
  injection H as <- <-. eauto using central_records_same.
Qed.

(** ** One session of [_write] *)

Lemma pos_write s d : pos (write s d) = pos s + Z.of_nat (length d).
Proof. destruct d; simpl; lia. Qed.

Lemma seek_Ok s p s' :
  seek s p = Ok s' -> 0 <= p /\ s' = {| buf := buf s; pos := p |}.
Proof.
  unfold seek. destruct (p <? 0) eqn:E; [discriminate|].
  intros [= <-]. split; [lia | reflexivity].
Qed.

Lemma update_zip_info_time_eq self w :
  update_zip_info_time self w
  = (set_zipinfo self (set_date_time (zipinfo self) (clock w (ticks w))),
     tick 1 w).
Proof. reflexivity. Qed.

Lemma update_zipinfo_data_eq self chunk data w :
  update_zipinfo_data self chunk data w
  = (set_zipinfo self
       (counted (set_date_time (zipinfo self) (clock w (ticks w))) chunk data),
     tick 1 w).
Proof. unfold update_zipinfo_data, counted. destruct chunk; reflexivity. Qed.

Lemma _write_session_Ok self chunk data w self' zf w' :
  _write_session self chunk data w = Ok (self', zf, w') ->
  let old := fs w !! output_zip self in
  let t1 := set_date_time (zipinfo self) (clock w (ticks w)) in
  exists zi1 hdr1 zi2 hdr2 s1 s2 s4,
    let t3 := counted (set_date_time zi1 (clock w (S (ticks w)))) chunk data in
    seek (open_stream old) (header_offset (zipinfo self)) = Ok s1
    /\ FileHeader t1 (force_zip64 (set_zipinfo self t1)) = Ok (zi1, hdr1)
    /\ seek (write s1 hdr1) (tell (write s1 hdr1) + compress_size zi1) = Ok s2
    /\ seek (write s2 data) (header_offset t3) = Ok s4
    /\ FileHeader t3 (force_zip64 (set_zipinfo self t3)) = Ok (zi2, hdr2)
    /\ self' = set_zipinfo self zi2
    /\ zf = {| fp := Some (write s4 hdr2);
               filelist := _exclude_file_info (set_zipinfo self t1)
                             (Loaded <$> old_directory old) ++ [Self];
               NameToInfo := <[filename_in_zip self := Self]>
                               (NameToInfo (ZipFile_append old));
               start_dir := tell (write s2 data);
               _didModify := true |}
    /\ w' = tick 2 w.
Proof.
  unfold _write_session. cbn zeta. intros H.
  set (old := fs w !! output_zip self) in *.
  assert (Hfp : fp (ZipFile_append old) = Some (open_stream old)
                /\ filelist (ZipFile_append old) = Loaded <$> old_directory old).
  { destruct old; simpl; auto. }
  destruct Hfp as [Hfp Hfl].
  rewrite update_zip_info_time_eq in H. cbn iota beta in H.
  inv_bind H. destruct a as [self1 s1'].
  unfold write_zipinfo in E. cbn [swap_zipinfo fp] in E. rewrite Hfp in E.
  inv_bind E. rename a into s1. inv_bind E. destruct a as [zi1 hdr1].
  injection E as <- <-.
  cbn [set_fp fp write_appended_data] in H.
  inv_bind H. rename a into s3. inv_bind E. rename a into s2.
  injection E as <-.
  rewrite update_zipinfo_data_eq in H. cbn iota beta in H.
  cbn [update_start_dir bind set_fp fp] in H.
  inv_bind H. destruct a as [self4 s5].
  unfold write_zipinfo in E. 
  inv_bind E. rename a into s4. inv_bind E. destruct a as [zi2 hdr2].
  injection E as <- <-. injection H as <- <- <-.
  exists zi1, hdr1, zi2, hdr2, s1, s2, s4.
  cbn [zipinfo set_zipinfo ticks tick clock] in *.
  repeat split; auto.
  cbn. rewrite Hfl. reflexivity.
Qed.

Lemma _write_Ok self chunk data w self' w' :
  _write self chunk data w = Ok (self', w') ->
  exists zf s0 s loaded tail,
    _write_session self chunk data w = Ok (self', zf, tick 2 w)
    /\ fp zf = Some s0
    /\ seek s0 (start_dir zf) = Ok s
    /\ _write_end_record (start_dir zf) (deref (zipinfo self') <$> filelist zf)
       = Ok (loaded, tail)
    /\ w' = set_fs (tick 2 w)
              (<[output_zip self :=
                   {| contents := buf (truncate (write s tail));
                      dir_offset := start_dir zf;
                      directory := loaded |}]> (fs w)).
Proof.
  unfold _write. intros H. inv_bind H. destruct a as [[self1 zf] w1].
  pose proof (_write_session_Ok _ _ _ _ _ _ _ E) as
    (zi1 & hdr1 & zi2 & hdr2 & s1 & s2 & s4 & _ & _ & _ & _ & _ & Hs & Hzf & ->).
  inv_bind H. injection H as <- <-.
  unfold ZipFile_close in E0. rewrite Hzf in E0. cbn [fp _didModify start_dir filelist] in E0.
  inv_bind E0. rename a0 into s. inv_bind E0. destruct a0 as [loaded tail].
  injection E0 as <-.
  exists zf, (write s4 hdr2), s, loaded, tail.
  split; [exact E|]. rewrite Hzf. cbn [fp start_dir filelist].
  repeat split; auto. rewrite Hs. reflexivity.
Qed.

(** ** The directory listing *)

Lemma deref_exclude self self' (infos : list ZipInfo) :
  deref self' <$> _exclude_file_info self (Loaded <$> infos)
  = filter (fun zi => filename zi <> filename_in_zip self) infos.
Proof.
  unfold _exclude_file_info.
  induction infos as [|zi rest IH]; [reflexivity|].
  rewrite fmap_cons, !filter_cons. cbn [deref].
  destruct (decide (filename zi <> filename_in_zip self)); rewrite <- IH; reflexivity.
Qed.

Lemma count_named_same name l l' :
  Forall2 same_entry l l' -> count_named name l = count_named name l'.
Proof.
  unfold count_named.
  induction 1 as [|a b l l' Hab _ IH]; [reflexivity|].
  rewrite !filter_cons. destruct Hab as (Hn & _). rewrite <- Hn.
  destruct (decide (filename a = name)); simpl; rewrite IH; reflexivity.
Qed.

Lemma count_named_excluded name (infos : list ZipInfo) :
  count_named name (filter (fun zi => filename zi <> name) infos) = 0%nat.
Proof.
  unfold count_named.
  induction infos as [|zi rest IH]; [reflexivity|].
  rewrite filter_cons. destruct (decide (filename zi <> name)); [|exact IH].
  rewrite filter_cons. destruct (decide (filename zi = name)); [contradiction | exact IH].
Qed.

Lemma count_named_app name l1 l2 :
  count_named name (l1 ++ l2) = (count_named name l1 + count_named name l2)%nat.
Proof. unfold count_named. rewrite filter_app, length_app. reflexivity. Qed.

(** The names that [_write] leaves in the in-memory listing. *)
Lemma session_listing self chunk data w self' zf w' :
  _write_session self chunk data w = Ok (self', zf, w') ->
  deref (zipinfo self') <$> filelist zf
  = filter (fun zi => filename zi <> filename_in_zip self)
           (old_directory (fs w !! output_zip self)) ++ [zipinfo self']
  /\ filename (zipinfo self') = filename (zipinfo self)
  /\ NameToInfo zf !! filename_in_zip self = Some Self.
Proof.
  intros H.
  pose proof (_write_session_Ok _ _ _ _ _ _ _ H) as
    (zi1 & hdr1 & zi2 & hdr2 & s1 & s2 & s4 & _ & H1 & _ & _ & H2 & -> & -> & _).
  cbn [filelist NameToInfo zipinfo set_zipinfo].
  rewrite fmap_app, deref_exclude. cbn [filename_in_zip set_zipinfo].
  split; [reflexivity|]. split.
  - apply FileHeader_same in H1 as (Hn1 & _), H2 as (Hn2 & _).
    rewrite <- Hn2. unfold counted. destruct chunk; simpl; rewrite <- Hn1; reflexivity.
  - apply lookup_insert_eq.
Qed.

Lemma getinfo_named infos name zi :
  getinfo infos name = Some zi -> filename zi = name.
Proof.
  unfold getinfo. intros H. apply last_Some in H as (l' & Hl).
  assert (Hin : zi ∈ filter (fun zi => filename zi = name) infos).
  { rewrite Hl. apply elem_of_app. right. constructor. }
  apply list_elem_of_filter in Hin as [Hn _]. exact Hn.
Qed.

Lemma _extract_zipinfo_named out name m w zi w1 :
  terminate_at_nul name = name ->
  _extract_zipinfo out name m w = Ok (zi, w1) -> filename zi = name.
Proof.
  intros Hnul H. unfold _extract_zipinfo, datetime_now, new_ZipInfo in H.
  destruct (fs w !! out) as [a|];
    [destruct (getinfo (directory a) name) as [zi0|] eqn:Hg|].
  - injection H as <- <-. exact (getinfo_named _ _ _ Hg).
  - destruct (_ <? 1980); [discriminate|]. cbn [bind] in H.
    injection H as <- <-. exact Hnul.
  - destruct (_ <? 1980); [discriminate|]. cbn [bind] in H.
    injection H as <- <-. exact Hnul.
Qed.

(** What being bound to a name without null character means for the
    fields of the writer. *)
Lemma bound_to_fields out F self :
  terminate_at_nul F = F -> bound_to out F self ->
  output_zip self = out /\ filename_in_zip self = F
  /\ filename (zipinfo self) = F.
Proof.
  intros Hnul Hb. induction Hb as [w0 self w1 Hi | m w0 self w1 Hi
                                   | self chunk data w self' w' Hb IH Hw].
  - unfold ChunkedStoredZipWriter.__init__ in Hi. inv_bind Hi.
    destruct a as [zi w2]. injection Hi as <- <-. cbn.
    split; [reflexivity|]. split; [reflexivity|].
    exact (_extract_zipinfo_named _ _ _ _ _ _ Hnul E).
  - unfold ChunkedCompressedZipWriter.__init__ in Hi. inv_bind Hi.
    destruct a as [zi w2]. injection Hi as <- <-. cbn.
    split; [reflexivity|]. split; [reflexivity|].
    exact (_extract_zipinfo_named _ _ _ _ _ _ Hnul E).
  - destruct IH as (Ho & Hf & Hn).
    apply _write_Ok in Hw as (zf & s0 & s & loaded & tail & Hs & _).
    pose proof (session_listing _ _ _ _ _ _ _ Hs) as (_ & Hn' & _).
    apply _write_session_Ok in Hs as
      (? & ? & ? & ? & ? & ? & ? & _ & _ & _ & _ & _ & -> & _).
    cbn [output_zip filename_in_zip set_zipinfo] in *.
    split; [exact Ho|]. split; [exact Hf|]. congruence.
Qed.

(** C2 (invariant I1, single entry), for entry names without a null
    character.  After a successful [_write] by a writer bound to such a
    name [F], the listing held in memory is the old directory without the
    entries named [F], followed by the writer's descriptor; so this
    listing, and the directory of the archive that the write leaves on
    disk, both contain exactly one entry named [F], and the name index
    maps [F] to that descriptor. *)
Theorem single_entry_after_write
    (out F : string) (self : writer) (chunk : option bytes) (data : bytes)
    (w : world) (self' : writer) (w' : world) :
  terminate_at_nul F = F ->
  bound_to out F self ->
  _write self chunk data w = Ok (self', w') ->
  (exists zf,
      _write_session self chunk data w = Ok (self', zf, tick 2 w)
      /\ deref (zipinfo self') <$> filelist zf
         = filter (fun zi => filename zi <> F) (old_directory (fs w !! out))
             ++ [zipinfo self']
      /\ filename (zipinfo self') = F
      /\ count_named F (deref (zipinfo self') <$> filelist zf) = 1%nat
      /\ last (filelist zf) = Some Self
      /\ NameToInfo zf !! F = Some Self)
  /\ (exists a,
         fs w' !! out = Some a
         /\ count_named F (directory a) = 1%nat).
Proof.
  intros Hnul Hb H.
  destruct (bound_to_fields _ _ _ Hnul Hb) as (Ho & Hf & Hname).
  apply _write_Ok in H as (zf & s0 & s & loaded & tail & Hs & _ & _ & Hend & ->).
  pose proof (session_listing _ _ _ _ _ _ _ Hs) as (Hl & Hn & Hidx).
  rewrite Ho, Hf in *.
  assert (Hcount : count_named F (deref (zipinfo self') <$> filelist zf) = 1%nat).
  { rewrite Hl, count_named_app, count_named_excluded.
    unfold count_named. rewrite filter_cons, Hn, Hname.
    destruct (decide (F = F)); [reflexivity | contradiction]. }
  split.
  - exists zf. split; [exact Hs|]. split; [exact Hl|].
    split; [congruence|]. split; [exact Hcount|]. split; [|exact Hidx].
    apply _write_session_Ok in Hs as
      (? & ? & ? & ? & ? & ? & ? & _ & _ & _ & _ & _ & _ & -> & _).
    cbn [filelist]. apply last_snoc.
  - eexists. split.
    + cbn [fs set_fs]. apply lookup_insert_eq.
    + cbn [directory]. apply _write_end_record_same in Hend.
      rewrite <- (count_named_same _ _ _ Hend). exact Hcount.
Qed.

Lemma single_entry_after_write_witness :
  exists w0 w1 a1 self w2 self' w' a,
    stored_loop [[x61]] "out.zip" "a.txt" empty_world = Ok w0
    /\ stored_loop [[x68; x69]] "out.zip" "in.txt" w0 = Ok w1
    /\ fs w1 !! "out.zip" = Some a1
    /\ length (directory a1) = 2%nat
    /\ count_named "in.txt" (directory a1) = 1%nat
    /\ ChunkedStoredZipWriter.__init__ "out.zip" "in.txt" w1 = Ok (self, w2)
    /\ _write self (Some [x21]) [x21] w2 = Ok (self', w')
    /\ fs w' !! "out.zip" = Some a
    /\ length (directory a) = 2%nat
    /\ count_named "in.txt" (directory a) = 1%nat.
Proof.
  destruct (stored_loop [[x61]] "out.zip" "a.txt" empty_world)
    as [w0|] eqn:E0; [|vm_compute in E0; discriminate].
  destruct (stored_loop [[x68; x69]] "out.zip" "in.txt" w0)
    as [w1|] eqn:E1;
    [|exfalso; vm_compute in E0; injection E0 as <-; vm_compute in E1; discriminate].
  destruct (ChunkedStoredZipWriter.__init__ "out.zip" "in.txt" w1)
    as [[self w2]|] eqn:Ei;
    [|exfalso; vm_compute in E0; injection E0 as <-;
      vm_compute in E1; injection E1 as <-; vm_compute in Ei; discriminate].
  destruct (_write self (Some [x21]) [x21] w2)
    as [[self' w']|] eqn:Ew;
    [|exfalso; vm_compute in E0; injection E0 as <-;
      vm_compute in E1; injection E1 as <-;
      vm_compute in Ei; injection Ei as <- <-; vm_compute in Ew; discriminate].
  destruct (single_entry_after_write "out.zip" "in.txt" self (Some [x21]) [x21]
              w2 self' w' eq_refl (bound_stored _ _ _ _ _ Ei) Ew)
    as (_ & a & Ha & Hone).
  assert (H1 : exists a1, fs w1 !! "out.zip" = Some a1
                 /\ length (directory a1) = 2%nat
                 /\ count_named "in.txt" (directory a1) = 1%nat).
  { vm_compute in E0. injection E0 as <-. vm_compute in E1. injection E1 as <-.
    eexists. split; [vm_compute; reflexivity|]. split; reflexivity. }
  destruct H1 as (a1 & Ha1 & Hl1 & Hc1).
  assert (H2 : length (directory a) = 2%nat).
  { vm_compute in E0. injection E0 as <-. vm_compute in E1. injection E1 as <-.
    vm_compute in Ei. injection Ei as <- <-. vm_compute in Ew.
    injection Ew as <- <-. vm_compute in Ha. injection Ha as <-. reflexivity. }
  exists w0, w1, a1, self, w2, self', w', a.
  split; [reflexivity|]. split; [exact E1|]. split; [exact Ha1|].
  split; [exact Hl1|]. split; [exact Hc1|]. split; [exact Ei|].
  split; [exact Ew|]. split; [exact Ha|]. split; [exact H2 | exact Hone].
Defined.

Lemma single_entry_nul_name_counterexample :
  exists self w1 self' w2 self2 w3 self2' w' a,
    ChunkedStoredZipWriter.__init__ "out.zip" example_nul_name empty_world
    = Ok (self, w1)
    /\ ChunkedStoredZipWriter.write_chunk self [x68] w1 = Ok (self', w2)
    /\ ChunkedStoredZipWriter.__init__ "out.zip" example_nul_name w2
       = Ok (self2, w3)
    /\ ChunkedStoredZipWriter.write_chunk self2 [x69] w3 = Ok (self2', w')
    /\ filename_in_zip self2 = example_nul_name
    /\ fs w' !! "out.zip" = Some a
    /\ count_named example_nul_name (directory a) = 0%nat
    /\ count_named "a" (directory a) = 2%nat.
Proof.
  destruct (ChunkedStoredZipWriter.__init__ "out.zip" example_nul_name empty_world)
    as [[self w1]|] eqn:E1; [|vm_compute in E1; discriminate].
  pose proof E1 as V1. vm_compute in V1. injection V1 as <- <-.
  match type of E1 with _ = Ok (?s, ?x) => set (self := s) in *; set (w1 := x) in * end.
  destruct (ChunkedStoredZipWriter.write_chunk self [x68] w1)
    as [[self' w2]|] eqn:E2; [|vm_compute in E2; discriminate].
  pose proof E2 as V2. vm_compute in V2. injection V2 as <- <-.
  match type of E2 with _ = Ok (?s, ?x) => set (self' := s) in *; set (w2 := x) in * end.
  destruct (ChunkedStoredZipWriter.__init__ "out.zip" example_nul_name w2)
    as [[self2 w3]|] eqn:E3; [|vm_compute in E3; discriminate].
  pose proof E3 as V3. vm_compute in V3. injection V3 as <- <-.
  match type of E3 with _ = Ok (?s, ?x) => set (self2 := s) in *; set (w3 := x) in * end.
  destruct (ChunkedStoredZipWriter.write_chunk self2 [x69] w3)
    as [[self2' w']|] eqn:E4; [|vm_compute in E4; discriminate].
  pose proof E4 as V4. vm_compute in V4. injection V4 as <- <-.
  match type of E4 with _ = Ok (?s, ?x) => set (self2' := s) in *; set (w' := x) in * end.
  destruct (fs w' !! "out.zip") as [a|] eqn:Ea; [|vm_compute in Ea; discriminate].
  pose proof Ea as Va. vm_compute in Va. injection Va as <-.
  exists self, w1, self', w2, self2, w3, self2', w'.
  eexists. split; [exact E1|]. split; [exact E2|]. split; [exact E3|].
  split; [exact E4|]. split; [reflexivity|]. split; [exact Ea|].
  split; vm_compute; reflexivity.
Qed.

(** ** [crc32] *)

Lemma lxor_bound n a b :
  0 < n -> 0 <= a < 2 ^ n -> 0 <= b < 2 ^ n -> 0 <= Z.lxor a b < 2 ^ n.
Proof.
  intros Hn Ha Hb.
  assert (H0 : 0 <= Z.lxor a b) by (apply Z.lxor_nonneg; lia).
  split; [exact H0|].
  destruct (Z.eq_dec (Z.lxor a b) 0) as [-> | Hne]; [apply Z.pow_pos_nonneg; lia|].
  apply Z.log2_lt_pow2; [lia|].
  pose proof (Z.log2_lxor a b ltac:(lia) ltac:(lia)) as Hl.
  assert (Z.log2 a < n).
  { destruct (Z.eq_dec a 0) as [-> | ?]; [simpl; lia | apply Z.log2_lt_pow2; lia]. }
  assert (Z.log2 b < n).
  { destruct (Z.eq_dec b 0) as [-> | ?]; [simpl; lia | apply Z.log2_lt_pow2; lia]. }
  lia.
Qed.

Lemma Z_of_byte_bound b : 0 <= Z_of_byte b < 256.
Proof.
  unfold Z_of_byte. pose proof (Byte.to_N_bounded b). lia.
Qed.

Lemma crc32_bit_bound c : 0 <= c < 2 ^ 32 -> 0 <= crc32_bit c < 2 ^ 32.
Proof.
  intros Hc. unfold crc32_bit.
  assert (Hs : 0 <= Z.shiftr c 1 < 2 ^ 32).
  { rewrite Z.shiftr_div_pow2 by lia. change (2 ^ 1) with 2.
    split; [apply Z.div_pos; lia | apply Z.div_lt_upper_bound; lia]. }
  destruct (Z.testbit c 0); [|exact Hs].
  apply lxor_bound; [lia | exact Hs | lia].
Qed.

Lemma crc32_byte_bound c b : 0 <= c < 2 ^ 32 -> 0 <= crc32_byte c b < 2 ^ 32.
Proof.
  intros Hc. unfold crc32_byte.
  assert (H : 0 <= Z.lxor c (Z_of_byte b) < 2 ^ 32).
  { apply lxor_bound; [lia | exact Hc | pose proof (Z_of_byte_bound b); lia]. }
  revert H. generalize (Z.lxor c (Z_of_byte b)). intros x Hx.
  do 8 (rewrite Nat.iter_succ_r). simpl.
  do 8 (apply crc32_bit_bound in Hx). exact Hx.
Qed.

Lemma crc32_fold_bound data c :
  0 <= c < 2 ^ 32 -> 0 <= fold_left crc32_byte data c < 2 ^ 32.
Proof.
  revert c; induction data as [|b data IH]; simpl; intros c Hc; [exact Hc|].
  apply IH, crc32_byte_bound, Hc.
Qed.

Lemma mask32_bound v : 0 <= Z.land v 0xFFFFFFFF < 2 ^ 32.
Proof.
  change 0xFFFFFFFF with (Z.ones 32). rewrite Z.land_ones by lia.
  apply Z.mod_pos_bound. lia.
Qed.

Lemma mask32_id v : 0 <= v < 2 ^ 32 -> Z.land v 0xFFFFFFFF = v.
Proof.
  intros Hv. change 0xFFFFFFFF with (Z.ones 32). rewrite Z.land_ones by lia.
  apply Z.mod_small. exact Hv.
Qed.

Lemma crc32_bound data v : 0 <= crc32 data v < 2 ^ 32.
Proof.
  unfold crc32. apply lxor_bound; [lia | | lia].
  apply crc32_fold_bound, lxor_bound; [lia | apply mask32_bound | lia].
Qed.

(** Feeding [b] after [a] is feeding [a ++ b]. *)
Lemma crc32_app a b v : crc32 b (crc32 a v) = crc32 (a ++ b) v.
Proof.
  unfold crc32 at 1. rewrite (mask32_id (crc32 a v)) by apply crc32_bound.
  unfold crc32. rewrite fold_left_app. f_equal. f_equal.
  rewrite Z.lxor_assoc, Z.lxor_nilpotent, Z.lxor_0_r. reflexivity.
Qed.

Lemma crc32_nil v : 0 <= v < 2 ^ 32 -> crc32 [] v = v.
Proof.
  intros Hv. unfold crc32. simpl fold_left. rewrite mask32_id by exact Hv.
  rewrite Z.lxor_assoc, Z.lxor_nilpotent, Z.lxor_0_r. reflexivity.
Qed.

Lemma crc32_chunks chunks v :
  0 <= v < 2 ^ 32 ->
  fold_left (fun crc chunk => crc32 chunk crc) chunks v
  = crc32 (concat chunks) v.
Proof.
  revert v; induction chunks as [|c chunks IH]; intros v Hv; simpl.
  - symmetry. apply crc32_nil, Hv.
  - rewrite IH by apply crc32_bound. apply crc32_app.
Qed.

Example crc32_check : crc32 (bytes_of_string "123456789") 0 = 0xCBF43926.
Proof. vm_compute. reflexivity. Qed.

(** ** What a writer starts from and what [_write] leaves *)

Lemma _extract_zipinfo_state out name m crc fsz csz w zi w1 :
  terminate_at_nul name = name ->
  entry_state out name crc fsz csz w ->
  _extract_zipinfo out name m w = Ok (zi, w1) ->
  filename zi = name /\ CRC zi = crc /\ file_size zi = fsz
  /\ compress_size zi = csz
  /\ fs w1 = fs w /\ zip_compressor_storage w1 = zip_compressor_storage w
  /\ clock w1 = clock w.
Proof.
  intros Hnul [(Hnone & -> & -> & ->) | (a & zi0 & Ha & Hg & Hn & Hc & Hf & Hs)] H;
    unfold _extract_zipinfo in H.
  - rewrite Hnone in H. unfold datetime_now in H. inv_bind H.
    unfold new_ZipInfo in E. destruct (_ <? 1980); [discriminate|].
    injection E as <-. injection H as <- <-. cbn. auto 10.
  - rewrite Ha, Hg in H. injection H as <- <-. auto 10.
Qed.

Lemma getinfo_snoc_same l x loaded name :
  Forall2 same_entry (l ++ [x]) loaded -> filename x = name ->
  exists y, getinfo loaded name = Some y /\ same_entry x y.
Proof.
  intros HF Hx.
  apply Forall2_app_inv_l in HF as (l' & ys & _ & Hy & ->).
  inversion Hy as [|x0 y l0 l0' Hxy Hnil]; subst. inversion Hnil; subst.
  exists y. split; [|exact Hxy].
  unfold getinfo. rewrite filter_app, filter_cons.
  destruct Hxy as (Hn & _).
  destruct (decide (filename y = filename x)) as [_|Hne]; [|congruence].
  rewrite filter_nil. apply last_snoc.
Qed.

Lemma counted_fields zi chunk data :
  filename (counted zi chunk data) = filename zi
  /\ compress_type (counted zi chunk data) = compress_type zi
  /\ header_offset (counted zi chunk data) = header_offset zi
  /\ extra (counted zi chunk data) = extra zi
  /\ flag_bits (counted zi chunk data) = flag_bits zi
  /\ date_time (counted zi chunk data) = date_time zi
  /\ compress_size (counted zi chunk data)
     = compress_size zi + Z.of_nat (length data)
  /\ file_size (counted zi chunk data)
     = file_size zi + match chunk with
                      | Some c => Z.of_nat (length c)
                      | None => 0
                      end
  /\ CRC (counted zi chunk data)
     = match chunk with
       | Some c => crc32 c (CRC zi)
       | None => CRC zi
       end.
Proof. unfold counted. destruct chunk; cbn; repeat split; lia. Qed.

(** The descriptor of the writer after a session: the counters of
    [counted], a new time stamp, everything else as before. *)
Lemma session_descriptor self chunk data w self' zf w' :
  _write_session self chunk data w = Ok (self', zf, w') ->
  same_entry (counted (zipinfo self) chunk data) (zipinfo self')
  /\ extra (zipinfo self') = extra (zipinfo self)
  /\ flag_bits (zipinfo self') = flag_bits (zipinfo self)
  /\ date_time (zipinfo self') = clock w (S (ticks w))
  /\ output_zip self' = output_zip self
  /\ filename_in_zip self' = filename_in_zip self
  /\ compression self' = compression self.
Proof.
  intros H.
  apply _write_session_Ok in H as
    (zi1 & hdr1 & zi2 & hdr2 & s1 & s2 & s4 & _ & H1 & _ & _ & H2 & -> & _ & _).
  apply FileHeader_same in H1 as (A1 & A2 & A3 & A4 & A5 & A6 & A7 & A8 & A9).
  apply FileHeader_same in H2 as (B1 & B2 & B3 & B4 & B5 & B6 & B7 & B8 & B9).
  cbn [zipinfo set_zipinfo output_zip filename_in_zip compression].
  pose proof (counted_fields (zipinfo self) chunk data)
    as (C1 & C2 & C3 & C4 & C5 & C6 & C7 & C8 & C9).
  pose proof (counted_fields (set_date_time zi1 (clock w (S (ticks w)))) chunk data)
    as (D1 & D2 & D3 & D4 & D5 & D6 & D7 & D8 & D9).
  cbn [set_date_time filename compress_type header_offset extra flag_bits
       date_time compress_size file_size CRC] in *.
  unfold same_entry.
  rewrite <- B1, <- B3, <- B6, <- B7, <- B8, <- B9, <- B4, <- B5, <- B2.
  rewrite D1, D2, D3, D4, D5, D6, D7, D8, D9, C1, C2, C3, C7, C8, C9.
  rewrite <- A1, <- A3, <- A6, <- A7, <- A8, <- A9, <- A4, <- A5.
  repeat split; reflexivity.
Qed.

(** What a successful [_write] leaves: the registry and the other files
    untouched, and at the writer's path an archive that lists the
    writer's descriptor under its name. *)
Lemma _write_entry self chunk data w self' w' :
  filename (zipinfo self) = filename_in_zip self ->
  _write self chunk data w = Ok (self', w') ->
  zip_compressor_storage w' = zip_compressor_storage w
  /\ clock w' = clock w
  /\ (forall p, p <> output_zip self -> fs w' !! p = fs w !! p)
  /\ same_entry (counted (zipinfo self) chunk data) (zipinfo self')
  /\ output_zip self' = output_zip self
  /\ filename_in_zip self' = filename_in_zip self
  /\ compression self' = compression self
  /\ exists a zi,
      fs w' !! output_zip self = Some a
      /\ getinfo (directory a) (filename_in_zip self) = Some zi
      /\ same_entry (zipinfo self') zi.
Proof.
  intros Hname H.
  apply _write_Ok in H as (zf & s0 & s & loaded & tail & Hs & _ & _ & Hend & ->).
  pose proof (session_listing _ _ _ _ _ _ _ Hs) as (Hl & Hn & _).
  pose proof (session_descriptor _ _ _ _ _ _ _ Hs) as (Hd & _ & _ & _ & Ho & Hf & Hc).
  cbn [zip_compressor_storage set_fs tick clock fs].
  repeat split; auto; try apply Hd.
  - intros p Hp. apply lookup_insert_ne. congruence.
  - apply _write_end_record_same in Hend. rewrite Hl in Hend.
    destruct (getinfo_snoc_same _ _ _ (filename_in_zip self) Hend) as (y & Hy & Hxy);
      [congruence|].
    eexists _, y. split; [apply lookup_insert_eq|]. auto.
Qed.

Lemma holds_entry_fs out name crc fsz csz w w1 :
  fs w1 = fs w -> holds_entry out name crc fsz csz w ->
  holds_entry out name crc fsz csz w1.
Proof. unfold holds_entry. intros ->. auto. Qed.

Lemma entry_state_fs out name crc fsz csz w w1 :
  fs w1 = fs w -> entry_state out name crc fsz csz w ->
  entry_state out name crc fsz csz w1.
Proof. unfold entry_state, holds_entry. intros ->. auto. Qed.

Lemma stored_init_at out name crc fsz csz w self w1 :
  terminate_at_nul name = name ->
  entry_state out name crc fsz csz w ->
  ChunkedStoredZipWriter.__init__ out name w = Ok (self, w1) ->
  writer_at self out name ZIP_STORED crc fsz csz
  /\ fs w1 = fs w /\ zip_compressor_storage w1 = zip_compressor_storage w.
Proof.
  intros Hnul Hst H. unfold ChunkedStoredZipWriter.__init__ in H.
  inv_bind H. destruct a as [zi w2]. injection H as <- <-.
  destruct (_extract_zipinfo_state _ _ _ _ _ _ _ _ _ Hnul Hst E)
    as (? & ? & ? & ? & ? & ? & ?).
  unfold writer_at. cbn. auto 10.
Qed.

Lemma compressed_init_at out name m crc fsz csz w self w1 :
  terminate_at_nul name = name ->
  entry_state out name crc fsz csz w ->
  ChunkedCompressedZipWriter.__init__ out name m w = Ok (self, w1) ->
  writer_at self out name m crc fsz csz
  /\ fs w1 = fs w /\ zip_compressor_storage w1 = zip_compressor_storage w.
Proof.
  intros Hnul Hst H. unfold ChunkedCompressedZipWriter.__init__ in H.
  inv_bind H. destruct a as [zi w2]. injection H as <- <-.
  destruct (_extract_zipinfo_state _ _ _ _ _ _ _ _ _ Hnul Hst E)
    as (? & ? & ? & ? & ? & ? & ?).
  unfold writer_at. cbn. auto 10.
Qed.

Lemma _write_at self out name m crc fsz csz chunk data w self' w' :
  writer_at self out name m crc fsz csz ->
  _write self chunk data w = Ok (self', w') ->
  writer_at self' out name m (fed_crc chunk crc) (fed_size chunk fsz)
            (csz + Z.of_nat (length data))
  /\ holds_entry out name (fed_crc chunk crc) (fed_size chunk fsz)
                 (csz + Z.of_nat (length data)) w'
  /\ zip_compressor_storage w' = zip_compressor_storage w.
Proof.
  intros (Ho & Hf & Hm & Hn & Hc & Hs & Hcs) H.
  apply _write_entry in H as
    (Hreg & _ & _ & Hsame & Ho' & Hf' & Hm' & a & zi & Ha & Hg & Hzi);
    [|congruence].
  destruct Hsame as (S1 & S2 & S3 & S4 & S5 & S6).
  destruct Hzi as (T1 & T2 & T3 & T4 & T5 & T6).
  pose proof (counted_fields (zipinfo self) chunk data)
    as (C1 & C2 & C3 & C4 & C5 & C6 & C7 & C8 & C9).
  assert (Hcrc : CRC (zipinfo self') = fed_crc chunk crc).
  { rewrite <- S3, C9, Hc. reflexivity. }
  assert (Hfs : file_size (zipinfo self') = fed_size chunk fsz).
  { rewrite <- S5, C8, Hs. unfold fed_size. destruct chunk; lia. }
  assert (Hcz : compress_size (zipinfo self') = csz + Z.of_nat (length data)).
  { rewrite <- S4, C7, Hcs. reflexivity. }
  assert (Hfn : filename (zipinfo self') = name).
  { rewrite <- S1, C1. exact Hn. }
  split; [|split; [|exact Hreg]].
  - unfold writer_at. repeat split; congruence.
  - exists a, zi. rewrite <- Ho, <- Hf at 1. rewrite <- Hf at 1.
    repeat split; try congruence.
Qed.

(** ** Calls on the registered compressor *)

Lemma call_registered `{codec} self o w a w1 out w2 :
  compression self <> ZIP_STORED ->
  ChunkedCompressedZipWriter.get_compressor self w = Ok (a, w1) ->
  adapter_call a o w1 = Ok (out, w2) ->
  let c0 := live (compression self) (_compressor_path self) w in
  codec_call (method c0) (calls c0) o = Ok out
  /\ zip_compressor_storage w2
     = <[_compressor_path self := {| method := method c0; calls := calls c0 ++ [o] |}]>
         (zip_compressor_storage w)
  /\ fs w2 = fs w /\ clock w2 = clock w /\ ticks w2 = ticks w.
Proof.
  intros Hm Hg Hc. unfold ChunkedCompressedZipWriter.get_compressor in Hg.
  destruct (decide (compression self = ZIP_STORED)); [contradiction|].
  unfold live.
  destruct (zip_compressor_storage w !! _compressor_path self) as [c|] eqn:Ereg.
  - injection Hg as <- <-. unfold adapter_call in Hc. rewrite Ereg in Hc.
    inv_bind Hc. injection Hc as <- <-. cbn. auto.
  - inv_bind Hg. injection Hg as <- <-.
    unfold adapter_call in Hc. cbn [zip_compressor_storage set_storage] in Hc.
    rewrite lookup_insert_eq in Hc. cbn [method calls] in Hc.
    inv_bind Hc. injection Hc as <- <-. cbn.
    rewrite insert_insert_eq. auto.
Qed.

Lemma live_storage m key w w1 :
  zip_compressor_storage w1 = zip_compressor_storage w ->
  live m key w1 = live m key w.
Proof. unfold live. intros ->. reflexivity. Qed.

Lemma codec_run_app `{C : codec} m h ops1 ops2 outs1 outs2 :
  codec_run m h ops1 = Ok outs1 ->
  codec_run m (h ++ ops1) ops2 = Ok outs2 ->
  codec_run m h (ops1 ++ ops2) = Ok (outs1 ++ outs2).
Proof.
  revert h outs1; induction ops1 as [|o ops1 IH]; simpl; intros h outs1 H1 H2.
  - injection H1 as <-. rewrite app_nil_r in H2. exact H2.
  - inv_bind H1. inv_bind H1. injection H1 as <-.
    rewrite E. simpl.
    replace (h ++ o :: ops1) with ((h ++ [o]) ++ ops1) in H2
      by (rewrite <- app_assoc; reflexivity).
    rewrite (IH _ _ E0 H2). reflexivity.
Qed.

Lemma ran_nil `{C : codec} m key w w' :
  zip_compressor_storage w' = zip_compressor_storage w -> ran m key w [] [] w'.
Proof.
  intros Hr. split; [reflexivity|].
  rewrite (live_storage _ _ _ _ Hr), app_nil_r. destruct (live m key w); reflexivity.
Qed.

Lemma ran_trans `{C : codec} m key w ops1 outs1 w1 ops2 outs2 w2 :
  ran m key w ops1 outs1 w1 -> ran m key w1 ops2 outs2 w2 ->
  ran m key w (ops1 ++ ops2) (outs1 ++ outs2) w2.
Proof.
  intros [R1 L1] [R2 L2]. rewrite L1 in R2, L2. cbn [method calls] in R2, L2.
  split.
  - apply codec_run_app; assumption.
  - rewrite L2, app_assoc. reflexivity.
Qed.

Lemma ran_storage `{C : codec} m key w ops outs w1 w2 :
  ran m key w ops outs w1 ->
  zip_compressor_storage w2 = zip_compressor_storage w1 ->
  ran m key w ops outs w2.
Proof.
  intros [R L] Hr. split; [exact R|]. rewrite (live_storage _ _ _ _ Hr). exact L.
Qed.

Lemma total_length_app outs1 outs2 :
  total_length (outs1 ++ outs2) = total_length outs1 + total_length outs2.
Proof. unfold total_length. rewrite concat_app, length_app. lia. Qed.

Lemma writer_at_key self out name m crc fsz csz :
  writer_at self out name m crc fsz csz -> _compressor_path self = key_of out name.
Proof. intros (<- & <- & _). reflexivity. Qed.

Lemma call_ran `{C : codec} self out name m crc fsz csz o w a w1 bd w2 :
  writer_at self out name m crc fsz csz -> m <> ZIP_STORED ->
  ChunkedCompressedZipWriter.get_compressor self w = Ok (a, w1) ->
  adapter_call a o w1 = Ok (bd, w2) ->
  ran m (key_of out name) w [o] [bd] w2 /\ fs w2 = fs w.
Proof.
  intros Hat Hm Hg Hc.
  pose proof (writer_at_key _ _ _ _ _ _ _ Hat) as Hk.
  destruct Hat as (_ & _ & Hcm & _).
  destruct (call_registered self o w a w1 bd w2 ltac:(congruence) Hg Hc)
    as (Hcall & Hreg & Hfs & _).
  rewrite Hk, Hcm in *. split; [|exact Hfs]. split.
  - simpl. rewrite Hcall. reflexivity.
  - unfold live at 1. rewrite Hreg, lookup_insert_eq. reflexivity.
Qed.

Lemma drain_spec `{C : codec} self out name m crc fsz csz o w self' w' :
  writer_at self out name m crc fsz csz -> m <> ZIP_STORED ->
  entry_state out name crc fsz csz w ->
  drain self o w = Ok (self', w') ->
  exists bd,
    ran m (key_of out name) w [o] [bd] w'
    /\ writer_at self' out name m crc fsz (csz + Z.of_nat (length bd))
    /\ entry_state out name crc fsz (csz + Z.of_nat (length bd)) w'
    /\ (fs w !! out <> None -> fs w' !! out <> None).
Proof.
  intros Hat Hm Hst H. unfold drain in H.
  inv_bind H. destruct a as [a w1]. inv_bind H. destruct a0 as [bd w2].
  destruct (call_ran _ _ _ _ _ _ _ _ _ _ _ _ _ Hat Hm E E0) as [Hran Hfs].
  exists bd. destruct (length bd =? 0)%nat eqn:El.
  - injection H as <- <-. apply Nat.eqb_eq in El. rewrite El, Z.add_0_r.
    split; [exact Hran|]. split; [exact Hat|]. split.
    + eapply entry_state_fs; eauto.
    + rewrite Hfs. auto.
  - destruct (_write_at _ _ _ _ _ _ _ _ _ _ _ _ Hat H) as (Hat' & Hh & Hreg).
    cbn [fed_crc fed_size] in *.
    split; [eapply ran_storage; eauto|]. split; [exact Hat'|]. split.
    + right. exact Hh.
    + intros _. destruct Hh as (a' & zi' & -> & _). discriminate.
Qed.

Lemma flush_is_drain `{C : codec} self w :
  ChunkedCompressedZipWriter.flush self w
  = match compression self with
    | ZIP_BZIP2 | ZIP_LZMA => drain self (Flush None) w
    | _ => Ok (self, w)
    end.
Proof. reflexivity. Qed.

Lemma close_is_drain `{C : codec} self w :
  ChunkedCompressedZipWriter.close self w
  = match compression self with
    | ZIP_DEFLATED => drain self (Flush (Some Z_FULL_FLUSH)) w
    | _ => Ok (self, w)
    end.
Proof. reflexivity. Qed.

(** ** The steps of the chunk loop *)

Lemma compressed_write_chunk_spec `{C : codec}
    self out name m crc fsz csz chunk w self' w' :
  writer_at self out name m crc fsz csz -> m <> ZIP_STORED ->
  ChunkedCompressedZipWriter.write_chunk self chunk w = Ok (self', w') ->
  exists bd,
    ran m (key_of out name) w [Compress chunk] [bd] w'
    /\ writer_at self' out name m (crc32 chunk crc)
                 (fsz + Z.of_nat (length chunk)) (csz + Z.of_nat (length bd))
    /\ holds_entry out name (crc32 chunk crc)
                   (fsz + Z.of_nat (length chunk)) (csz + Z.of_nat (length bd)) w'.
Proof.
  intros Hat Hm Hw. unfold ChunkedCompressedZipWriter.write_chunk in Hw.
  inv_bind Hw. destruct a as [a w1]. inv_bind Hw. destruct a0 as [bd w2].
  destruct (call_ran _ _ _ _ _ _ _ _ _ _ _ _ _ Hat Hm E E0) as [Hran Hfs].
  destruct (_write_at _ _ _ _ _ _ _ _ _ _ _ _ Hat Hw) as (Hat' & Hh & Hreg).
  exists bd. split; [eapply ran_storage; eauto|]. split; assumption.
Qed.

Lemma total_length_one bd : total_length [bd] = Z.of_nat (length bd).
Proof. unfold total_length. simpl. rewrite app_nil_r. reflexivity. Qed.

Lemma compressed_exit_spec `{C : codec}
    self out name m crc fsz csz w self' w' :
  writer_at self out name m crc fsz csz -> m <> ZIP_STORED ->
  entry_state out name crc fsz csz w ->
  ChunkedCompressedZipWriter.__exit__ self w = Ok (self', w') ->
  exists outs,
    ran m (key_of out name) w (exit_calls m) outs w'
    /\ entry_state out name crc fsz (csz + total_length outs) w'
    /\ (fs w !! out <> None -> fs w' !! out <> None).
Proof.
  intros Hat Hm Hst Hx.
  unfold ChunkedCompressedZipWriter.__exit__ in Hx. rewrite close_is_drain in Hx.
  assert (Hcm : compression self = m) by apply Hat. rewrite Hcm in Hx.
  destruct m; try contradiction;
    try (injection Hx as <- <-; exists [];
         split; [apply ran_nil; reflexivity|];
         unfold total_length; simpl; rewrite Z.add_0_r; auto).
  destruct (drain_spec _ _ _ _ _ _ _ _ _ _ _ Hat Hm Hst Hx)
    as (bd & Hran & _ & Hst' & Hfs).
  exists [bd]. rewrite total_length_one. auto.
Qed.

Lemma compressed_flush_spec `{C : codec}
    self out name m crc fsz csz w self' w' :
  writer_at self out name m crc fsz csz -> m <> ZIP_STORED ->
  entry_state out name crc fsz csz w ->
  ChunkedCompressedZipWriter.flush self w = Ok (self', w') ->
  exists outs,
    ran m (key_of out name) w (flush_calls m) outs w'
    /\ writer_at self' out name m crc fsz (csz + total_length outs)
    /\ entry_state out name crc fsz (csz + total_length outs) w'.
Proof.
  intros Hat Hm Hst Hx. rewrite flush_is_drain in Hx.
  assert (Hcm : compression self = m) by apply Hat. rewrite Hcm in Hx.
  destruct m; try contradiction;
    try (injection Hx as <- <-; exists [];
         split; [apply ran_nil; reflexivity|];
         unfold total_length; simpl; rewrite Z.add_0_r; auto);
    destruct (drain_spec _ _ _ _ _ _ _ _ _ _ _ Hat Hm Hst Hx)
      as (bd & Hran & Hat' & Hst' & _);
    exists [bd]; rewrite total_length_one; auto.
Qed.

(** One round of the loop feeds the chunk to the registered compressor and
    leaves the entry with the chunk counted in. *)
Lemma compressed_round `{C : codec} out name m crc fsz csz chunk w zw w1 zw' w2 zw'' w3 :
  terminate_at_nul name = name -> m <> ZIP_STORED ->
  entry_state out name crc fsz csz w ->
  ChunkedCompressedZipWriter.__init__ out name m w = Ok (zw, w1) ->
  ChunkedCompressedZipWriter.write_chunk zw chunk w1 = Ok (zw', w2) ->
  ChunkedCompressedZipWriter.__exit__ zw' w2 = Ok (zw'', w3) ->
  exists outs,
    ran m (key_of out name) w (chunk_calls m chunk) outs w3
    /\ entry_state out name (crc32 chunk crc) (fsz + Z.of_nat (length chunk))
                   (csz + total_length outs) w3
    /\ fs w3 !! out <> None.
Proof.
  intros Hnul Hm Hst Hi Hw Hx.
  destruct (compressed_init_at _ _ _ _ _ _ _ _ _ Hnul Hst Hi) as (Hat & Hfs & Hreg).
  destruct (compressed_write_chunk_spec _ _ _ _ _ _ _ _ _ _ _ Hat Hm Hw)
    as (bd & Hran & Hat' & Hh).
  destruct (compressed_exit_spec _ _ _ _ _ _ _ _ _ _ Hat' Hm (or_intror Hh) Hx)
    as (outs & Hran' & Hst' & Hkeep).
  exists (bd :: outs). split; [|split].
  - change (chunk_calls m chunk) with ([Compress chunk] ++ exit_calls m).
    change (bd :: outs) with ([bd] ++ outs).
    eapply ran_trans; [|exact Hran'].
    destruct Hran as [R L]. rewrite (live_storage _ _ _ _ Hreg) in R, L.
    split; assumption.
  - change (bd :: outs) with ([bd] ++ outs).
    rewrite total_length_app, total_length_one, Z.add_assoc. exact Hst'.
  - apply Hkeep. destruct Hh as (a' & zi' & -> & _). discriminate.
Qed.

Lemma compressed_loop_spec `{C : codec} chunks out name m crc fsz csz w w' :
  terminate_at_nul name = name -> m <> ZIP_STORED ->
  entry_state out name crc fsz csz w ->
  compressed_loop chunks out name m w = Ok w' ->
  exists outs,
    ran m (key_of out name) w (loop_calls m chunks) outs w'
    /\ entry_state out name
         (fold_left (fun crc chunk => crc32 chunk crc) chunks crc)
         (fsz + Z.of_nat (length (concat chunks)))
         (csz + total_length outs) w'
    /\ (chunks <> [] -> fs w' !! out <> None).
Proof.
  intros Hnul Hm. revert crc fsz csz w.
  induction chunks as [|chunk rest IH]; intros crc fsz csz w Hst Hl.
  - injection Hl as <-. exists []. split; [apply ran_nil; reflexivity|].
    unfold total_length. simpl. rewrite !Z.add_0_r. split; [exact Hst | congruence].
  - cbn [compressed_loop] in Hl.
    inv_bind Hl. destruct a as [zw w1]. inv_bind Hl. destruct a as [zw' w2].
    inv_bind Hl. destruct a as [zw'' w3].
    destruct (compressed_round _ _ _ _ _ _ _ _ _ _ _ _ _ _ Hnul Hm Hst E E0 E1)
      as (outs1 & Hran1 & Hst1 & Hex).
    destruct (IH _ _ _ _ Hst1 Hl) as (outs2 & Hran2 & Hst2 & _).
    exists (outs1 ++ outs2). split; [|split].
    + apply (ran_trans _ _ _ _ _ _ _ _ _ Hran1 Hran2).
    + cbn [fold_left concat]. rewrite length_app, total_length_app.
      replace (fsz + Z.of_nat (length chunk + length (concat rest)))
        with (fsz + Z.of_nat (length chunk) + Z.of_nat (length (concat rest))) by lia.
      rewrite Z.add_assoc. exact Hst2.
    + intros _. destruct Hst2 as [(Hnone & _) | (a & zi & -> & _)]; [|discriminate].
      exfalso.
      destruct rest; [injection Hl as <-; contradiction|].
      destruct (IH _ _ _ _ Hst1 Hl) as (_ & _ & _ & Hne). apply Hne; [discriminate|assumption].
Qed.

Lemma stored_round out name crc fsz csz chunk w zw w1 zw' w2 zw'' w3 :
  terminate_at_nul name = name ->
  entry_state out name crc fsz csz w ->
  ChunkedStoredZipWriter.__init__ out name w = Ok (zw, w1) ->
  ChunkedStoredZipWriter.write_chunk zw chunk w1 = Ok (zw', w2) ->
  ChunkedStoredZipWriter.__exit__ zw' w2 = Ok (zw'', w3) ->
  holds_entry out name (crc32 chunk crc) (fsz + Z.of_nat (length chunk))
              (csz + Z.of_nat (length chunk)) w3
  /\ zip_compressor_storage w3 = zip_compressor_storage w.
Proof.
  intros Hnul Hst Hi Hw Hx. injection Hx as <- <-.
  destruct (stored_init_at _ _ _ _ _ _ _ _ Hnul Hst Hi) as (Hat & _ & Hreg).
  destruct (_write_at _ _ _ _ _ _ _ _ _ _ _ _ Hat Hw) as (_ & Hh & Hreg').
  split; [exact Hh | congruence].
Qed.

Lemma stored_loop_spec chunks out name crc fsz csz w w' :
  terminate_at_nul name = name ->
  entry_state out name crc fsz csz w ->
  stored_loop chunks out name w = Ok w' ->
  entry_state out name
    (fold_left (fun crc chunk => crc32 chunk crc) chunks crc)
    (fsz + Z.of_nat (length (concat chunks)))
    (csz + Z.of_nat (length (concat chunks))) w'
  /\ zip_compressor_storage w' = zip_compressor_storage w
  /\ (chunks <> [] -> fs w' !! out <> None).
Proof.
  intros Hnul. revert crc fsz csz w.
  induction chunks as [|chunk rest IH]; intros crc fsz csz w Hst Hl.
  - injection Hl as <-. simpl. rewrite !Z.add_0_r. auto.
  - cbn [stored_loop] in Hl.
    inv_bind Hl. destruct a as [zw w1]. inv_bind Hl. destruct a as [zw' w2].
    inv_bind Hl. destruct a as [zw'' w3].
    destruct (stored_round _ _ _ _ _ _ _ _ _ _ _ _ _ Hnul Hst E E0 E1) as (Hh & Hreg).
    destruct (IH _ _ _ _ (or_intror Hh) Hl) as (Hst2 & Hreg2 & Hne).
    cbn [fold_left concat]. rewrite length_app.
    replace (fsz + Z.of_nat (length chunk + length (concat rest)))
      with (fsz + Z.of_nat (length chunk) + Z.of_nat (length (concat rest))) by lia.
    replace (csz + Z.of_nat (length chunk + length (concat rest)))
      with (csz + Z.of_nat (length chunk) + Z.of_nat (length (concat rest))) by lia.
    split; [exact Hst2|]. split; [congruence|].
    intros _. destruct Hst2 as [(Hnone & _) | (a & zi & -> & _)]; [|discriminate].
    exfalso. destruct rest as [|c2 rest].
    + injection Hl as <-. destruct Hh as (a & zi & Ha & _). congruence.
    + apply Hne; [discriminate | exact Hnone].
Qed.

(** ** The whole of [zip_file_in_chunks] *)

Lemma stored_chunks_state `{C : codec} chunks input out crc fsz csz w w' :
  terminate_at_nul (basename input) = basename input ->
  entry_state out (basename input) crc fsz csz w ->
  zip_chunks chunks input out ZIP_STORED w = Ok w' ->
  entry_state out (basename input)
    (fold_left (fun crc chunk => crc32 chunk crc) chunks crc)
    (fsz + Z.of_nat (length (concat chunks)))
    (csz + Z.of_nat (length (concat chunks))) w'
  /\ zip_compressor_storage w' = zip_compressor_storage w
  /\ (chunks <> [] -> fs w' !! out <> None)
  /\ (chunks = [] -> fs w' = fs w).
Proof.
  intros Hnul Hst Hz. unfold zip_chunks in Hz.
  destruct (decide (ZIP_STORED = ZIP_STORED)); [|contradiction].
  inv_bind Hz. rename a into w1. inv_bind Hz. destruct a as [zw w2].
  inv_bind Hz. destruct a as [zw' w3]. inv_bind Hz. destruct a as [zw'' w4].
  injection Hz as <-. injection E1 as <- <-. injection E2 as <- <-.
  destruct (stored_loop_spec _ _ _ _ _ _ _ _ Hnul Hst E) as (Hst1 & Hreg1 & Hne).
  destruct (stored_init_at _ _ _ _ _ _ _ _ Hnul Hst1 E0) as (_ & Hfs & Hreg2).
  split; [eapply entry_state_fs; eauto|]. split; [congruence|]. split.
  - rewrite Hfs. exact Hne.
  - intros ->. injection E as <-. exact Hfs.
Qed.

Lemma compressed_flush_keeps `{C : codec}
    self out name m crc fsz csz w self' w' :
  writer_at self out name m crc fsz csz -> m <> ZIP_STORED ->
  entry_state out name crc fsz csz w ->
  ChunkedCompressedZipWriter.flush self w = Ok (self', w') ->
  fs w !! out <> None -> fs w' !! out <> None.
Proof.
  intros Hat Hm Hst Hx. rewrite flush_is_drain in Hx.
  assert (Hcm : compression self = m) by apply Hat. rewrite Hcm in Hx.
  destruct m; try contradiction; try (injection Hx as <- <-; auto);
    destruct (drain_spec _ _ _ _ _ _ _ _ _ _ _ Hat Hm Hst Hx)
      as (bd & _ & _ & _ & Hk); exact Hk.
Qed.

Lemma compressed_chunks_state `{C : codec} chunks input out m crc fsz csz w w' :
  terminate_at_nul (basename input) = basename input -> m <> ZIP_STORED ->
  entry_state out (basename input) crc fsz csz w ->
  zip_chunks chunks input out m w = Ok w' ->
  exists outs,
    ran m (key_of out (basename input)) w
        (loop_calls m chunks ++ final_calls m) outs w'
    /\ entry_state out (basename input)
         (fold_left (fun crc chunk => crc32 chunk crc) chunks crc)
         (fsz + Z.of_nat (length (concat chunks)))
         (csz + total_length outs) w'
    /\ (chunks <> [] -> fs w' !! out <> None).
Proof.
  intros Hnul Hm Hst Hz. unfold zip_chunks in Hz.
  destruct (decide (m = ZIP_STORED)); [contradiction|].
  inv_bind Hz. rename a into w1. inv_bind Hz. destruct a as [zw w2].
  inv_bind Hz. destruct a as [zw' w3]. inv_bind Hz. destruct a as [zw'' w4].
  injection Hz as <-.
  destruct (compressed_loop_spec _ _ _ _ _ _ _ _ _ Hnul Hm Hst E)
    as (outs1 & Hran1 & Hst1 & Hne).
  destruct (compressed_init_at _ _ _ _ _ _ _ _ _ Hnul Hst1 E0) as (Hat & Hfs & Hreg).
  apply (entry_state_fs _ _ _ _ _ _ _ Hfs) in Hst1.
  destruct (compressed_flush_spec _ _ _ _ _ _ _ _ _ _ Hat Hm Hst1 E1)
    as (outs2 & Hran2 & Hat2 & Hst2).
  destruct (compressed_exit_spec _ _ _ _ _ _ _ _ _ _ Hat2 Hm Hst2 E2)
    as (outs3 & Hran3 & Hst3 & Hkeep).
  exists (outs1 ++ outs2 ++ outs3). split; [|split].
  - eapply ran_trans; [eapply ran_storage; [exact Hran1 | exact Hreg]|].
    eapply ran_trans; eassumption.
  - rewrite !total_length_app, !Z.add_assoc. exact Hst3.
  - intros Hc. apply Hkeep.
    apply (compressed_flush_keeps _ _ _ _ _ _ _ _ _ _ Hat Hm Hst1 E1).
    rewrite Hfs. exact (Hne Hc).
Qed.

Lemma entry_state_initial out name w :
  fs w !! out = None -> entry_state out name (crc32 [] 0) 0 0 w.
Proof. left. auto. Qed.

Lemma crc32_chunks_seeded chunks :
  fold_left (fun crc chunk => crc32 chunk crc) chunks (crc32 [] 0)
  = crc32 (concat chunks) 0.
Proof.
  rewrite crc32_chunks by apply crc32_bound. apply (crc32_app [] (concat chunks) 0).
Qed.

(** C5 (CRC correctness).  A writer's running CRC starts as the CRC-32 of
    the empty input and each chunk updates it to [crc32(chunk, CRC)]; the
    left fold of that update over any chunks is the CRC-32 of their
    concatenation.  So when [zip_file_in_chunks] has run, for any method, on
    a path that held no archive, the entry that the archive lists for the
    file carries the CRC-32 and the length of the source; and it lists one
    as soon as there was a chunk.  (The entry name is the base name of the
    source, which holds no null character.) *)
Theorem finalized_entry_crc `{C : codec}
    (chunks : list bytes) (input out : string) (m : compress_method)
    (w w' : world) :
  fs w !! out = None ->
  terminate_at_nul (basename input) = basename input ->
  zip_chunks chunks input out m w = Ok w' ->
  (forall self chunk data w0,
      CRC (zipinfo (fst (update_zipinfo_data self (Some chunk) data w0)))
      = crc32 chunk (CRC (zipinfo self)))
  /\ fold_left (fun crc chunk => crc32 chunk crc) chunks (crc32 [] 0)
     = crc32 (concat chunks) 0
  /\ (forall a zi,
         fs w' !! out = Some a ->
         getinfo (directory a) (basename input) = Some zi ->
         CRC zi = crc32 (concat chunks) 0
         /\ file_size zi = Z.of_nat (length (concat chunks)))
  /\ (chunks <> [] ->
      exists a zi,
        fs w' !! out = Some a
        /\ getinfo (directory a) (basename input) = Some zi).
Proof.
  intros Hnone Hnul Hz.
  split; [intros; rewrite update_zipinfo_data_eq; reflexivity|].
  split; [apply crc32_chunks_seeded|].
  assert (Hst : entry_state out (basename input)
                  (crc32 (concat chunks) 0)
                  (Z.of_nat (length (concat chunks)))
                  (match fs w' !! out with
                   | Some a => match getinfo (directory a) (basename input) with
                               | Some zi => compress_size zi
                               | None => 0
                               end
                   | None => 0
                   end) w'
                /\ (chunks <> [] -> fs w' !! out <> None)).
  { pose proof (entry_state_initial out (basename input) w Hnone) as H0.
    destruct (decide (m = ZIP_STORED)) as [-> | Hm].
    - destruct (stored_chunks_state _ _ _ _ _ _ _ _ Hnul H0 Hz) as (Hst & _ & Hne & _).
      rewrite crc32_chunks_seeded in Hst. split; [|exact Hne].
      destruct Hst as [(Hn & Hc & Hf & Hs) | (a & zi & Ha & Hg & Hn & Hc & Hf & Hs)].
      + left. rewrite Hn. repeat split; auto; lia.
      + right. exists a, zi. rewrite Ha, Hg. repeat split; auto; lia.
    - destruct (compressed_chunks_state _ _ _ _ _ _ _ _ _ Hnul Hm H0 Hz)
        as (outs & _ & Hst & Hne).
      rewrite crc32_chunks_seeded in Hst. split; [|exact Hne].
      destruct Hst as [(Hn & Hc & Hf & Hs) | (a & zi & Ha & Hg & Hn & Hc & Hf & Hs)].
      + left. rewrite Hn. repeat split; auto; lia.
      + right. exists a, zi. rewrite Ha, Hg. repeat split; auto; lia. }
  destruct Hst as [Hst Hne]. split.
  - intros a zi Ha Hg.
    destruct Hst as [(Hn & _) | (a' & zi' & Ha' & Hg' & _ & Hc & Hf & _)]; [congruence|].
    rewrite Ha in Ha'. injection Ha' as <-. rewrite Hg in Hg'. injection Hg' as <-.
    auto.
  - intros Hc. specialize (Hne Hc).
    destruct Hst as [(Hn & _) | (a' & zi' & Ha' & Hg' & _)]; [contradiction|].
    eauto.
Qed.

Lemma finalized_entry_crc_witness :
  fs empty_world !! "out.zip" = None
  /\ terminate_at_nul (basename "dir/in.txt") = basename "dir/in.txt"
  /\ exists w',
      @zip_chunks hold_codec example_chunks "dir/in.txt" "out.zip"
                  ZIP_DEFLATED empty_world = Ok w'
      /\ exists a zi,
          fs w' !! "out.zip" = Some a
          /\ getinfo (directory a) (basename "dir/in.txt") = Some zi
          /\ CRC zi = crc32 (concat example_chunks) 0.
Proof.
  split; [reflexivity|]. split; [reflexivity|].
  destruct (@zip_chunks hold_codec example_chunks "dir/in.txt" "out.zip"
              ZIP_DEFLATED empty_world) as [w'|e] eqn:E;
    [|vm_compute in E; discriminate].
  exists w'. split; [reflexivity|].
  destruct (@finalized_entry_crc hold_codec example_chunks "dir/in.txt" "out.zip"
              ZIP_DEFLATED empty_world w' eq_refl eq_refl E)
    as (_ & _ & Hall & Hex).
  destruct (Hex ltac:(discriminate)) as (a & zi & Ha & Hg).
  exists a, zi. split; [exact Ha|]. split; [exact Hg|].
  exact (proj1 (Hall a zi Ha Hg)).
Defined.

Lemma ran_registered `{C : codec} m key w ops outs w' :
  ran m key w ops outs w' -> ops <> [] ->
  zip_compressor_storage w' !! key
  = Some {| method := method (live m key w);
            calls := calls (live m key w) ++ ops |}.
Proof.
  intros [_ L] Hne. unfold live at 1 in L.
  destruct (zip_compressor_storage w' !! key) as [c|]; [congruence|].
  apply (f_equal calls) in L. simpl in L.
  destruct (calls (live m key w)), ops; simpl in L; congruence.
Qed.


(** ** Streams *)

Lemma length_padded (p : nat) (b : bytes) :
  length (take p b ++ replicate (p - length b) x00) = p.
Proof. rewrite length_app, length_take, length_replicate. lia. Qed.

Lemma buf_write s d :
  d <> [] ->
  buf (write s d)
  = (take (Z.to_nat (pos s)) (buf s)
       ++ replicate (Z.to_nat (pos s) - length (buf s)) x00)
      ++ d ++ drop (Z.to_nat (pos s) + length d) (buf s).
Proof. destruct d; [contradiction|]. intros _. simpl. rewrite <- app_assoc. reflexivity. Qed.

(** What was written is there. *)
Lemma segment_written s d :
  segment (Z.to_nat (pos s)) (length d) (buf (write s d)) = d.
Proof.
  unfold segment. destruct (decide (d = [])) as [-> | Hd]; [reflexivity|].
  rewrite buf_write by exact Hd.
  rewrite drop_app_length' by (rewrite length_padded; reflexivity).
  apply take_app_length.
Qed.

(** A write leaves what lies before it. *)
Lemma segment_before_write s d x n :
  (x + n <= Z.to_nat (pos s))%nat -> (x + n <= length (buf s))%nat ->
  segment x n (buf (write s d)) = segment x n (buf s).
Proof.
  intros Hp Hl. unfold segment.
  destruct (decide (d = [])) as [-> | Hd]; [reflexivity|].
  rewrite buf_write by exact Hd. rewrite <- !app_assoc.
  rewrite drop_app_le by (rewrite length_take; lia).
  rewrite take_app_le by (rewrite length_drop, length_take; lia).
  rewrite !take_drop_commute, take_take. do 2 f_equal. lia.
Qed.

Lemma length_buf_write s d :
  (Z.to_nat (pos s) + length d <= length (buf (write s d)))%nat
  \/ d = [].
Proof.
  destruct (decide (d = [])) as [-> | Hd]; [auto|]. left.
  rewrite buf_write by exact Hd.
  rewrite length_app, length_padded, length_app. lia.
Qed.

Lemma length_buf_write_ge s d : (length (buf s) <= length (buf (write s d)))%nat.
Proof.
  destruct (decide (d = [])) as [-> | Hd]; [reflexivity|].
  rewrite buf_write by exact Hd.
  rewrite length_app, length_padded, length_app, length_drop. lia.
Qed.

(** Closing: the end record written at the position, the file cut after
    it. *)
Lemma buf_truncate_write s d :
  0 <= pos s ->
  buf (truncate (write s d))
  = (take (Z.to_nat (pos s)) (buf s)
       ++ replicate (Z.to_nat (pos s) - length (buf s)) x00) ++ d.
Proof.
  intros Hp. unfold truncate. cbn [buf]. rewrite pos_write.
  replace (Z.to_nat (pos s + Z.of_nat (length d)))
    with (Z.to_nat (pos s) + length d)%nat by lia.
  destruct (decide (d = [])) as [-> | Hd].
  - simpl. rewrite Nat.add_0_r, app_nil_r. reflexivity.
  - rewrite buf_write by exact Hd.
    rewrite app_assoc.
    rewrite take_app_length' by (rewrite length_app, length_padded; reflexivity).
    match goal with
    | |- _ ++ replicate ?k _ = _ =>
        replace k with 0%nat
          by (rewrite length_app, length_app, length_padded, length_drop; lia)
    end.
    simpl. rewrite app_nil_r. reflexivity.
Qed.

(** A write leaves what lies after it. *)
Lemma drop_after_write s d x :
  (Z.to_nat (pos s) + length d <= x)%nat ->
  drop x (buf (write s d)) = drop x (buf s).
Proof.
  intros Hx. destruct (decide (d = [])) as [-> | Hd]; [reflexivity|].
  rewrite buf_write by exact Hd. rewrite app_assoc.
  rewrite drop_app_ge by (rewrite length_app, length_padded; lia).
  rewrite length_app, length_padded, drop_drop. f_equal. lia.
Qed.

Lemma segment_take x n k (b : bytes) :
  (x + n <= k)%nat -> segment x n (take k b) = segment x n b.
Proof.
  intros Hk. unfold segment.
  rewrite !take_drop_commute, take_take. do 2 f_equal. lia.
Qed.

Lemma segment_app_l x n (b1 b2 : bytes) :
  (x + n <= length b1)%nat -> segment x n (b1 ++ b2) = segment x n b1.
Proof.
  intros Hl. unfold segment.
  rewrite drop_app_le by lia. rewrite take_app_le by (rewrite length_drop; lia).
  reflexivity.
Qed.

(** ** [FileHeader] again *)

Lemma max_max a b : Z.max a (Z.max a b) = Z.max a b.
Proof. lia. Qed.

(** The header of a descriptor whose versions [FileHeader] has raised is
    the header that raised them. *)
Lemma FileHeader_idem zi zip64 zi' hdr :
  FileHeader zi zip64 = Ok (zi', hdr) -> FileHeader zi' zip64 = Ok (zi', hdr).
Proof.
  destruct zi as [fn dt ct ex cv ev fl crc cs fsz ho].
  unfold FileHeader, _encodeFilenameFlags.
  cbn [flag_bits CRC compress_size file_size extra date_time compress_type
       create_version extract_version set_versions filename].
  destruct (Z.land fl _MASK_USE_DATA_DESCRIPTOR =? 0) eqn:Et; cbn iota beta;
  (destruct zip64;
   [ destruct (pack [(fH, 1); (fH, 16); (fQ, _); (fQ, _)]) as [z|] eqn:Ez;
     [|discriminate] | ]);
  cbn [bind];
  (destruct ((_ >? ZIP64_LIMIT) || (_ >? ZIP64_LIMIT)) eqn:Eb; [|]);
  try discriminate; cbn [bind];
  destruct (is_ascii fn) eqn:Ea;
  (match goal with
   | |- bind (pack ?l) _ = _ -> _ =>
       destruct (pack l) as [h|] eqn:Ep; [|discriminate]
   end);
  cbn [bind]; intros [= <- <-];
  cbn [flag_bits CRC compress_size file_size extra date_time compress_type
       create_version extract_version set_versions filename];
  rewrite ?Et, ?Ez, ?Eb, ?Ea; cbn [bind]; cbn iota beta;
  rewrite ?Ez, ?Eb; cbn [bind];
  rewrite ?Ea, !max_max, ?Ep; cbn [bind]; try reflexivity.
Qed.

Lemma force_zip64_file_size a b :
  file_size (zipinfo a) = file_size (zipinfo b) -> force_zip64 a = force_zip64 b.
Proof. unfold force_zip64. intros ->. reflexivity. Qed.

(** ** Where [_write] puts the data and the directory *)

(** Everything a successful [_write] does to the stream, step by step. *)
Lemma _write_steps self chunk data w self' w' :
  _write self chunk data w = Ok (self', w') ->
  exists zi1 hdr1 hdr2 (b0 : bytes) tail a,
    let H := header_offset (zipinfo self) in
    let P := H + Z.of_nat (length hdr1) + compress_size (zipinfo self) in
    let s3 := write {| buf := buf (write {| buf := b0; pos := H |} hdr1);
                       pos := P |} data in
    let s5 := write {| buf := buf s3; pos := H |} hdr2 in
    b0 = buf (open_stream (fs w !! output_zip self))
    /\ 0 <= H /\ 0 <= P
    /\ FileHeader (set_date_time (zipinfo self) (clock w (ticks w)))
                  (force_zip64 self) = Ok (zi1, hdr1)
    /\ FileHeader (zipinfo self') (force_zip64 self') = Ok (zipinfo self', hdr2)
    /\ same_entry (counted (zipinfo self) chunk data) (zipinfo self')
    /\ flag_bits (zipinfo self') = flag_bits (zipinfo self)
    /\ extra (zipinfo self') = extra (zipinfo self)
    /\ _write_end_record (P + Z.of_nat (length data))
         (filter (fun zi => filename zi <> filename_in_zip self)
                 (old_directory (fs w !! output_zip self)) ++ [zipinfo self'])
       = Ok (directory a, tail)
    /\ dir_offset a = P + Z.of_nat (length data)
    /\ contents a
       = (take (Z.to_nat (dir_offset a)) (buf s5)
            ++ replicate (Z.to_nat (dir_offset a) - length (buf s5)) x00) ++ tail
    /\ fs w' !! output_zip self = Some a.
Proof.
  intros Hw.
  apply _write_Ok in Hw as (zf & s0 & s & loaded & tail & Hs & Hfp & Hseek & Hend & ->).
  pose proof (session_listing _ _ _ _ _ _ _ Hs) as (Hl & _ & _).
  pose proof (session_descriptor _ _ _ _ _ _ _ Hs) as (Hd & Hex & Hfl & _).
  apply _write_session_Ok in Hs as
    (zi1 & hdr1 & zi2 & hdr2 & s1 & s2 & s4 & K1 & K2 & K3 & K4 & K5 & -> & -> & _).
  cbn [fp start_dir filelist zipinfo set_zipinfo] in *.
  injection Hfp as <-.
  apply seek_Ok in K1 as [H0 ->].
  pose proof (FileHeader_same _ _ _ _ K2) as (_ & _ & _ & _ & _ & _ & A7 & A8 & A9).
  cbn [set_date_time compress_size file_size header_offset] in A7, A8, A9.
  unfold tell in *. rewrite pos_write in K3. cbn [pos] in K3.
  rewrite <- A7 in K3.
  apply seek_Ok in K3 as [HP ->].
  pose proof (counted_fields (set_date_time zi1 (clock w (S (ticks w)))) chunk data)
    as (_ & _ & C3 & _ & _ & _ & _ & C8 & _).
  cbn [set_date_time header_offset] in C3. rewrite C3, <- A9 in K4.
  apply seek_Ok in K4 as [_ ->].
  pose proof (FileHeader_same _ _ _ _ K5) as (_ & _ & _ & _ & _ & _ & _ & B8 & _).
  rewrite pos_write in Hseek, Hend. cbn [pos] in Hseek, Hend.
  apply seek_Ok in Hseek as [HS ->].
  exists zi1, hdr1, hdr2, (buf (open_stream (fs w !! output_zip self))), tail.
  match goal with |- context [ <[ _ := ?x ]> _ ] => exists x end.
  cbn zeta.
  split; [reflexivity|]. split; [exact H0|]. split; [exact HP|].
  split; [exact K2|]. split.
  { rewrite (force_zip64_file_size
               (set_zipinfo self
                  (counted (set_date_time zi1 (clock w (S (ticks w)))) chunk data))
               (set_zipinfo self zi2)) in K5
      by (cbn [zipinfo set_zipinfo]; congruence).
    exact (FileHeader_idem _ _ _ _ K5). }
  split; [exact Hd|]. split; [exact Hfl|]. split; [exact Hex|].
  cbn [fs set_fs]. rewrite lookup_insert_eq. cbn [directory dir_offset contents].
  rewrite Hl in Hend. rewrite pos_write. cbn [pos].
  split; [exact Hend|]. split; [reflexivity|]. split; [|reflexivity].
  rewrite buf_truncate_write by (cbn [pos]; lia). reflexivity.
Qed.

Lemma segment_after_write s d x n :
  (Z.to_nat (pos s) + length d <= x)%nat ->
  segment x n (buf (write s d)) = segment x n (buf s).
Proof. intros Hx. unfold segment. rewrite drop_after_write by exact Hx. reflexivity. Qed.

Lemma header_length_same a b zip64 :
  filename a = filename b -> extra a = extra b ->
  header_length a zip64 = header_length b zip64.
Proof. unfold header_length. intros -> ->. reflexivity. Qed.

(** C4 (invariant I3, directory placement).  After a successful [_write]
    the directory offset of the archive is the stream position right after
    the data just appended: the header offset, plus the length of the
    header written first, plus the compressed size before the call, plus
    the length of the data.  Closing the session writes the central
    directory exactly there and ends the file with it, and a reopen starts
    from that offset with that directory.  The appended data lies right
    before it, as long as the header written last stays clear of it; and
    when the call does not change the ZIP64 flag, the offset is also where
    the data region delimited by the final header ends. *)
Theorem directory_follows_data
    (self : writer) (chunk : option bytes) (data : bytes) (w : world)
    (self' : writer) (w' : world) :
  _write self chunk data w = Ok (self', w') ->
  exists zi1 hdr1 hdr2 a tail,
    let data_offset :=
      header_offset (zipinfo self) + Z.of_nat (length hdr1)
      + compress_size (zipinfo self) in
    FileHeader (set_date_time (zipinfo self) (clock w (ticks w)))
               (force_zip64 self) = Ok (zi1, hdr1)
    /\ FileHeader (zipinfo self') (force_zip64 self') = Ok (zipinfo self', hdr2)
    /\ fs w' !! output_zip self = Some a
    /\ dir_offset a = data_offset + Z.of_nat (length data)
    /\ _write_end_record (dir_offset a)
         (filter (fun zi => filename zi <> filename_in_zip self)
                 (old_directory (fs w !! output_zip self)) ++ [zipinfo self'])
       = Ok (directory a, tail)
    /\ drop (Z.to_nat (dir_offset a)) (contents a) = tail
    /\ start_dir (ZipFile_append (Some a)) = dir_offset a
    /\ filelist (ZipFile_append (Some a)) = Loaded <$> directory a
    /\ (Z.of_nat (length hdr2)
        <= Z.of_nat (length hdr1) + compress_size (zipinfo self) ->
        segment (Z.to_nat data_offset) (length data) (contents a) = data)
    /\ (force_zip64 self' = force_zip64 self ->
        dir_offset a
        = header_offset (zipinfo self') + Z.of_nat (length hdr2)
          + compress_size (zipinfo self')).
Proof.
  intros Hw.
  apply _write_steps in Hw as
    (zi1 & hdr1 & hdr2 & b0 & tail & a & Hb0 & H0 & HP & K2 & K5 & Hd & Hfl & Hex
     & Hend & Hdir & Hcont & Ha).
  cbn zeta in *.
  exists zi1, hdr1, hdr2, a, tail. cbn zeta.
  set (H := header_offset (zipinfo self)) in *.
  set (P := H + Z.of_nat (length hdr1) + compress_size (zipinfo self)) in *.
  set (s3 := write {| buf := buf (write {| buf := b0; pos := H |} hdr1); pos := P |} data) in *.
  set (b5 := buf (write {| buf := buf s3; pos := H |} hdr2)) in *.
  split; [exact K2|]. split; [exact K5|]. split; [exact Ha|].
  split; [exact Hdir|]. split; [rewrite Hdir; exact Hend|].
  split; [|split; [reflexivity|split; [reflexivity|split]]].
  - rewrite Hcont. apply drop_app_length'. rewrite length_padded. reflexivity.
  - intros Hguard. rewrite Hcont, Hdir.
    destruct (decide (data = [])) as [-> | Hne]; [reflexivity|].
    assert (Hlen3 : (Z.to_nat P + length data <= length (buf s3))%nat).
    { destruct (length_buf_write {| buf := buf (write {| buf := b0; pos := H |} hdr1);
                                    pos := P |} data) as [Hl | Hl];
        [exact Hl | contradiction]. }
    assert (Hlen5 : (length (buf s3) <= length b5)%nat).
    { apply (length_buf_write_ge {| buf := buf s3; pos := H |} hdr2). }
    replace (Z.to_nat (P + Z.of_nat (length data)))
      with (Z.to_nat P + length data)%nat by lia.
    rewrite segment_app_l by (rewrite length_padded; lia).
    rewrite segment_app_l by (rewrite length_take; lia).
    rewrite segment_take by lia.
    unfold b5. rewrite segment_after_write by (cbn [pos]; lia).
    apply (segment_written {| buf := buf (write {| buf := b0; pos := H |} hdr1);
                              pos := P |} data).
  - intros Hflip. rewrite Hdir.
    destruct Hd as (D1 & _ & _ & D4 & _ & D6).
    pose proof (counted_fields (zipinfo self) chunk data)
      as (C1 & _ & C3 & _ & _ & _ & C7 & _).
    apply FileHeader_length in K2, K5.
    rewrite Hflip in K5.
    rewrite (header_length_same (zipinfo self')
               (set_date_time (zipinfo self) (clock w (ticks w)))) in K5
      by (cbn [set_date_time filename extra]; congruence).
    rewrite <- D6, <- D4, C3, C7. unfold P, H. lia.
Qed.

Lemma directory_follows_data_witness :
  exists self' w',
    _write example_stored_writer (Some [x68; x69]) [x68; x69] empty_world
    = Ok (self', w')
    /\ exists a, fs w' !! "out.zip" = Some a /\ dir_offset a = 38.
Proof.
  destruct (_write example_stored_writer (Some [x68; x69]) [x68; x69] empty_world)
    as [[self' w']|e] eqn:E; [|vm_compute in E; discriminate].
  exists self', w'. split; [reflexivity|].
  destruct (directory_follows_data example_stored_writer _ _ _ _ _ E)
    as (zi1 & hdr1 & hdr2 & a & tail & K2 & _ & Ha & Hdir & _).
  exists a. split; [exact Ha|]. rewrite Hdir.
  apply FileHeader_length in K2. rewrite K2. reflexivity.
Defined.

(** ** Reading header fields back *)

Lemma Z_of_byte_of_Z v : Z_of_byte (byte_of_Z v) = v mod 256.
Proof.
  unfold Z_of_byte, byte_of_Z.
  pose proof (Z.mod_pos_bound v 256 ltac:(lia)) as Hm.
  destruct (Byte.of_N (Z.to_N (v mod 256))) as [b|] eqn:E.
  - apply Byte.to_of_N in E. rewrite E. lia.
  - apply Byte.of_N_None_iff in E. lia.
Qed.

Lemma le_value_le_bytes n v :
  0 <= v < 2 ^ (8 * Z.of_nat n) -> le_value (le_bytes n v) = v.
Proof.
  revert v; induction n as [|n IH]; intros v Hv.
  - simpl in *. lia.
  - cbn [le_bytes le_value]. rewrite Z_of_byte_of_Z.
    rewrite IH.
    + pose proof (Z.div_mod v 256 ltac:(lia)). lia.
    + replace (8 * Z.of_nat (S n)) with (8 + 8 * Z.of_nat n) in Hv by lia.
      rewrite Z.pow_add_r in Hv by lia. change (2 ^ 8) with 256 in Hv.
      split; [apply Z.div_pos; lia | apply Z.div_lt_upper_bound; lia].
Qed.

Lemma pack1_Ok f v b :
  pack1 f v = Ok b ->
  b = le_bytes (fmt_size f) v /\ 0 <= v < 2 ^ (8 * Z.of_nat (fmt_size f)).
Proof.
  unfold pack1. destruct (0 <=? v) eqn:E1; [|discriminate].
  destruct (v <? _) eqn:E2; [|discriminate]. simpl. intros [= <-].
  split; [reflexivity | lia].
Qed.

Lemma pack_Ok fields b :
  pack fields = Ok b ->
  b = concat (map (fun fv => le_bytes (fmt_size (fst fv)) (snd fv)) fields)
  /\ Forall (fun fv => 0 <= snd fv < 2 ^ (8 * Z.of_nat (fmt_size (fst fv)))) fields.
Proof.
  revert b; induction fields as [|[f v] rest IH]; simpl; intros b H.
  - injection H as <-. auto.
  - inv_bind H. inv_bind H. injection H as <-.
    apply pack1_Ok in E as [-> Hv]. apply IH in E0 as [-> HF].
    split; [reflexivity | constructor; auto].
Qed.

Lemma segment_tail_16 (pre A B : bytes) :
  length A = 8%nat -> length B = 8%nat ->
  segment (length ((pre ++ A) ++ B) - 16) 8 ((pre ++ A) ++ B) = A
  /\ segment (length ((pre ++ A) ++ B) - 8) 8 ((pre ++ A) ++ B) = B.
Proof.
  intros HA HB. unfold segment. rewrite !length_app, HA, HB. split.
  - rewrite <- app_assoc. rewrite drop_app_length' by lia.
    apply take_app_length'. symmetry. exact HA.
  - rewrite drop_app_length' by (rewrite length_app; lia).
    apply take_ge. lia.
Qed.

Lemma FileHeader_fields zi zip64 zi' hdr :
  FileHeader zi zip64 = Ok (zi', hdr) ->
  Z.land (flag_bits zi) _MASK_USE_DATA_DESCRIPTOR = 0 ->
  header_CRC hdr = CRC zi
  /\ (file_size zi <= ZIP64_LIMIT -> compress_size zi <= ZIP64_LIMIT ->
      header_compress_size hdr = compress_size zi
      /\ header_file_size hdr = file_size zi)
  /\ (zip64 = true ->
      zip64_file_size hdr = file_size zi
      /\ zip64_compress_size hdr = compress_size zi).
Proof.
  intros H Hflag.
  apply FileHeader_Ok in H as
    (crc & cs & fsz & z64 & fixed & mv & Ht & Hz & Hbig & Hzi & Hp & ->).
  rewrite Hflag in Ht. cbn in Ht. injection Ht as -> -> ->.
  apply pack_Ok in Hp as [Hfx HF].
  repeat (apply Forall_cons in HF as [? HF]).
  cbn [fst snd fmt_size] in *.
  split; [|split].
  - subst fixed. unfold header_CRC, segment. cbn.
    match goal with |- _ = ?v => change (le_value (le_bytes 4 v) = v) end.
    apply le_value_le_bytes. assumption.
  - intros Hf Hc. subst fixed.
    assert (Hb : (file_size zi >? ZIP64_LIMIT) || (compress_size zi >? ZIP64_LIMIT) = false).
    { apply orb_false_iff. split; rewrite Z.gtb_ltb; apply Z.ltb_ge; assumption. }
    rewrite Hb in *.
    unfold header_compress_size, header_file_size, segment. cbn.
    split;
      match goal with |- _ = ?v => change (le_value (le_bytes 4 v) = v) end;
      apply le_value_le_bytes; assumption.
  - intros ->. clear Hfx. apply pack_Ok in Hz as [-> HZ].
    repeat (apply Forall_cons in HZ as [? HZ]).
    cbn [fst snd fmt_size map concat] in *.
    unfold zip64_file_size, zip64_compress_size.
    rewrite app_nil_r, !app_assoc.
    match goal with
    | |- context [segment _ 8 ((?pre ++ ?A) ++ ?B)] =>
        destruct (segment_tail_16 pre A B) as [-> ->];
          [apply length_le_bytes | apply length_le_bytes |]
    end.
    split; apply le_value_le_bytes; assumption.
Qed.

(** C3 (invariant I2, header self-consistency).  A successful [_write]
    leaves the writer's descriptor with the accumulated counters (the
    compressed size grown by the bytes appended, the size and the CRC
    advanced by the chunk, if there is one), and the local header it
    writes last, over the first one, is the header of that descriptor: it
    lies at the header offset in the stream that the session is about to
    close, and in the archive on disk wherever the header ends before the
    directory.  Read back, that header gives the descriptor's CRC, and its
    sizes in the 32-bit fields (when they fit) and in the ZIP64 record
    (when one is written). *)
Theorem header_carries_counters
    (self : writer) (chunk : option bytes) (data : bytes) (w : world)
    (self' : writer) (w' : world) :
  _write self chunk data w = Ok (self', w') ->
  let zi := zipinfo self' in
  let H := Z.to_nat (header_offset (zipinfo self)) in
  compress_size zi = compress_size (zipinfo self) + Z.of_nat (length data)
  /\ file_size zi = fed_size chunk (file_size (zipinfo self))
  /\ CRC zi = fed_crc chunk (CRC (zipinfo self))
  /\ exists hdr (session_bytes : bytes) tail a,
      FileHeader zi (force_zip64 self') = Ok (zi, hdr)
      /\ segment H (length hdr) session_bytes = hdr
      /\ fs w' !! output_zip self = Some a
      /\ contents a
         = (take (Z.to_nat (dir_offset a)) session_bytes
              ++ replicate (Z.to_nat (dir_offset a) - length session_bytes) x00)
             ++ tail
      /\ (header_offset (zipinfo self) + Z.of_nat (length hdr) <= dir_offset a ->
          segment H (length hdr) (contents a) = hdr)
      /\ (Z.land (flag_bits (zipinfo self)) _MASK_USE_DATA_DESCRIPTOR = 0 ->
          header_CRC hdr = CRC zi
          /\ (file_size zi <= ZIP64_LIMIT -> compress_size zi <= ZIP64_LIMIT ->
              header_compress_size hdr = compress_size zi
              /\ header_file_size hdr = file_size zi)
          /\ (force_zip64 self' = true ->
              zip64_file_size hdr = file_size zi
              /\ zip64_compress_size hdr = compress_size zi)).
Proof.
  intros Hw zi H.
  apply _write_steps in Hw as
    (zi1 & hdr1 & hdr2 & b0 & tail & a & Hb0 & H0 & HP & K2 & K5 & Hd & Hfl & Hex
     & Hend & Hdir & Hcont & Ha).
  cbn zeta in *.
  destruct Hd as (_ & _ & D3 & D4 & D5 & _).
  pose proof (counted_fields (zipinfo self) chunk data)
    as (_ & _ & _ & _ & _ & _ & C7 & C8 & C9).
  fold zi in K5, D3, D4, D5, Hfl.
  split; [rewrite <- D4; exact C7|].
  split; [rewrite <- D5, C8; unfold fed_size; destruct chunk; lia|].
  split; [rewrite <- D3; exact C9|].
  match type of Hcont with
  | context [take _ (buf (write ?s hdr2))] => set (s5 := s) in *
  end.
  assert (Hseg : segment H (length hdr2) (buf (write s5 hdr2)) = hdr2)
    by apply (segment_written s5 hdr2).
  exists hdr2, (buf (write s5 hdr2)), tail, a.
  split; [exact K5|]. split; [exact Hseg|].
  split; [exact Ha|]. split; [exact Hcont|]. split.
  - intros Hguard. rewrite Hcont.
    pose proof (length_buf_write s5 hdr2) as [Hl | Hl].
    + change (Z.to_nat (pos s5)) with H in Hl.
      rewrite segment_app_l by (rewrite length_padded; lia).
      rewrite segment_app_l by (rewrite length_take; lia).
      rewrite segment_take by lia.
      exact Hseg.
    + apply FileHeader_length in K5. rewrite Hl in K5.
      unfold header_length, sizeFileHeader in K5. simpl in K5. lia.
  - intros Hflag. rewrite <- Hfl in Hflag.
    exact (FileHeader_fields _ _ _ _ K5 Hflag).
Qed.

Lemma header_carries_counters_witness :
  exists self' w',
    _write example_stored_writer (Some [x68; x69]) [x68; x69] empty_world
    = Ok (self', w')
    /\ compress_size (zipinfo self') = 2
    /\ file_size (zipinfo self') = 2
    /\ CRC (zipinfo self') = crc32 [x68; x69] 0.
Proof.
  destruct (_write example_stored_writer (Some [x68; x69]) [x68; x69] empty_world)
    as [[self' w']|e] eqn:E; [|vm_compute in E; discriminate].
  exists self', w'. split; [reflexivity|].
  destruct (header_carries_counters example_stored_writer _ _ _ _ _ E)
    as (Hc & Hf & Hcrc & _).
  auto.
Defined.

(** ** Flushing and closing *)

Lemma drain_Ok `{C : codec} self o w self' w' :
  compression self <> ZIP_STORED ->
  drain self o w = Ok (self', w') ->
  exists a w1 result w2,
    ChunkedCompressedZipWriter.get_compressor self w = Ok (a, w1)
    /\ adapter_call a o w1 = Ok (result, w2)
    /\ fs w2 = fs w
    /\ (result = [] -> self' = self /\ w' = w2)
    /\ (result <> [] -> _write self None result w2 = Ok (self', w')).
Proof.
  intros Hm Hd. unfold drain in Hd.
  inv_bind Hd. destruct a as [a w1]. inv_bind Hd. destruct a0 as [result w2].
  destruct (call_registered self o w a w1 result w2 Hm E E0) as (_ & _ & Hfs & _).
  exists a, w1, result, w2. repeat split; auto.
  - subst result. simpl in Hd. congruence.
  - subst result. simpl in Hd. congruence.
  - intros Hne. destruct result; [contradiction|]. exact Hd.
Qed.

Lemma _write_without_chunk self data w self' w' :
  _write self None data w = Ok (self', w') ->
  file_size (zipinfo self') = file_size (zipinfo self)
  /\ CRC (zipinfo self') = CRC (zipinfo self)
  /\ compress_size (zipinfo self')
     = compress_size (zipinfo self) + Z.of_nat (length data).
Proof.
  intros Hw.
  apply _write_steps in Hw as
    (zi1 & hdr1 & hdr2 & b0 & tail & a & _ & _ & _ & _ & _ & Hd & _).
  destruct Hd as (_ & _ & D3 & D4 & D5 & _).
  rewrite <- D3, <- D4, <- D5. repeat split; reflexivity.
Qed.

(** C6 (flush and close routing).  [flush()] of a compressed writer does
    nothing for STORED and DEFLATE.  For BZIP2 and LZMA it takes the
    argument-less flush of the registered compressor, which touches no
    archive, and calls [_write(None, result)] exactly when the result is
    not empty.  [close()] does nothing unless the method is DEFLATE, and
    for DEFLATE does the same with [flush(Z_FULL_FLUSH)].  A [_write]
    without chunk leaves the size and the CRC of the descriptor as they
    are and advances the compressed size by the bytes written. *)
Theorem flush_close_routing `{C : codec} (self : writer) (w : world) :
  (compression self = ZIP_STORED \/ compression self = ZIP_DEFLATED ->
   ChunkedCompressedZipWriter.flush self w = Ok (self, w))
  /\ (compression self = ZIP_BZIP2 \/ compression self = ZIP_LZMA ->
      forall self' w',
        ChunkedCompressedZipWriter.flush self w = Ok (self', w') ->
        exists a w1 result w2,
          ChunkedCompressedZipWriter.get_compressor self w = Ok (a, w1)
          /\ adapter_call a (Flush None) w1 = Ok (result, w2)
          /\ fs w2 = fs w
          /\ (result = [] -> self' = self /\ w' = w2)
          /\ (result <> [] -> _write self None result w2 = Ok (self', w')))
  /\ (compression self <> ZIP_DEFLATED ->
      ChunkedCompressedZipWriter.close self w = Ok (self, w))
  /\ (compression self = ZIP_DEFLATED ->
      forall self' w',
        ChunkedCompressedZipWriter.close self w = Ok (self', w') ->
        exists a w1 result w2,
          ChunkedCompressedZipWriter.get_compressor self w = Ok (a, w1)
          /\ adapter_call a (Flush (Some Z_FULL_FLUSH)) w1 = Ok (result, w2)
          /\ fs w2 = fs w
          /\ (result = [] -> self' = self /\ w' = w2)
          /\ (result <> [] -> _write self None result w2 = Ok (self', w')))
  /\ (forall data w0 self' w',
         _write self None data w0 = Ok (self', w') ->
         file_size (zipinfo self') = file_size (zipinfo self)
         /\ CRC (zipinfo self') = CRC (zipinfo self)
         /\ compress_size (zipinfo self')
            = compress_size (zipinfo self) + Z.of_nat (length data)).
Proof.
  split; [|split; [|split; [|split]]].
  - rewrite flush_is_drain. intros [-> | ->]; reflexivity.
  - rewrite flush_is_drain. intros Hm self' w' Hf.
    assert (Hns : compression self <> ZIP_STORED) by (destruct Hm; congruence).
    apply drain_Ok; [exact Hns|].
    destruct Hm as [Hm | Hm]; rewrite Hm in Hf; exact Hf.
  - rewrite close_is_drain. intros Hm.
    destruct (compression self); try reflexivity. contradiction.
  - rewrite close_is_drain. intros Hm self' w' Hc.
    apply drain_Ok; [congruence|]. rewrite Hm in Hc. exact Hc.
  - intros data w0 self' w'. apply _write_without_chunk.
Qed.

(** ** The registry key *)

Lemma get_compressor_stored self w :
  compression self = ZIP_STORED ->
  ChunkedCompressedZipWriter.get_compressor self w = Ok (EmptyCompress, w).
Proof.
  intros Hm. unfold ChunkedCompressedZipWriter.get_compressor.
  destruct (decide (compression self = ZIP_STORED)); [reflexivity | contradiction].
Qed.

Lemma get_compressor_registered self w a w1 :
  compression self <> ZIP_STORED ->
  ChunkedCompressedZipWriter.get_compressor self w = Ok (a, w1) ->
  a = Registered (_compressor_path self)
  /\ zip_compressor_storage w1 !! _compressor_path self
     = Some (live (compression self) (_compressor_path self) w).
Proof.
  intros Hm Hg. unfold ChunkedCompressedZipWriter.get_compressor in Hg.
  destruct (decide (compression self = ZIP_STORED)); [contradiction|].
  unfold live.
  destruct (zip_compressor_storage w !! _compressor_path self) as [c|] eqn:E.
  - injection Hg as <- <-. auto.
  - inv_bind Hg. injection Hg as <- <-. split; [reflexivity|].
    cbn. apply lookup_insert_eq.
Qed.

(** C7 (registry keying), at an input where the code departs from it.
    The writer for entry [c] of archive [a/b] and the writer for entry
    [b/c] of archive [a] are bound to different (archive, entry) pairs,
    and both are handed the object registered under the one key [a/b/c]:
    when the first has compressed a chunk, the second gets the compressor
    that has already served that call. *)
Theorem registry_key_collision :
  exists wrA wrB w1 w2 wrA' w3,
    ChunkedCompressedZipWriter.__init__ "a/b" "c" ZIP_DEFLATED empty_world
    = Ok (wrA, w1)
    /\ ChunkedCompressedZipWriter.__init__ "a" "b/c" ZIP_DEFLATED w1
       = Ok (wrB, w2)
    /\ (output_zip wrA, filename_in_zip wrA)
       <> (output_zip wrB, filename_in_zip wrB)
    /\ @ChunkedCompressedZipWriter.write_chunk hold_codec wrA [x68; x69] w2
       = Ok (wrA', w3)
    /\ ChunkedCompressedZipWriter.get_compressor wrA w3
       = Ok (Registered "a/b/c", w3)
    /\ ChunkedCompressedZipWriter.get_compressor wrB w3
       = Ok (Registered "a/b/c", w3)
    /\ zip_compressor_storage w3 !! "a/b/c"
       = Some {| method := ZIP_DEFLATED; calls := [Compress [x68; x69]] |}.
Proof.
  destruct (ChunkedCompressedZipWriter.__init__ "a/b" "c" ZIP_DEFLATED empty_world)
    as [[wrA w1]|] eqn:EA; [|vm_compute in EA; discriminate].
  destruct (ChunkedCompressedZipWriter.__init__ "a" "b/c" ZIP_DEFLATED w1)
    as [[wrB w2]|] eqn:EB;
    [|vm_compute in EA; injection EA as <- <-; vm_compute in EB; discriminate].
  destruct (@ChunkedCompressedZipWriter.write_chunk hold_codec wrA [x68; x69] w2)
    as [[wrA' w3]|] eqn:EW;
    [|vm_compute in EA; injection EA as <- <-;
      vm_compute in EB; injection EB as <- <-;
      vm_compute in EW; discriminate].
  exists wrA, wrB, w1, w2, wrA', w3.
  vm_compute in EA; injection EA as <- <-.
  vm_compute in EB; injection EB as <- <-.
  vm_compute in EW; injection EW as <- <-.
  repeat split; try (vm_compute; reflexivity).
  intros [=].
Qed.

(** ** The round trip *)

(** With STORED and a source without bytes, no writer ever writes. *)
Lemma stored_empty_source_writes_nothing `{C : codec} input out w w' :
  zip_file_in_chunks [] input out ZIP_STORED w = Ok w' -> fs w' = fs w.
Proof.
  unfold zip_file_in_chunks, zip_chunks. cbn [read_file_in_chunks length read_chunks].
  destruct (decide (ZIP_STORED = ZIP_STORED)); [|contradiction].
  cbn [stored_loop bind]. intros H.
  inv_bind H. destruct a as [zw w1]. cbn in H. injection H as <-.
  unfold ChunkedStoredZipWriter.__init__ in E. inv_bind E. destruct a as [zi w2].
  injection E as _ <-.
  unfold _extract_zipinfo in E0.
  destruct (fs w !! out) as [a|].
  - destruct (getinfo (directory a) (basename input)).
    + injection E0 as _ <-. reflexivity.
    + inv_bind E0. injection E0 as _ <-. reflexivity.
  - inv_bind E0. injection E0 as _ <-. reflexivity.
Qed.

(** C1 (round trip), at an input where the code departs from it.  For an
    empty source and STORED, [zip_file_in_chunks] succeeds and leaves the
    path of the archive as it found it, here without any file: the chunk
    loop has no round, and [flush()] and [close()] of the stored writer
    write nothing.  There is no entry to decompress. *)
Theorem stored_empty_source_no_archive :
  exists w',
    @zip_file_in_chunks hold_codec [] "dir/empty.txt" "out.zip" ZIP_STORED
                        empty_world = Ok w'
    /\ fs w' !! "out.zip" = None.
Proof.
  destruct (@zip_file_in_chunks hold_codec [] "dir/empty.txt" "out.zip"
              ZIP_STORED empty_world) as [w'|] eqn:E;
    [|vm_compute in E; discriminate].
  exists w'. split; [reflexivity|].
  rewrite (stored_empty_source_writes_nothing _ _ _ _ E). reflexivity.
Qed.

(** ** Binary64 arithmetic of [force_zip64] *)

Lemma digits2_pos_bounds p :
  2 ^ (Zpos (digits2_pos p) - 1) <= Zpos p < 2 ^ Zpos (digits2_pos p).
Proof.
  induction p as [p IH | p IH |]; cbn [digits2_pos].
  - rewrite Pos2Z.inj_succ. change (Zpos p~1) with (2 * Zpos p + 1).
    replace (Z.succ (Zpos (digits2_pos p)) - 1)
      with (Z.succ (Zpos (digits2_pos p) - 1)) by lia.
    rewrite !Z.pow_succ_r by lia. lia.
  - rewrite Pos2Z.inj_succ. change (Zpos p~0) with (2 * Zpos p).
    replace (Z.succ (Zpos (digits2_pos p)) - 1)
      with (Z.succ (Zpos (digits2_pos p) - 1)) by lia.
    rewrite !Z.pow_succ_r by lia. lia.
  - simpl. lia.
Qed.

Lemma digits2_pos_unique p D :
  2 ^ (D - 1) <= Zpos p < 2 ^ D -> Zpos (digits2_pos p) = D.
Proof.
  intros HD. pose proof (digits2_pos_bounds p) as Hb.
  assert (0 < D).
  { destruct (Z_lt_le_dec 0 D) as [|Hn]; [assumption|].
    assert (2 ^ D <= 1).
    { destruct (Z.eq_dec D 0) as [-> | ?]; [simpl; lia|].
      rewrite Z.pow_neg_r by lia. lia. }
    lia. }
  destruct (Z.lt_trichotomy (Zpos (digits2_pos p)) D) as [Hlt | [Heq | Hgt]];
    [exfalso | exact Heq | exfalso].
  - assert (2 ^ Zpos (digits2_pos p) <= 2 ^ (D - 1))
      by (apply Z.pow_le_mono_r; lia).
    lia.
  - assert (2 ^ D <= 2 ^ (Zpos (digits2_pos p) - 1))
      by (apply Z.pow_le_mono_r; lia).
    lia.
Qed.

Lemma shr_1_m mrs : 0 <= shr_m mrs -> shr_m (shr_1 mrs) = shr_m mrs / 2.
Proof.
  destruct mrs as [m r s]. cbn [shr_m shr_1]. intros Hm.
  destruct m as [|[p|p|]|p]; cbn [shr_m]; try lia.
  - reflexivity.
  - change (Zpos p~1) with (2 * Zpos p + 1). apply Z.div_unique with 1; lia.
  - change (Zpos p~0) with (2 * Zpos p). apply Z.div_unique with 0; lia.
  - reflexivity.
Qed.

Lemma shr_m_iter k mrs :
  0 <= shr_m mrs ->
  shr_m (SpecFloat.iter_pos shr_1 k mrs) = shr_m mrs / 2 ^ Zpos k.
Proof.
  revert mrs. induction k as [k IH | k IH |]; intros mrs Hm; cbn [SpecFloat.iter_pos].
  - assert (H1 : 0 <= shr_m (shr_1 mrs)) by (rewrite shr_1_m by lia; apply Z.div_pos; lia).
    assert (H2 : 0 <= shr_m (SpecFloat.iter_pos shr_1 k (shr_1 mrs)))
      by (rewrite IH by lia; apply Z.div_pos; lia).
    rewrite IH by lia. rewrite IH by lia. rewrite shr_1_m by lia.
    rewrite !Z.div_div by lia. f_equal.
    change (Zpos k~1) with (2 * Zpos k + 1).
    replace (2 * Zpos k + 1) with (1 + Zpos k + Zpos k) by lia.
    rewrite !Z.pow_add_r by lia. simpl (2 ^ 1). lia.
  - assert (H2 : 0 <= shr_m (SpecFloat.iter_pos shr_1 k mrs))
      by (rewrite IH by lia; apply Z.div_pos; lia).
    rewrite IH by lia. rewrite IH by lia.
    rewrite !Z.div_div by lia. f_equal.
    change (Zpos k~0) with (2 * Zpos k).
    replace (2 * Zpos k) with (Zpos k + Zpos k) by lia.
    rewrite !Z.pow_add_r by lia. lia.
  - rewrite shr_1_m by lia. reflexivity.
Qed.

Lemma round_nearest_even_bounds m l :
  m <= round_nearest_even m l <= m + 1.
Proof.
  destruct l as [|[| |]]; cbn [round_nearest_even]; try lia.
  destruct (Z.even m); lia.
Qed.

Lemma shr_fexp_none m e :
  Zpos (digits2_pos m) = 53 -> -1074 <= e ->
  shr_fexp prec emax (Zpos m) e loc_Exact
  = ({| shr_m := Zpos m; shr_r := false; shr_s := false |}, e).
Proof.
  intros Hd He. unfold shr_fexp, fexp, emin, prec, emax. cbn [Zdigits2].
  rewrite Hd.
  replace (Z.sub (Z.max (Z.sub (Z.add 53 e) 53) (Z.sub (Z.sub 3 1024) 53)) e)
    with 0 by lia.
  reflexivity.
Qed.

Lemma shr_fexp_some m e k :
  Zpos (digits2_pos m) = 53 + Zpos k -> -1074 <= e + Zpos k ->
  shr_fexp prec emax (Zpos m) e loc_Exact
  = (SpecFloat.iter_pos shr_1 k {| shr_m := Zpos m; shr_r := false; shr_s := false |},
     e + Zpos k).
Proof.
  intros Hd He. unfold shr_fexp, fexp, emin, prec, emax. cbn [Zdigits2].
  rewrite Hd.
  replace (Z.sub (Z.max (Z.sub (Z.add (53 + Zpos k) e) 53) (Z.sub (Z.sub 3 1024) 53)) e)
    with (Zpos k) by lia.
  reflexivity.
Qed.

Lemma binary_round_aux_exact m e :
  Zpos (digits2_pos m) = 53 -> -1074 <= e <= 971 ->
  binary_round_aux prec emax false (Zpos m) e loc_Exact = S754_finite false m e.
Proof.
  intros Hd He. unfold binary_round_aux.
  rewrite shr_fexp_none by (assumption || lia).
  cbn [shr_m loc_of_shr_record round_nearest_even].
  rewrite shr_fexp_none by (assumption || lia).
  cbn [shr_m]. unfold prec, emax.
  replace (Z.leb e (Z.sub 1024 53)) with true by (symmetry; apply Z.leb_le; lia).
  reflexivity.
Qed.

Lemma binary_round_aux_shape M e k :
  Zpos (digits2_pos M) = 53 + Zpos k ->
  -1074 <= e + Zpos k -> e + Zpos k < 971 ->
  exists m e',
    binary_round_aux prec emax false (Zpos M) e loc_Exact = S754_finite false m e'
    /\ ((e' = e + Zpos k
         /\ Zpos M / 2 ^ Zpos k <= Zpos m <= Zpos M / 2 ^ Zpos k + 1
         /\ Zpos m < 2 ^ 53)
        \/ (e' = e + Zpos k + 1 /\ Zpos m = 2 ^ 52
            /\ Zpos M / 2 ^ Zpos k + 1 = 2 ^ 53)).
Proof.
  intros Hd He1 He2. unfold binary_round_aux.
  rewrite (shr_fexp_some M e k) by assumption.
  set (mrs := SpecFloat.iter_pos shr_1 k _).
  assert (Hq : shr_m mrs = Zpos M / 2 ^ Zpos k)
    by (unfold mrs; rewrite shr_m_iter by (cbn; lia); reflexivity).
  pose proof (digits2_pos_bounds M) as HM. rewrite Hd in HM.
  assert (Hqb : 2 ^ 52 <= shr_m mrs < 2 ^ 53).
  { rewrite Hq.
    replace (53 + Zpos k - 1) with (52 + Zpos k) in HM by lia.
    rewrite !Z.pow_add_r in HM by lia.
    split.
    - apply Z.div_le_lower_bound; lia.
    - apply Z.div_lt_upper_bound; lia. }
  pose proof (round_nearest_even_bounds (shr_m mrs) (loc_of_shr_record mrs)) as Hr.
  set (r := round_nearest_even (shr_m mrs) (loc_of_shr_record mrs)) in *.
  destruct r as [|pr|pr] eqn:Er; try lia.
  destruct (Z_lt_le_dec (Zpos pr) (2 ^ 53)) as [Hlt | Hge].
  - rewrite shr_fexp_none.
    + cbn [shr_m]. unfold prec, emax.
      replace (Z.leb (e + Zpos k) (Z.sub 1024 53)) with true
        by (symmetry; apply Z.leb_le; lia).
      exists pr, (e + Zpos k). split; [reflexivity|]. left. lia.
    + apply digits2_pos_unique. lia.
    + lia.
  - assert (Hpr : Zpos pr = 2 ^ 53) by lia.
    assert (Epr : pr = 9007199254740992%positive) by (change (2 ^ 53) with 9007199254740992 in Hpr; congruence).
    rewrite Epr.
    rewrite (shr_fexp_some _ (e + Zpos k) 1) by (try reflexivity; lia).
    cbn. unfold prec, emax.
    replace (Z.leb (e + Zpos k + 1) (Z.sub 1024 53)) with true
      by (symmetry; apply Z.leb_le; lia).
    eexists _, _. split; [reflexivity|]. right.
    split; [reflexivity|]. split; [reflexivity|]. lia.
Qed.

Lemma pos_iter_xO p k : Zpos (Pos.iter xO p k) = Zpos p * 2 ^ Zpos k.
Proof.
  induction k as [|k IH] using Pos.peano_ind.
  - cbn [Pos.iter]. change (Zpos p~0) with (2 * Zpos p).
    change (2 ^ 1) with 2. lia.
  - rewrite Pos.iter_succ, Pos2Z.inj_succ, Z.pow_succ_r by lia.
    change (Zpos (Pos.iter xO p k)~0) with (2 * Zpos (Pos.iter xO p k)).
    rewrite IH. lia.
Qed.

(** [float(n)] of an integer below [2^53]: the integer itself, with its
    mantissa shifted to 53 bits. *)
Lemma float_of_int_spec n :
  1 <= n < 2 ^ 53 ->
  exists m k,
    float_of_int n = S754_finite false m (- k)
    /\ 0 <= k <= 52 /\ Zpos m = n * 2 ^ k
    /\ 2 ^ 52 <= Zpos m < 2 ^ 53.
Proof.
  intros Hn. destruct n as [|p|p]; try lia.
  pose proof (digits2_pos_bounds p) as Hb.
  set (d := Zpos (digits2_pos p)) in *.
  assert (Hd : 1 <= d <= 53).
  { split; [unfold d; lia|].
    destruct (Z_le_gt_dec d 53) as [|Hgt]; [assumption|].
    assert (2 ^ 53 <= 2 ^ (d - 1)) by (apply Z.pow_le_mono_r; lia). lia. }
  unfold float_of_int, binary_normalize, binary_round.
  unfold fexp, emin, prec, emax. fold d.
  replace (Z.max (Z.sub (Z.add d 0) 53) (Z.sub (Z.sub 3 1024) 53))
    with (d - 53) by lia.
  unfold shl_align.
  destruct (Z.sub (d - 53) 0) as [|q|q] eqn:Eq; try lia.
  - assert (d = 53) by lia.
    exists p, 0. rewrite Z.mul_1_r || idtac.
    split.
    + apply (binary_round_aux_exact p 0); [fold d; assumption | lia].
    + replace (d - 1) with 52 in Hb by lia. subst d.
      match goal with H : Zpos _ = 53 |- _ => rewrite H in Hb end.
      simpl (2 ^ 0). lia.
  - assert (Hq : Zpos q = 53 - d) by lia.
    pose proof (pos_iter_xO p q) as Hi.
    assert (Hm : 2 ^ 52 <= Zpos (Pos.iter xO p q) < 2 ^ 53).
    { assert (E52 : 2 ^ 52 = 2 ^ (d - 1) * 2 ^ (53 - d))
        by (rewrite <- Z.pow_add_r by lia; f_equal; lia).
      assert (E53 : 2 ^ 53 = 2 ^ d * 2 ^ (53 - d))
        by (rewrite <- Z.pow_add_r by lia; f_equal; lia).
      assert (0 < 2 ^ (53 - d)) by (apply Z.pow_pos_nonneg; lia).
      rewrite Hi, Hq, E52, E53.
      split; [apply Z.mul_le_mono_nonneg_r; lia | apply Z.mul_lt_mono_pos_r; lia]. }
    exists (Pos.iter xO p q), (53 - d).
    replace (- (53 - d)) with (d - 53) by lia.
    split; [|split; [lia | split; [rewrite Hi, Hq; reflexivity | exact Hm]]].
    apply binary_round_aux_exact; [apply digits2_pos_unique; lia | lia].
Qed.

Lemma float_of_ZIP64_LIMIT :
  float_of_int ZIP64_LIMIT = S754_finite false 9007199250546688 (-22).
Proof. vm_compute. reflexivity. Qed.

(** [file_size * 1.05 > ZIP64_LIMIT], computed in binary64, holds from
    2045222521 bytes on. *)

Lemma compare_cont_Z (a b : positive) :
  PosDef.Pos.compare_cont Eq a b = (Zpos a ?= Zpos b).
Proof. reflexivity. Qed.

Lemma force_zip64_threshold self :
  0 <= file_size (zipinfo self) < 2 ^ 53 ->
  force_zip64 self = (2045222521 <=? file_size (zipinfo self)).
Proof.
  unfold force_zip64. generalize (file_size (zipinfo self)). clear self.
  intros n Hn. rewrite float_of_ZIP64_LIMIT.
  destruct (Z.eq_dec n 0) as [-> | Hn0]; [reflexivity|].
  destruct (float_of_int_spec n ltac:(lia)) as (m & k & -> & Hk & Hm & Hmb).
  cbn [SFmul float_1_05 xorb].
  set (mc := 4728779608739021%positive).
  pose proof (digits2_pos_bounds (m * mc)) as HD.
  set (D := Zpos (digits2_pos (m * mc))) in *.
  assert (HM : Zpos (m * mc) = n * 2 ^ k * 4728779608739021)
    by (rewrite Pos2Z.inj_mul, Hm; reflexivity).
  assert (HMb : 2 ^ 104 <= Zpos (m * mc) < 2 ^ 106).
  { rewrite Pos2Z.inj_mul. change (Zpos mc) with 4728779608739021.
    change (2 ^ 104) with (2 ^ 52 * 2 ^ 52).
    change (2 ^ 106) with (2 ^ 53 * 2 ^ 53). nia. }
  assert (HDb : 105 <= D <= 106).
  { split.
    - destruct (Z_le_gt_dec 105 D) as [|Hgt]; [assumption|].
      assert (2 ^ D <= 2 ^ 104) by (apply Z.pow_le_mono_r; lia). lia.
    - destruct (Z_le_gt_dec D 106) as [|Hgt]; [assumption|].
      assert (2 ^ 106 <= 2 ^ (D - 1)) by (apply Z.pow_le_mono_r; lia). lia. }
  destruct (D - 53) as [|sh|sh] eqn:Esh; try lia.
  destruct (binary_round_aux_shape (m * mc) (Z.add (- k) (-52)) sh)
    as (m2 & e2 & -> & Hshape).
  { fold D. lia. }
  { lia. }
  { lia. }
  (* the quotient in terms of n *)
  set (s := Zpos sh - k).
  assert (Hs : 0 <= s) by (unfold s; lia).
  assert (Hquot : Zpos (m * mc) / 2 ^ Zpos sh = (n * 4728779608739021) / 2 ^ s).
  { rewrite HM. replace (Zpos sh) with (s + k) by (unfold s; lia).
    rewrite Z.pow_add_r by lia.
    replace (n * 2 ^ k * 4728779608739021)
      with (n * 4728779608739021 * 2 ^ k) by lia.
    apply Z.div_mul_cancel_r.
    - apply Z.pow_nonzero; lia.
    - apply Z.pow_nonzero; lia. }
  assert (Hqb : 2 ^ 52 <= (n * 4728779608739021) / 2 ^ s < 2 ^ 53).
  { rewrite <- Hquot.
    assert (E1 : 2 ^ (D - 1) = 2 ^ 52 * 2 ^ Zpos sh)
      by (rewrite <- Z.pow_add_r by lia; f_equal; lia).
    assert (E2 : 2 ^ D = 2 ^ 53 * 2 ^ Zpos sh)
      by (rewrite <- Z.pow_add_r by lia; f_equal; lia).
    rewrite E1, E2 in HD.
    assert (0 < 2 ^ Zpos sh) by (apply Z.pow_pos_nonneg; lia).
    split; [apply Z.div_le_lower_bound; lia | apply Z.div_lt_upper_bound; lia]. }
  rewrite Hquot in Hshape.
  set (q := (n * 4728779608739021) / 2 ^ s) in *.
  assert (Hpow : 0 < 2 ^ s) by (apply Z.pow_pos_nonneg; lia).
  assert (Hlo : 2 ^ s * q <= n * 4728779608739021)
    by (apply Z.mul_div_le; lia).
  assert (Hhi : n * 4728779608739021 < 2 ^ s * (q + 1)).
  { pose proof (Z.mod_pos_bound (n * 4728779608739021) (2 ^ s) Hpow).
    pose proof (Z.div_mod (n * 4728779608739021) (2 ^ s) ltac:(lia)).
    fold q in H0. lia. }
  assert (He2 : e2 = s - 52 \/ e2 = s - 51)
    by (unfold s; destruct Hshape as [(-> & _) | (-> & _)]; lia).
  cbn [SFcompare].
  destruct (Z.leb_spec 2045222521 n) as [Hge | Hlt].
  - (* at or above the threshold *)
    assert (Hs30 : 30 <= s).
    { destruct (Z_le_gt_dec 30 s) as [|Hgt]; [assumption|].
      assert (2 ^ s <= 2 ^ 29) by (apply Z.pow_le_mono_r; lia).
      change (2 ^ 29) with 536870912 in *. change (2 ^ 53) with 9007199254740992 in *.
      nia. }
    destruct (Z.compare_spec e2 (-22)) as [He | He | He]; [|lia|reflexivity].
    assert (s = 30) by lia. subst s.
    destruct Hshape as [(_ & Hm2 & _) | (? & _)]; [|lia].
    replace (2 ^ (Zpos sh - k)) with 1073741824 in * by (rewrite H; reflexivity).
    assert (9007199250546688 < Zpos m2).
    { assert (9007199250546688 < q); lia. }
    rewrite compare_cont_Z.
    destruct (Z.compare_spec (Zpos m2) 9007199250546688); [lia|lia|reflexivity].
  - (* below the threshold *)
    assert (Hs30 : s <= 30).
    { destruct (Z_le_gt_dec s 30) as [|Hgt]; [assumption|].
      assert (2 ^ 31 <= 2 ^ s) by (apply Z.pow_le_mono_r; lia).
      change (2 ^ 31) with 2147483648 in *. change (2 ^ 52) with 4503599627370496 in *.
      nia. }
    destruct (Z.compare_spec e2 (-22)) as [He | He | He]; [|reflexivity|].
    + rewrite compare_cont_Z.
      assert (Zpos m2 <= 9007199250546688); [|destruct (Z.compare_spec (Zpos m2) 9007199250546688); [reflexivity|reflexivity|lia]].
      destruct Hshape as [(He2' & Hm2 & _) | (_ & -> & _)]; [|lia].
      assert (s = 30) by lia.
      replace (2 ^ s) with 1073741824 in * by (rewrite H; reflexivity).
      lia.
    + exfalso. assert (s = 30) by lia.
      destruct Hshape as [(? & _) | (_ & _ & Hov)]; [lia|].
      replace (2 ^ s) with 1073741824 in * by (rewrite H; reflexivity).
      change (2 ^ 53) with 9007199254740992 in *. lia.
Qed.

(** C9 (ZIP64 threshold).  Every header that [write_zipinfo] writes is the
    thirty fixed bytes, the name and the extra field of the descriptor,
    followed by the twenty bytes of a ZIP64 record exactly when
    [file_size * 1.05 > ZIP64_LIMIT] holds for the descriptor's size at that
    moment, that is from 2045222521 bytes on: one byte below, the header
    has no ZIP64 record; from there on, it has one.  (The product is the
    binary64 product that Python computes; sizes are below [2^53].) *)
Theorem zip64_threshold
    (self : writer) (s : stream) (self' : writer) (s' : stream) :
  write_zipinfo self (Some s) = Ok (self', s') ->
  0 <= file_size (zipinfo self) < 2 ^ 53 ->
  exists fixed z64,
    let hdr := stringFileHeader ++ fixed
                 ++ bytes_of_string (filename (zipinfo self))
                 ++ extra (zipinfo self) ++ z64 in
    length fixed = 26%nat
    /\ s' = write {| buf := buf s; pos := header_offset (zipinfo self) |} hdr
    /\ (z64 <> [] <-> force_zip64 self = true)
    /\ (force_zip64 self = true
        <-> ZIP64_LIMIT * 100 < file_size (zipinfo self) * 105)
    /\ (force_zip64 self = true <-> 2045222521 <= file_size (zipinfo self))
    /\ (z64 <> [] -> length z64 = 20%nat /\ take 4 z64 = [x01; x00; x10; x00]).
Proof.
  intros Hw Hn. unfold write_zipinfo in Hw.
  inv_bind Hw. apply seek_Ok in E as [_ ->].
  inv_bind Hw. destruct a as [zi hdr]. injection Hw as _ <-.
  apply FileHeader_Ok in E as
    (crc & cs & fsz & z64 & fixed & mv & _ & Hz & _ & _ & Hp & ->).
  apply pack_length in Hp. cbn in Hp.
  exists fixed, z64. cbn zeta.
  pose proof (force_zip64_threshold self Hn) as Hthr.
  assert (Hz64 : (force_zip64 self = true ->
                  length z64 = 20%nat /\ take 4 z64 = [x01; x00; x10; x00])
                 /\ (force_zip64 self = false -> z64 = [])).
  { destruct (force_zip64 self).
    - split; [intros _ | discriminate].
      apply pack_Ok in Hz as [-> _]. split; [apply length_app|].
      reflexivity.
    - split; [discriminate | intros _; exact Hz]. }
  destruct Hz64 as [Hyes Hno].
  split; [exact Hp|]. split; [reflexivity|]. split; [|split; [|split]].
  - split.
    + intros Hne. destruct (force_zip64 self); [reflexivity|].
      exfalso. apply Hne, Hno. reflexivity.
    + intros Ht Hnil. destruct (Hyes Ht) as [Hl _]. rewrite Hnil in Hl. discriminate.
  - rewrite Hthr. change ZIP64_LIMIT with 2147483647. rewrite Z.leb_le. lia.
  - rewrite Hthr. apply Z.leb_le.
  - intros Hne. apply Hyes. destruct (force_zip64 self); [reflexivity|].
    exfalso. apply Hne, Hno. reflexivity.
Qed.

Lemma zip64_threshold_witness :
  0 <= file_size (zipinfo example_large_writer) < 2 ^ 53
  /\ exists self' s',
      write_zipinfo example_large_writer (Some {| buf := []; pos := 0 |})
      = Ok (self', s')
      /\ force_zip64 example_large_writer = true.
Proof.
  split; [cbn; lia|].
  destruct (write_zipinfo example_large_writer (Some {| buf := []; pos := 0 |}))
    as [[self' s']|e] eqn:E; [|vm_compute in E; discriminate].
  exists self', s'. split; [reflexivity|].
  destruct (zip64_threshold example_large_writer _ _ _ E ltac:(cbn; lia))
    as (fixed & z64 & _ & _ & _ & _ & Hthr & _).
  apply Hthr. cbn. lia.
Defined.

(** One byte below the threshold the flag is off, at the threshold it is
    on. *)
Example force_zip64_boundary :
  force_zip64 (set_zipinfo example_large_writer
                 (set_file_size_CRC (zipinfo example_large_writer) 2045222520 0))
  = false
  /\ force_zip64 example_large_writer = true.
Proof. split; vm_compute; reflexivity. Qed.

(** ** [read_file_in_chunks] *)

Lemma read_chunks_nil fuel n : read_chunks fuel [] n = [].
Proof. destruct fuel; [reflexivity|]. cbn [read_chunks]. rewrite take_nil. reflexivity. Qed.

Lemma read_chunks_step fuel b rest n :
  read_chunks (S fuel) (b :: rest) (S n)
  = take (S n) (b :: rest) :: read_chunks fuel (drop (S n) (b :: rest)) (S n).
Proof. reflexivity. Qed.

Lemma read_chunks_concat fuel rest n :
  (0 < n)%nat -> (length rest <= fuel)%nat ->
  concat (read_chunks fuel rest n) = rest.
Proof.
  intros Hn. revert rest. induction fuel as [|fuel IH]; intros rest Hl.
  - destruct rest; [reflexivity | simpl in Hl; lia].
  - destruct rest as [|b rest]; [rewrite read_chunks_nil; reflexivity|].
    destruct n as [|n]; [lia|].
    rewrite read_chunks_step. cbn [concat].
    rewrite IH by (rewrite length_drop; simpl in *; lia).
    apply take_drop.
Qed.

(** X1.  For a positive chunk size, the chunks that [read_file_in_chunks]
    yields are the file, cut up: concatenated in order they give back
    every byte of it. *)
Theorem read_file_in_chunks_concat (file_obj : bytes) (chunk_size : nat) :
  (0 < chunk_size)%nat ->
  concat (read_file_in_chunks file_obj chunk_size) = file_obj.
Proof. intros Hn. apply read_chunks_concat; [exact Hn | reflexivity]. Qed.

Lemma read_file_in_chunks_concat_witness :
  (0 < 4)%nat
  /\ concat (read_file_in_chunks (bytes_of_string "hello world") 4)
     = bytes_of_string "hello world".
Proof. split; [lia | apply read_file_in_chunks_concat; lia]. Defined.

Lemma read_chunks_sizes fuel rest n :
  (0 < n)%nat ->
  Forall (fun c => (0 < length c <= n)%nat) (read_chunks fuel rest n).
Proof.
  intros Hn. revert rest. induction fuel as [|fuel IH]; intros rest; [constructor|].
  destruct rest as [|b rest]; [rewrite read_chunks_nil; constructor|].
  destruct n as [|n]; [lia|].
  rewrite read_chunks_step. constructor; [|apply IH].
  rewrite length_take. simpl. lia.
Qed.

Lemma read_chunks_full fuel rest n i c :
  (0 < n)%nat ->
  read_chunks fuel rest n !! i = Some c ->
  (S i < length (read_chunks fuel rest n))%nat ->
  length c = n.
Proof.
  intros Hn. revert rest i. induction fuel as [|fuel IH]; intros rest i Hc Hi;
    [discriminate|].
  destruct rest as [|b rest]; [rewrite read_chunks_nil in Hc; discriminate|].
  destruct n as [|n]; [lia|].
  rewrite read_chunks_step in Hc, Hi.
  destruct i as [|i].
  - injection Hc as <-. cbn [length] in Hi.
    destruct (drop (S n) (b :: rest)) as [|b' rest'] eqn:Ed.
    + rewrite read_chunks_nil in Hi. simpl in Hi. lia.
    + apply (f_equal length) in Ed. rewrite length_drop in Ed.
      simpl in *. rewrite ?length_take. lia.
  - cbn [length] in Hi. apply (IH (drop (S n) (b :: rest)) i); [exact Hc | lia].
Qed.

Lemma read_chunks_count fuel rest n :
  (0 < n)%nat -> (length rest <= fuel)%nat ->
  length (read_chunks fuel rest n) = ((length rest + n - 1) / n)%nat.
Proof.
  intros Hn. revert rest. induction fuel as [|fuel IH]; intros rest Hl.
  - destruct rest; [|simpl in Hl; lia]. simpl.
    symmetry. apply Nat.div_small. lia.
  - destruct rest as [|b rest].
    + rewrite read_chunks_nil. simpl. symmetry. apply Nat.div_small. lia.
    + destruct n as [|n]; [lia|].
      rewrite read_chunks_step.
      transitivity (S (length (read_chunks fuel (drop (S n) (b :: rest)) (S n))));
        [reflexivity|].
      rewrite IH by (rewrite length_drop; simpl in *; lia).
      rewrite length_drop.
      set (len := length (b :: rest)). assert (0 < len)%nat by (unfold len; simpl; lia).
      destruct (le_lt_dec (S n) len) as [Hge | Hlt].
      * replace (len + S n - 1)%nat with ((len - S n + S n - 1) + 1 * S n)%nat by lia.
        rewrite Nat.div_add by lia. lia.
      * replace (len - S n + S n - 1)%nat with n by lia.
        rewrite (Nat.div_small n (S n)) by lia.
        replace (len + S n - 1)%nat with ((len - 1) + 1 * S n)%nat by lia.
        rewrite Nat.div_add by lia.
        rewrite (Nat.div_small (len - 1) (S n)) by lia. reflexivity.
Qed.

(** X2.  For a positive chunk size, every chunk that
    [read_file_in_chunks] yields holds at least one byte and at most
    [chunk_size]; every chunk but the last holds exactly [chunk_size]; and
    their number is the length of the file divided by [chunk_size],
    rounded up. *)
Theorem read_file_in_chunks_sizes (file_obj : bytes) (chunk_size : nat) :
  (0 < chunk_size)%nat ->
  let chunks := read_file_in_chunks file_obj chunk_size in
  Forall (fun c => (0 < length c <= chunk_size)%nat) chunks
  /\ (forall i c, chunks !! i = Some c -> (S i < length chunks)%nat ->
                  length c = chunk_size)
  /\ length chunks = ((length file_obj + chunk_size - 1) / chunk_size)%nat.
Proof.
  intros Hn chunks. split; [|split].
  - apply read_chunks_sizes. exact Hn.
  - intros i c. apply read_chunks_full. exact Hn.
  - apply read_chunks_count; [exact Hn | reflexivity].
Qed.

Lemma read_file_in_chunks_sizes_witness :
  (0 < 4)%nat
  /\ length (read_file_in_chunks (bytes_of_string "hello world") 4) = 3%nat.
Proof.
  split; [lia|].
  exact (proj2 (proj2 (read_file_in_chunks_sizes
                         (bytes_of_string "hello world") 4 ltac:(lia)))).
Defined.

(** X3.  [read_file_in_chunks] yields nothing exactly when the file is
    empty or the chunk size is zero: the first read then returns no byte
    and ends the loop. *)
Theorem read_file_in_chunks_nothing (file_obj : bytes) (chunk_size : nat) :
  read_file_in_chunks file_obj chunk_size = []
  <-> file_obj = [] \/ chunk_size = 0%nat.
Proof.
  unfold read_file_in_chunks. split.
  - destruct file_obj as [|b rest]; [auto|].
    destruct chunk_size as [|n]; [auto|].
    cbn [length]. rewrite read_chunks_step. discriminate.
  - intros [-> | ->]; [reflexivity|].
    destruct file_obj; reflexivity.
Qed.

(** ** What [_write] raises *)

Lemma central_record_Err zi e : central_record zi = Err e -> e = StructError.
Proof.
  unfold central_record. intros H.
  apply bind_Err in H as [H | (ex & _ & H)].
  - destruct (_ ++ _); [discriminate|].
    apply bind_Err in H as [H | (? & _ & H)]; [eauto using pack_Err | discriminate].
  - destruct (_encodeFilenameFlags zi).
    apply bind_Err in H as [H | (? & _ & H)]; [eauto using pack_Err | discriminate].
Qed.

Lemma central_records_Err infos e : central_records infos = Err e -> e = StructError.
Proof.
  induction infos as [|zi rest IH]; simpl; [discriminate|]. intros H.
  apply bind_Err in H as [H | ([zi' b] & _ & H)]; [eauto using central_record_Err|].
  apply bind_Err in H as [H | ([rest' bs] & _ & H)]; [auto | discriminate].
Qed.

Lemma _write_end_record_Err sd infos e :
  _write_end_record sd infos = Err e -> e = StructError.
Proof.
  unfold _write_end_record. intros H.
  apply bind_Err in H as [H | ([loaded cd] & _ & H)]; [eauto using central_records_Err|].
  apply bind_Err in H as [H | (recs & _ & H)].
  - destruct (_ || _); [|discriminate].
    apply bind_Err in H as [H | (? & _ & H)]; [eauto using pack_Err|].
    apply bind_Err in H as [H | (? & _ & H)]; [eauto using pack_Err | discriminate].
  - apply bind_Err in H as [H | (? & _ & H)]; [eauto using pack_Err | discriminate].
Qed.

Lemma write_zipinfo_Err self s e :
  write_zipinfo self (Some s) = Err e ->
  e = StructError \/ e = LargeZipFile
  \/ (e = SeekError /\ header_offset (zipinfo self) < 0).
Proof.
  cbn [write_zipinfo]. intros H. apply bind_Err in H as [H | (s' & _ & H)].
  - unfold seek in H. destruct (_ <? 0) eqn:E; [|discriminate].
    injection H as <-. right. right. split; [reflexivity | lia].
  - apply bind_Err in H as [H | ([zi hdr] & _ & H)]; [|discriminate].
    apply FileHeader_Err in H. tauto.
Qed.

Lemma write_zipinfo_Ok self s self' s' :
  write_zipinfo self (Some s) = Ok (self', s') ->
  0 <= header_offset (zipinfo self)
  /\ header_offset (zipinfo self) <= pos s'
  /\ same_but_versions (zipinfo self) (zipinfo self').
Proof.
  cbn [write_zipinfo]. intros H. inv_bind H. inv_bind H. destruct a0 as [zi hdr].
  injection H as <- <-. apply seek_Ok in E as [H0 ->].
  rewrite pos_write. cbn [pos zipinfo set_zipinfo].
  split; [exact H0|]. split; [lia|]. eauto using FileHeader_same.
Qed.

Lemma _write_session_Err self chunk data w e :
  _write_session self chunk data w = Err e ->
  e = StructError \/ e = LargeZipFile
  \/ (e = SeekError
      /\ (header_offset (zipinfo self) < 0 \/ compress_size (zipinfo self) < 0)).
Proof.
  unfold _write_session. cbn zeta. intros H.
  set (old := fs w !! output_zip self) in *.
  assert (Hfp : fp (ZipFile_append old) = Some (open_stream old))
    by (destruct old; reflexivity).
  rewrite update_zip_info_time_eq in H. cbn iota beta in H.
  cbn [swap_zipinfo fp] in H. rewrite Hfp in H.
  apply bind_Err in H as [H | ([self1 s1] & E1 & H)].
  { apply write_zipinfo_Err in H as [H | [H | [H1 H2]]]; auto. }
  apply write_zipinfo_Ok in E1 as (H0 & Hpos & Hsame).
  cbn [zipinfo set_zipinfo set_date_time header_offset] in H0, Hpos.
  destruct Hsame as (_ & _ & _ & _ & _ & _ & A7 & _ & A9).
  cbn [zipinfo set_zipinfo set_date_time compress_size header_offset] in A7, A9.
  cbn [set_fp fp write_appended_data] in H.
  apply bind_Err in H as [H | (s3 & E3 & H)].
  { apply bind_Err in H as [H | (s2 & _ & H)]; [|discriminate].
    unfold seek, tell in H. destruct (_ <? 0) eqn:E; [|discriminate].
    injection H as <-. right. right. split; [reflexivity|]. lia. }
  rewrite update_zipinfo_data_eq in H. cbn iota beta in H.
  cbn [update_start_dir bind set_fp fp] in H.
  apply bind_Err in H as [H | ([self4 s5] & _ & H)]; [|discriminate].
  apply write_zipinfo_Err in H as [H | [H | [H1 H2]]]; auto.
  pose proof (counted_fields
                (set_date_time (zipinfo self1) (clock w (S (ticks w)))) chunk data)
    as (_ & _ & C3 & _).
  cbn [zipinfo set_zipinfo tick clock ticks] in H2.
  replace (ticks w + 0)%nat with (ticks w) in * by lia.
  cbn [Nat.add] in H2. rewrite C3 in H2.
  cbn [set_date_time header_offset] in H2. lia.
Qed.

(** X4.  The only exceptions a [_write] raises are [struct.error] (a
    value does not fit its header field), [LargeZipFile] (a size beyond the
    ZIP64 limit in a header written without ZIP64), and the error of a seek
    to a negative position, the last only for a descriptor with a negative
    header offset or compressed size.  In particular the "already closed"
    [ValueError] of its three guards never comes out of [_write]: the
    stream of the session it opens is always there. *)
Theorem _write_raises
    (self : writer) (chunk : option bytes) (data : bytes) (w : world) (e : error) :
  _write self chunk data w = Err e ->
  (e = StructError \/ e = LargeZipFile
   \/ (e = SeekError
       /\ (header_offset (zipinfo self) < 0 \/ compress_size (zipinfo self) < 0)))
  /\ e <> ArchiveClosed.
Proof.
  intros H.
  assert (He : e = StructError \/ e = LargeZipFile
               \/ (e = SeekError
                   /\ (header_offset (zipinfo self) < 0
                       \/ compress_size (zipinfo self) < 0))).
  { unfold _write in H.
    apply bind_Err in H as [H | ([[self1 zf] w1] & Hs & H)];
      [exact (_write_session_Err _ _ _ _ _ H)|].
    apply bind_Err in H as [H | (a & _ & H)]; [|discriminate].
    apply _write_session_Ok in Hs as
      (zi1 & hdr1 & zi2 & hdr2 & s1 & s2 & s4 & _ & _ & K3 & _ & _ & _ & -> & _).
    unfold ZipFile_close in H. cbn [fp _didModify start_dir filelist] in H.
    apply seek_Ok in K3 as [HP ->].
    apply bind_Err in H as [H | (s & _ & H)].
    - exfalso. unfold seek, tell in H. rewrite pos_write in H. cbn [pos] in H.
      destruct (_ <? 0) eqn:E; [|discriminate].
      apply Z.ltb_lt in E. unfold tell in *. lia.
    - apply bind_Err in H as [H | ([loaded tail] & _ & H)]; [|discriminate].
      left. eauto using _write_end_record_Err. }
  split; [exact He|].
  destruct He as [-> | [-> | [-> _]]]; discriminate.
Qed.

Lemma _write_raises_witness :
  exists e,
    _write example_oversized_writer None [] empty_world = Err e
    /\ e <> ArchiveClosed.
Proof.
  destruct (_write example_oversized_writer None [] empty_world)
    as [[self' w']|e] eqn:E; [vm_compute in E; discriminate|].
  exists e. split; [reflexivity|].
  exact (proj2 (_write_raises _ _ _ _ _ E)).
Defined.

(** ** Resuming an entry *)

(** X5.  What a write leaves in the archive is what the next writer for
    the same path and entry name starts from, whichever method that writer
    is created with: [_extract_zipinfo] finds the entry, reads no clock,
    and returns a descriptor with the counters the write ended on (the CRC
    and the size advanced by the chunk, the compressed size by the data),
    at the same header offset and with the method recorded before. *)
Theorem next_writer_resumes
    (self : writer) (chunk : option bytes) (data : bytes) (w : world)
    (self' : writer) (w' : world) (m : compress_method) :
  filename (zipinfo self) = filename_in_zip self ->
  _write self chunk data w = Ok (self', w') ->
  exists zi,
    _extract_zipinfo (output_zip self) (filename_in_zip self) m w' = Ok (zi, w')
    /\ same_entry (zipinfo self') zi
    /\ CRC zi = fed_crc chunk (CRC (zipinfo self))
    /\ file_size zi = fed_size chunk (file_size (zipinfo self))
    /\ compress_size zi = compress_size (zipinfo self) + Z.of_nat (length data)
    /\ header_offset zi = header_offset (zipinfo self)
    /\ compress_type zi = compress_type (zipinfo self).
Proof.
  intros Hname Hw.
  apply _write_entry in Hw as (_ & _ & _ & Hsame & _ & _ & _ & a & zi & Ha & Hg & Hzi);
    [|exact Hname].
  exists zi. split.
  - unfold _extract_zipinfo. rewrite Ha, Hg. reflexivity.
  - split; [exact Hzi|].
    destruct Hsame as (S1 & S2 & S3 & S4 & S5 & S6).
    destruct Hzi as (T1 & T2 & T3 & T4 & T5 & T6).
    pose proof (counted_fields (zipinfo self) chunk data)
      as (C1 & C2 & C3 & C4 & C5 & C6 & C7 & C8 & C9).
    rewrite <- T3, <- T4, <- T5, <- T6, <- T2, <- S3, <- S4, <- S5, <- S6, <- S2.
    rewrite C9, C8, C7, C3, C2. unfold fed_crc, fed_size.
    destruct chunk; repeat split; lia.
Qed.

Lemma next_writer_resumes_witness :
  filename (zipinfo example_stored_writer) = filename_in_zip example_stored_writer
  /\ exists self' w' zi,
      _write example_stored_writer (Some [x68; x69]) [x68; x69] empty_world
      = Ok (self', w')
      /\ _extract_zipinfo "out.zip" "in.txt" ZIP_DEFLATED w' = Ok (zi, w')
      /\ file_size zi = 2 /\ compress_type zi = ZIP_STORED.
Proof.
  split; [reflexivity|].
  destruct (_write example_stored_writer (Some [x68; x69]) [x68; x69] empty_world)
    as [[self' w']|e] eqn:E; [|vm_compute in E; discriminate].
  destruct (next_writer_resumes example_stored_writer _ _ _ _ _ ZIP_DEFLATED eq_refl E)
    as (zi & Hx & _ & _ & Hf & _ & _ & Hm).
  exists self', w', zi. auto.
Defined.

(** X6.  A write keeps the directory records of the entries with other
    names: the directory of the archive it leaves lists them in their old
    order, each with the name, method, CRC, sizes and header offset it had,
    and after them, last, the entry of the writer. *)
Theorem _write_keeps_other_entries
    (self : writer) (chunk : option bytes) (data : bytes) (w : world)
    (self' : writer) (w' : world) :
  _write self chunk data w = Ok (self', w') ->
  exists a others mine,
    fs w' !! output_zip self = Some a
    /\ directory a = others ++ [mine]
    /\ same_entry (zipinfo self') mine
    /\ Forall2 same_entry
         (filter (fun zi => filename zi <> filename_in_zip self)
                 (old_directory (fs w !! output_zip self)))
         others.
Proof.
  intros Hw.
  apply _write_steps in Hw as
    (zi1 & hdr1 & hdr2 & b0 & tail & a & _ & _ & _ & _ & _ & _ & _ & _
     & Hend & _ & _ & Ha).
  apply _write_end_record_same in Hend.
  apply Forall2_app_inv_l in Hend as (others & ys & Ho & Hy & Hd).
  inversion Hy as [|x0 mine l0 l0' Hxy Hnil]; subst. inversion Hnil; subst.
  exists a, others, mine. auto.
Qed.

Lemma _write_keeps_other_entries_witness :
  exists w0 a0 self w1 self' w' a other mine,
    stored_loop [[x61]] "out.zip" "a.txt" empty_world = Ok w0
    /\ fs w0 !! "out.zip" = Some a0
    /\ count_named "a.txt" (directory a0) = 1%nat
    /\ ChunkedStoredZipWriter.__init__ "out.zip" "in.txt" w0 = Ok (self, w1)
    /\ _write self (Some [x68; x69]) [x68; x69] w1 = Ok (self', w')
    /\ fs w' !! "out.zip" = Some a
    /\ directory a = [other; mine]
    /\ filename other = "a.txt"%string /\ file_size other = 1
    /\ filename mine = "in.txt"%string /\ file_size mine = 2.
Proof.
  destruct (stored_loop [[x61]] "out.zip" "a.txt" empty_world)
    as [w0|] eqn:E0; [|vm_compute in E0; discriminate].
  destruct (ChunkedStoredZipWriter.__init__ "out.zip" "in.txt" w0)
    as [[self w1]|] eqn:Ei;
    [|exfalso; vm_compute in E0; injection E0 as <-; vm_compute in Ei; discriminate].
  destruct (_write self (Some [x68; x69]) [x68; x69] w1)
    as [[self' w']|] eqn:Ew;
    [|exfalso; vm_compute in E0; injection E0 as <-;
      vm_compute in Ei; injection Ei as <- <-; vm_compute in Ew; discriminate].
  destruct (_write_keeps_other_entries self _ _ _ _ _ Ew)
    as (a & others & mine & Ha & Hd & Hmine & HF).
  assert (H0 : exists a0 zi_a,
             fs w0 !! "out.zip" = Some a0 /\ directory a0 = [zi_a]
             /\ filename zi_a = "a.txt"%string /\ file_size zi_a = 1).
  { vm_compute in E0. injection E0 as <-.
    eexists _, _. split; [vm_compute; reflexivity|].
    split; [reflexivity|]. split; reflexivity. }
  destruct H0 as (a0 & zi_a & Ha0 & Hd0 & Hna & Hsa).
  assert (Hself : output_zip self = "out.zip"%string
                  /\ filename_in_zip self = "in.txt"%string
                  /\ fs w1 = fs w0 /\ filename (zipinfo self') = "in.txt"%string
                  /\ file_size (zipinfo self') = 2).
  { vm_compute in E0. injection E0 as <-. vm_compute in Ei. injection Ei as <- <-.
    vm_compute in Ew. injection Ew as <- <-. repeat split; reflexivity. }
  destruct Hself as (Ho & Hf & Hfs & Hn' & Hs').
  rewrite Ho, Hf, Hfs, Ha0 in HF. cbn [old_directory] in HF. rewrite Hd0 in HF.
  rewrite filter_cons, Hna in HF.
  destruct (decide ("a.txt"%string <> "in.txt"%string)) as [_|Hx];
    [|exfalso; apply Hx; discriminate].
  rewrite filter_nil in HF.
  inversion HF as [|? other ? ? Hz Hr]; subst. inversion Hr; subst.
  destruct Hz as (Z1 & _ & _ & _ & Z5 & _).
  destruct Hmine as (M1 & _ & _ & _ & M5 & _).
  rewrite Ho in Ha.
  exists w0, a0, self, w1, self', w', a, other, mine.
  split; [reflexivity|]. split; [exact Ha0|].
  split; [rewrite Hd0; unfold count_named; rewrite filter_cons, Hna; reflexivity|].
  split; [exact Ei|]. split; [exact Ew|]. split; [exact Ha|].
  split; [exact Hd|]. split; [congruence|]. split; [congruence|].
  split; congruence.
Defined.

(** ** What a run leaves alone *)

Lemma frame_refl out key w : frame out key w w.
Proof. unfold frame. auto. Qed.

Lemma frame_trans out key w1 w2 w3 :
  frame out key w1 w2 -> frame out key w2 w3 -> frame out key w1 w3.
Proof.
  intros (F1 & R1 & C1) (F2 & R2 & C2). unfold frame.
  split; [|split].
  - intros p Hp. rewrite F2, F1; auto.
  - intros k Hk. rewrite R2, R1; auto.
  - congruence.
Qed.

Lemma frame_same out key w w' :
  fs w' = fs w -> zip_compressor_storage w' = zip_compressor_storage w ->
  clock w' = clock w -> frame out key w w'.
Proof. unfold frame. intros -> -> ->. auto. Qed.

Lemma _extract_zipinfo_frame out name m w zi w1 :
  _extract_zipinfo out name m w = Ok (zi, w1) ->
  fs w1 = fs w /\ zip_compressor_storage w1 = zip_compressor_storage w
  /\ clock w1 = clock w.
Proof.
  unfold _extract_zipinfo. intros H.
  assert (Hfresh : forall r,
             (let '(dt, w') := datetime_now w in
              let* zi := new_ZipInfo name dt in
              Ok ({| filename := filename zi; date_time := date_time zi;
                     compress_type := m; extra := extra zi;
                     create_version := create_version zi;
                     extract_version := extract_version zi;
                     flag_bits := flag_bits zi;
                     CRC := crc32 [] 0; compress_size := 0; file_size := 0;
                     header_offset := 0 |}, w')) = Ok (r, w1) ->
             fs w1 = fs w /\ zip_compressor_storage w1 = zip_compressor_storage w
             /\ clock w1 = clock w).
  { intros r Hr. unfold datetime_now in Hr. inv_bind Hr. injection Hr as _ <-. auto. }
  destruct (fs w !! out) as [a|]; [|eauto].
  destruct (getinfo (directory a) name); [|eauto].
  injection H as _ <-. auto.
Qed.

Lemma _write_frame self chunk data w self' w' :
  _write self chunk data w = Ok (self', w') ->
  frame (output_zip self) (_compressor_path self) w w'
  /\ zip_compressor_storage w' = zip_compressor_storage w
  /\ output_zip self' = output_zip self
  /\ filename_in_zip self' = filename_in_zip self
  /\ compression self' = compression self.
Proof.
  intros H.
  apply _write_Ok in H as (zf & s0 & s & loaded & tail & Hs & _ & _ & _ & ->).
  pose proof (session_descriptor _ _ _ _ _ _ _ Hs) as (_ & _ & _ & _ & Ho & Hf & Hc).
  split; [|auto].
  unfold frame. cbn [fs set_fs zip_compressor_storage clock tick].
  split; [|auto]. intros p Hp. apply lookup_insert_ne. congruence.
Qed.

Lemma adapter_frame `{C : codec} self o w a w1 bd w2 :
  ChunkedCompressedZipWriter.get_compressor self w = Ok (a, w1) ->
  adapter_call a o w1 = Ok (bd, w2) ->
  frame (output_zip self) (_compressor_path self) w w2
  /\ (compression self = ZIP_STORED -> w2 = w).
Proof.
  intros Hg Hc.
  destruct (decide (compression self = ZIP_STORED)) as [Hm | Hm].
  - rewrite (get_compressor_stored _ _ Hm) in Hg. injection Hg as <- <-.
    assert (w2 = w) as ->.
    { destruct o as [d | [md|]]; simpl in Hc; congruence. }
    split; [apply frame_refl | reflexivity].
  - destruct (call_registered self o w a w1 bd w2 Hm Hg Hc)
      as (_ & Hreg & Hfs & Hck & _).
    split; [|contradiction].
    unfold frame. rewrite Hreg, Hfs, Hck. split; [auto|]. split; [|reflexivity].
    intros k Hk. apply lookup_insert_ne. congruence.
Qed.

Lemma compressed_write_chunk_frame `{C : codec} self chunk w self' w' :
  ChunkedCompressedZipWriter.write_chunk self chunk w = Ok (self', w') ->
  frame (output_zip self) (_compressor_path self) w w'
  /\ (compression self = ZIP_STORED ->
      zip_compressor_storage w' = zip_compressor_storage w)
  /\ output_zip self' = output_zip self
  /\ filename_in_zip self' = filename_in_zip self
  /\ compression self' = compression self.
Proof.
  unfold ChunkedCompressedZipWriter.write_chunk. intros H.
  inv_bind H. destruct a as [a w1]. inv_bind H. destruct a0 as [bd w2].
  destruct (adapter_frame _ _ _ _ _ _ _ E E0) as [F1 S1].
  destruct (_write_frame _ _ _ _ _ _ H) as (F2 & R2 & Ho & Hf & Hc).
  split; [eapply frame_trans; eauto|]. split; [|auto].
  intros Hm. rewrite R2, (S1 Hm). reflexivity.
Qed.

Lemma drain_frame `{C : codec} self o w self' w' :
  drain self o w = Ok (self', w') ->
  frame (output_zip self) (_compressor_path self) w w'
  /\ (compression self = ZIP_STORED ->
      zip_compressor_storage w' = zip_compressor_storage w).
Proof.
  unfold drain. intros H.
  inv_bind H. destruct a as [a w1]. inv_bind H. destruct a0 as [bd w2].
  destruct (adapter_frame _ _ _ _ _ _ _ E E0) as [F1 S1].
  destruct (length bd =? 0)%nat.
  - injection H as <- <-. split; [exact F1|]. intros Hm. rewrite (S1 Hm). reflexivity.
  - destruct (_write_frame _ _ _ _ _ _ H) as (F2 & R2 & _).
    split; [eapply frame_trans; eauto|].
    intros Hm. rewrite R2, (S1 Hm). reflexivity.
Qed.

Lemma compressed_flush_frame `{C : codec} self w self' w' :
  ChunkedCompressedZipWriter.flush self w = Ok (self', w') ->
  frame (output_zip self) (_compressor_path self) w w'
  /\ (compression self = ZIP_STORED ->
      zip_compressor_storage w' = zip_compressor_storage w)
  /\ output_zip self' = output_zip self
  /\ filename_in_zip self' = filename_in_zip self
  /\ compression self' = compression self.
Proof.
  rewrite flush_is_drain. intros H.
  assert (Hid : Ok (self, w) = Ok (self', w') ->
                frame (output_zip self) (_compressor_path self) w w'
                /\ (compression self = ZIP_STORED ->
                    zip_compressor_storage w' = zip_compressor_storage w)
                /\ output_zip self' = output_zip self
                /\ filename_in_zip self' = filename_in_zip self
                /\ compression self' = compression self).
  { intros [= <- <-]. split; [apply frame_refl | auto]. }
  assert (Hdr : drain self (Flush None) w = Ok (self', w') ->
                frame (output_zip self) (_compressor_path self) w w'
                /\ (compression self = ZIP_STORED ->
                    zip_compressor_storage w' = zip_compressor_storage w)
                /\ output_zip self' = output_zip self
                /\ filename_in_zip self' = filename_in_zip self
                /\ compression self' = compression self).
  { intros Hd. destruct (drain_frame _ _ _ _ _ Hd) as [F S].
    split; [exact F|]. split; [exact S|].
    unfold drain in Hd.
    inv_bind Hd. destruct a as [a w1]. inv_bind Hd. destruct a0 as [bd w2].
    destruct (length bd =? 0)%nat.
    - injection Hd as <- <-. auto.
    - destruct (_write_frame _ _ _ _ _ _ Hd) as (_ & _ & Ho & Hf & Hc). auto. }
  destruct (compression self); auto.
Qed.

Lemma compressed_exit_frame `{C : codec} self w self' w' :
  ChunkedCompressedZipWriter.__exit__ self w = Ok (self', w') ->
  frame (output_zip self) (_compressor_path self) w w'
  /\ (compression self = ZIP_STORED ->
      zip_compressor_storage w' = zip_compressor_storage w).
Proof.
  unfold ChunkedCompressedZipWriter.__exit__. rewrite close_is_drain. intros H.
  destruct (compression self) eqn:Em;
    try (injection H as <- <-; split; [apply frame_refl | auto]).
  destruct (drain_frame _ _ _ _ _ H) as [F S]. split; [exact F|].
  intros [=].
Qed.

Lemma compressed_init_frame out name m w self w1 :
  ChunkedCompressedZipWriter.__init__ out name m w = Ok (self, w1) ->
  frame out (key_of out name) w w1
  /\ zip_compressor_storage w1 = zip_compressor_storage w
  /\ output_zip self = out /\ filename_in_zip self = name /\ compression self = m.
Proof.
  unfold ChunkedCompressedZipWriter.__init__. intros H.
  inv_bind H. destruct a as [zi w2]. injection H as <- <-.
  destruct (_extract_zipinfo_frame _ _ _ _ _ _ E) as (Hfs & Hreg & Hck).
  split; [apply frame_same; assumption|]. auto.
Qed.

Lemma stored_init_frame out name w self w1 :
  ChunkedStoredZipWriter.__init__ out name w = Ok (self, w1) ->
  frame out (key_of out name) w w1
  /\ zip_compressor_storage w1 = zip_compressor_storage w
  /\ output_zip self = out /\ filename_in_zip self = name.
Proof.
  unfold ChunkedStoredZipWriter.__init__. intros H.
  inv_bind H. destruct a as [zi w2]. injection H as <- <-.
  destruct (_extract_zipinfo_frame _ _ _ _ _ _ E) as (Hfs & Hreg & Hck).
  split; [apply frame_same; assumption|]. auto.
Qed.

Lemma stored_loop_frame chunks out name w w' :
  stored_loop chunks out name w = Ok w' ->
  frame out (key_of out name) w w'
  /\ zip_compressor_storage w' = zip_compressor_storage w.
Proof.
  revert w. induction chunks as [|chunk rest IH]; intros w H.
  - injection H as <-. split; [apply frame_refl | reflexivity].
  - cbn [stored_loop] in H.
    inv_bind H. destruct a as [zw w1]. inv_bind H. destruct a as [zw' w2].
    inv_bind H. destruct a as [zw'' w3]. injection E1 as _ <-.
    destruct (stored_init_frame _ _ _ _ _ E) as (F1 & R1 & Ho & Hf).
    destruct (_write_frame _ _ _ _ _ _ E0) as (F2 & R2 & _).
    unfold _compressor_path in F2. rewrite Ho, Hf in F2.
    destruct (IH _ H) as (F3 & R3).
    split; [|congruence].
    eapply frame_trans; [exact F1|]. eapply frame_trans; [exact F2 | exact F3].
Qed.

Lemma compressed_loop_frame `{C : codec} chunks out name m w w' :
  compressed_loop chunks out name m w = Ok w' ->
  frame out (key_of out name) w w'.
Proof.
  revert w. induction chunks as [|chunk rest IH]; intros w H.
  - injection H as <-. apply frame_refl.
  - cbn [compressed_loop] in H.
    inv_bind H. destruct a as [zw w1]. inv_bind H. destruct a as [zw' w2].
    inv_bind H. destruct a as [zw'' w3].
    destruct (compressed_init_frame _ _ _ _ _ _ E) as (F1 & R1 & Ho & Hf & Hm).
    destruct (compressed_write_chunk_frame _ _ _ _ _ E0) as (F2 & _ & Ho' & Hf' & Hm').
    destruct (compressed_exit_frame _ _ _ _ E1) as (F3 & _).
    unfold _compressor_path in F2, F3. rewrite Ho', Hf' in F3. rewrite Ho, Hf in F2, F3.
    eapply frame_trans; [exact F1|]. eapply frame_trans; [exact F2|].
    eapply frame_trans; [exact F3 | exact (IH _ H)].
Qed.

Lemma zip_chunks_frame `{C : codec} chunks input out m w w' :
  zip_chunks chunks input out m w = Ok w' ->
  frame out (key_of out (basename input)) w w'
  /\ (m = ZIP_STORED -> zip_compressor_storage w' = zip_compressor_storage w).
Proof.
  unfold zip_chunks. intros H.
  destruct (decide (m = ZIP_STORED)) as [-> | Hm].
  - inv_bind H. rename a into w1. inv_bind H. destruct a as [zw w2].
    inv_bind H. destruct a as [zw' w3]. inv_bind H. destruct a as [zw'' w4].
    injection H as <-. injection E1 as <- <-. injection E2 as _ <-.
    destruct (stored_loop_frame _ _ _ _ _ E) as (F1 & R1).
    destruct (stored_init_frame _ _ _ _ _ E0) as (F2 & R2 & _).
    split; [eapply frame_trans; eauto | congruence].
  - inv_bind H. rename a into w1. inv_bind H. destruct a as [zw w2].
    inv_bind H. destruct a as [zw' w3]. inv_bind H. destruct a as [zw'' w4].
    injection H as <-.
    pose proof (compressed_loop_frame _ _ _ _ _ _ E) as F1.
    destruct (compressed_init_frame _ _ _ _ _ _ E0) as (F2 & _ & Ho & Hf & _).
    destruct (compressed_flush_frame _ _ _ _ E1) as (F3 & _ & Ho' & Hf' & _).
    destruct (compressed_exit_frame _ _ _ _ E2) as (F4 & _).
    unfold _compressor_path in F3, F4. rewrite Ho', Hf' in F4. rewrite Ho, Hf in F3, F4.
    split; [|contradiction].
    eapply frame_trans; [exact F1|]. eapply frame_trans; [exact F2|].
    eapply frame_trans; [exact F3 | exact F4].
Qed.

(** X7.  A run of [zip_file_in_chunks] changes no file but the output
    archive and no entry of the compressor registry but the one under the
    key of the output path and the base name of the input; with STORED it
    leaves the registry as it is. *)
Theorem zip_file_in_chunks_frame `{C : codec}
    (source : bytes) (input_file output_zip : string) (compression : compress_method)
    (w w' : world) :
  zip_file_in_chunks source input_file output_zip compression w = Ok w' ->
  (forall p, p <> output_zip -> fs w' !! p = fs w !! p)
  /\ (forall k, k <> (output_zip ++ "/" ++ basename input_file)%string ->
        zip_compressor_storage w' !! k = zip_compressor_storage w !! k)
  /\ (compression = ZIP_STORED ->
      zip_compressor_storage w' = zip_compressor_storage w).
Proof.
  unfold zip_file_in_chunks. intros H.
  destruct (zip_chunks_frame _ _ _ _ _ _ H) as ((F & R & _) & S).
  auto.
Qed.

Lemma zip_file_in_chunks_frame_witness :
  exists w',
    @zip_file_in_chunks hold_codec (bytes_of_string "hello world")
      "dir/in.txt" "out.zip" ZIP_BZIP2 empty_world = Ok w'
    /\ fs w' !! "other.zip" = None
    /\ zip_compressor_storage w' !! "out.zip/other.txt" = None.
Proof.
  destruct (@zip_file_in_chunks hold_codec (bytes_of_string "hello world")
              "dir/in.txt" "out.zip" ZIP_BZIP2 empty_world) as [w'|e] eqn:E;
    [|vm_compute in E; discriminate].
  exists w'. split; [reflexivity|].
  destruct (@zip_file_in_chunks_frame hold_codec _ _ _ _ _ _ E) as (F & R & _).
  split; [apply F | apply R]; discriminate.
Defined.

(** ** Entry names and registry keys *)

Lemma has_slash_cons c s :
  has_slash (String c s) = Ascii.eqb c "/" || has_slash s.
Proof.
  unfold has_slash. cbn [list_ascii_of_string existsb].
  rewrite (Ascii.eqb_sym "/" c). reflexivity.
Qed.

Lemma has_slash_app a b : has_slash (a ++ "/" ++ b) = true.
Proof.
  induction a as [|c a IH].
  - reflexivity.
  - change (String c a ++ "/" ++ b)%string with (String c (a ++ "/" ++ b)).
    rewrite has_slash_cons, IH. apply orb_true_r.
Qed.

Lemma basename_cons c rest :
  basename (String c rest)
  = if Ascii.eqb c "/" then basename rest
    else if has_slash rest then basename rest else String c rest.
Proof. reflexivity. Qed.

Lemma basename_no_slash path : has_slash (basename path) = false.
Proof.
  induction path as [|c rest IH]; [reflexivity|].
  rewrite basename_cons.
  destruct (Ascii.eqb c "/") eqn:Ec; [exact IH|].
  destruct (has_slash rest) eqn:Er; [exact IH|].
  rewrite has_slash_cons, Ec, Er. reflexivity.
Qed.

Lemma basename_plain path : has_slash path = false -> basename path = path.
Proof.
  destruct path as [|c rest]; [reflexivity|].
  rewrite has_slash_cons, basename_cons. intros H.
  apply orb_false_iff in H as [-> ->]. reflexivity.
Qed.

(** X8.  The entry name that [zip_file_in_chunks] takes from the input
    path holds no slash, and it is what follows the last slash of the
    path: the whole path when there is none, and otherwise the path is
    some directory part, a slash, and the name. *)
Theorem basename_is_last_component (path : string) :
  has_slash (basename path) = false
  /\ (has_slash path = false -> basename path = path)
  /\ (has_slash path = true ->
      exists dir, path = (dir ++ "/" ++ basename path)%string).
Proof.
  split; [apply basename_no_slash|]. split; [apply basename_plain|].
  induction path as [|c rest IH]; [discriminate|].
  rewrite has_slash_cons, basename_cons. intros H.
  destruct (Ascii.eqb c "/") eqn:Ec.
  - apply Ascii.eqb_eq in Ec as ->.
    destruct (has_slash rest) eqn:Er.
    + destruct (IH eq_refl) as (dir & Hd).
      exists (String "/" dir).
      change (String "/" rest = String "/" (dir ++ "/" ++ basename rest)%string).
      f_equal. exact Hd.
    + exists ""%string. rewrite (basename_plain _ Er). reflexivity.
  - simpl in H. rewrite H.
    destruct (IH H) as (dir & Hd).
    exists (String c dir).
    change (String c rest = String c (dir ++ "/" ++ basename rest)%string).
    f_equal. exact Hd.
Qed.

Lemma string_cons_inj c s c' s' : String c s = String c' s' -> c = c' /\ s = s'.
Proof. intros H. split; congruence. Qed.

Lemma key_of_injective o1 n1 o2 n2 :
  has_slash n1 = false -> has_slash n2 = false ->
  key_of o1 n1 = key_of o2 n2 -> o1 = o2 /\ n1 = n2.
Proof.
  unfold key_of. intros H1 H2. revert o2.
  induction o1 as [|c o1 IH]; intros [|c2 o2] H.
  - change (String "/" n1 = String "/" n2) in H.
    apply string_cons_inj in H as [_ ->]. auto.
  - exfalso.
    change (String "/" n1 = String c2 (o2 ++ "/" ++ n2)%string) in H.
    apply string_cons_inj in H as [_ ->].
    rewrite has_slash_app in H1. discriminate.
  - exfalso.
    change (String c (o1 ++ "/" ++ n1)%string = String "/" n2) in H.
    apply string_cons_inj in H as [_ <-].
    rewrite has_slash_app in H2. discriminate.
  - change (String c (o1 ++ "/" ++ n1)%string
            = String c2 (o2 ++ "/" ++ n2)%string) in H.
    apply string_cons_inj in H as [-> H].
    destruct (IH _ H) as [-> ->]. auto.
Qed.

(** X9.  For entry names without a slash the registry key tells the
    writers apart: two writers bound to different (archive path, entry
    name) pairs have different keys. *)
Theorem _compressor_path_distinct (a b : writer) :
  has_slash (filename_in_zip a) = false ->
  has_slash (filename_in_zip b) = false ->
  (output_zip a, filename_in_zip a) <> (output_zip b, filename_in_zip b) ->
  _compressor_path a <> _compressor_path b.
Proof.
  intros Ha Hb Hne Hk. apply Hne.
  destruct (key_of_injective _ _ _ _ Ha Hb Hk) as [-> ->]. reflexivity.
Qed.

Lemma _compressor_path_distinct_witness :
  has_slash (filename_in_zip example_stored_writer) = false
  /\ has_slash (filename_in_zip example_other_writer) = false
  /\ _compressor_path example_stored_writer
     <> _compressor_path example_other_writer.
Proof.
  split; [reflexivity|]. split; [reflexivity|].
  apply _compressor_path_distinct; [reflexivity | reflexivity | discriminate].
Defined.

(** X10.  The writers that [zip_file_in_chunks] creates take the base
    name of the input as entry name, so their registry keys never collide:
    runs for different (output path, input base name) pairs use different
    keys. *)
Theorem zip_file_in_chunks_keys_distinct (out1 in1 out2 in2 : string) :
  (out1, basename in1) <> (out2, basename in2) ->
  forall m1 m2 w1 w2 a b w1' w2',
    ChunkedCompressedZipWriter.__init__ out1 (basename in1) m1 w1 = Ok (a, w1') ->
    ChunkedCompressedZipWriter.__init__ out2 (basename in2) m2 w2 = Ok (b, w2') ->
    _compressor_path a <> _compressor_path b.
Proof.
  intros Hne m1 m2 w1 w2 a b w1' w2' Ha Hb Hk. apply Hne.
  unfold ChunkedCompressedZipWriter.__init__ in Ha, Hb.
  inv_bind Ha. destruct a0 as [zi1 wa]. injection Ha as <- _.
  inv_bind Hb. destruct a as [zi2 wb]. injection Hb as <- _.
  unfold _compressor_path in Hk. cbn [output_zip filename_in_zip] in Hk.
  destruct (key_of_injective out1 (basename in1) out2 (basename in2)
              (basename_no_slash in1) (basename_no_slash in2) Hk) as [-> ->].
  reflexivity.
Qed.

Lemma zip_file_in_chunks_keys_distinct_witness :
  ("a/b", basename "x/c") <> ("a", basename "b/c")
  /\ exists a b w1 w2,
      ChunkedCompressedZipWriter.__init__ "a/b" (basename "x/c") ZIP_DEFLATED
        empty_world = Ok (a, w1)
      /\ ChunkedCompressedZipWriter.__init__ "a" (basename "b/c") ZIP_DEFLATED
           empty_world = Ok (b, w2)
      /\ _compressor_path a <> _compressor_path b.
Proof.
  split; [discriminate|].
  destruct (ChunkedCompressedZipWriter.__init__ "a/b" (basename "x/c") ZIP_DEFLATED
              empty_world) as [[a w1]|e] eqn:Ea; [|vm_compute in Ea; discriminate].
  destruct (ChunkedCompressedZipWriter.__init__ "a" (basename "b/c") ZIP_DEFLATED
              empty_world) as [[b w2]|e] eqn:Eb; [|vm_compute in Eb; discriminate].
  exists a, b, w1, w2. split; [reflexivity|]. split; [reflexivity|].
  exact (zip_file_in_chunks_keys_distinct "a/b" "x/c" "a" "b/c"
           ltac:(discriminate) _ _ _ _ _ _ _ _ Ea Eb).
Defined.

(** ** The registry and the pass-through adapter *)

(** X11.  [get_compressor] registers once: after a successful call, a
    second call for the same writer hands out the same object and leaves
    the world as the first call left it. *)
Theorem get_compressor_idempotent (self : writer) (w : world) (a : adapter) (w1 : world) :
  ChunkedCompressedZipWriter.get_compressor self w = Ok (a, w1) ->
  ChunkedCompressedZipWriter.get_compressor self w1 = Ok (a, w1)
  /\ (compression self <> ZIP_STORED ->
      a = Registered (_compressor_path self)
      /\ is_Some (zip_compressor_storage w1 !! _compressor_path self)).
Proof.
  intros Hg. unfold ChunkedCompressedZipWriter.get_compressor in *.
  destruct (decide (compression self = ZIP_STORED)) as [Hm | Hm].
  - injection Hg as <- <-. split; [reflexivity | contradiction].
  - destruct (zip_compressor_storage w !! _compressor_path self) as [c|] eqn:E.
    + injection Hg as <- <-. rewrite E. split; [reflexivity|]. eauto.
    + inv_bind Hg. injection Hg as <- <-.
      cbn [zip_compressor_storage set_storage]. rewrite lookup_insert_eq.
      split; [reflexivity|]. eauto.
Qed.

Lemma get_compressor_idempotent_witness :
  exists a w1,
    ChunkedCompressedZipWriter.get_compressor example_oversized_writer empty_world
    = Ok (a, w1)
    /\ ChunkedCompressedZipWriter.get_compressor example_oversized_writer w1
       = Ok (a, w1).
Proof.
  destruct (ChunkedCompressedZipWriter.get_compressor example_oversized_writer
              empty_world) as [[a w1]|e] eqn:E; [|vm_compute in E; discriminate].
  exists a, w1. split; [reflexivity|].
  exact (proj1 (get_compressor_idempotent _ _ _ _ E)).
Defined.

Lemma compressed_stored_calls `{C : codec} self chunk w :
  compression self = ZIP_STORED ->
  ChunkedCompressedZipWriter.write_chunk self chunk w
  = ChunkedStoredZipWriter.write_chunk self chunk w
  /\ ChunkedCompressedZipWriter.flush self w = Ok (self, w)
  /\ ChunkedCompressedZipWriter.close self w = Ok (self, w).
Proof.
  intros Hm.
  unfold ChunkedCompressedZipWriter.write_chunk, ChunkedCompressedZipWriter.flush,
    ChunkedCompressedZipWriter.close, ChunkedStoredZipWriter.write_chunk.
  rewrite (get_compressor_stored _ _ Hm), Hm. cbn [bind adapter_call].
  repeat split; reflexivity.
Qed.

Lemma compressed_loop_stored `{C : codec} chunks out name w :
  compressed_loop chunks out name ZIP_STORED w = stored_loop chunks out name w.
Proof.
  revert w. induction chunks as [|chunk rest IH]; intros w; [reflexivity|].
  cbn [compressed_loop stored_loop].
  change (ChunkedCompressedZipWriter.__init__ out name ZIP_STORED w)
    with (ChunkedStoredZipWriter.__init__ out name w).
  destruct (ChunkedStoredZipWriter.__init__ out name w) as [[zw w1]|e] eqn:E;
    [|reflexivity].
  cbn [bind].
  assert (Hm : compression zw = ZIP_STORED).
  { unfold ChunkedStoredZipWriter.__init__ in E. inv_bind E. destruct a as [zi w2].
    injection E as <- _. reflexivity. }
  rewrite (proj1 (compressed_stored_calls zw chunk w1 Hm)).
  destruct (ChunkedStoredZipWriter.write_chunk zw chunk w1) as [[zw' w2]|e] eqn:E2;
    [|reflexivity].
  cbn [bind].
  assert (Hm' : compression zw' = ZIP_STORED).
  { destruct (_write_frame _ _ _ _ _ _ E2) as (_ & _ & _ & _ & Hc). congruence. }
  unfold ChunkedCompressedZipWriter.__exit__.
  rewrite (proj2 (proj2 (compressed_stored_calls zw' chunk w2 Hm'))).
  cbn. apply IH.
Qed.

(** X12.  A compressed writer whose method is STORED is a stored writer:
    its [write_chunk] passes the chunk through [EmptyCompress] unchanged
    and does what [ChunkedStoredZipWriter.write_chunk] does, and its
    [flush], [close] and [__exit__] do nothing, as those of the stored
    writer.  So the chunk loop of the compressed branch of
    [zip_file_in_chunks], run with STORED, does what the loop of the stored
    branch does. *)
Theorem compressed_stored_is_stored `{C : codec}
    (self : writer) (chunk : bytes) (w : world) :
  compression self = ZIP_STORED ->
  ChunkedCompressedZipWriter.write_chunk self chunk w
  = ChunkedStoredZipWriter.write_chunk self chunk w
  /\ ChunkedCompressedZipWriter.flush self w = ChunkedStoredZipWriter.flush self w
  /\ ChunkedCompressedZipWriter.close self w = ChunkedStoredZipWriter.close self w
  /\ ChunkedCompressedZipWriter.__exit__ self w
     = ChunkedStoredZipWriter.__exit__ self w
  /\ adapter_call EmptyCompress (Compress chunk) w = Ok (chunk, w)
  /\ adapter_call EmptyCompress (Flush None) w = Ok ([], w)
  /\ (forall chunks out name w0,
        compressed_loop chunks out name ZIP_STORED w0
        = stored_loop chunks out name w0).
Proof.
  intros Hm.
  destruct (compressed_stored_calls self chunk w Hm) as (Hw & Hf & Hc).
  split; [exact Hw|]. split; [exact Hf|]. split; [exact Hc|].
  split; [exact Hc|]. split; [reflexivity|]. split; [reflexivity|].
  intros chunks out name w0. apply compressed_loop_stored.
Qed.

Lemma compressed_stored_is_stored_witness :
  compression example_stored_writer = ZIP_STORED
  /\ @ChunkedCompressedZipWriter.write_chunk hold_codec
       example_stored_writer [x68; x69] empty_world
     = ChunkedStoredZipWriter.write_chunk example_stored_writer [x68; x69] empty_world.
Proof.
  split; [reflexivity|].
  exact (proj1 (@compressed_stored_is_stored hold_codec example_stored_writer
                  [x68; x69] empty_world eq_refl)).
Defined.

(** ** The bytes of the entry *)

Lemma FileHeader_plain zi zi' hdr :
  FileHeader zi false = Ok (zi', hdr) -> extra zi = [] ->
  plain_header (filename zi) hdr.
Proof.
  intros H Hex.
  pose proof (FileHeader_length _ _ _ _ H) as Hlen.
  apply FileHeader_Ok in H as
    (crc & cs & fsz & z64 & fixed & mv & _ & Hz & _ & _ & Hp & ->).
  subst z64. rewrite Hex in *. rewrite !app_nil_r in *.
  pose proof (pack_length _ _ Hp) as Hfl. cbn in Hfl.
  apply pack_Ok in Hp as [Hfx HF].
  repeat (apply Forall_cons in HF as [? HF]).
  cbn [fst snd fmt_size] in *.
  unfold plain_header. split; [|split; [|split; [|split]]].
  - rewrite Hlen. unfold header_length. rewrite Hex. simpl. lia.
  - reflexivity.
  - subst fixed. unfold segment. cbn.
    match goal with |- _ = ?v => change (le_value (le_bytes 2 v) = v) end.
    apply le_value_le_bytes. assumption.
  - subst fixed. unfold segment. cbn. reflexivity.
  - change sizeFileHeader with (4 + 26)%nat.
    rewrite <- drop_drop. cbn [stringFileHeader app drop].
    rewrite drop_0.
    rewrite drop_app_length' by (rewrite Hfl; reflexivity). reflexivity.
Qed.

Lemma prefix_segment (c pre : bytes) k x n :
  take k c = pre -> (x + n <= k)%nat -> segment x n c = segment x n pre.
Proof. intros <- Hk. symmetry. apply segment_take. exact Hk. Qed.

(** Reading back an entry that starts the archive. *)
Lemma read_entry_data `{C : codec} a zi hdr name data plain :
  getinfo (directory a) name = Some zi ->
  filename zi = name -> header_offset zi = 0 ->
  compress_size zi = Z.of_nat (length data) ->
  plain_header name hdr ->
  take (length hdr + length data) (contents a) = hdr ++ data ->
  match compress_type zi with
  | ZIP_STORED => Ok data
  | m => codec_decompress m data
  end = Ok plain ->
  file_size zi = Z.of_nat (length plain) ->
  CRC zi = crc32 plain 0 ->
  read_entry a name = Ok plain.
Proof.
  intros Hg Hn Hoff Hcs (Hlen & Hsig & Hk & Hx & Hname) Hc Hdec Hfs Hcrc.
  set (k := length (bytes_of_string name)) in *.
  set (c := contents a) in *.
  assert (A1 : take sizeFileHeader c = take sizeFileHeader hdr).
  { change (segment 0 sizeFileHeader c = segment 0 sizeFileHeader hdr).
    rewrite (prefix_segment c _ _ 0 sizeFileHeader Hc) by lia.
    apply segment_app_l. lia. }
  assert (A2 : take k (drop sizeFileHeader c) = bytes_of_string name).
  { change (segment sizeFileHeader k c = bytes_of_string name).
    rewrite (prefix_segment c _ _ sizeFileHeader k Hc) by lia.
    rewrite segment_app_l by lia. unfold segment. rewrite Hname.
    apply take_ge. reflexivity. }
  assert (A3 : take (length data) (drop (sizeFileHeader + k + 0) c) = data).
  { change (segment (sizeFileHeader + k + 0) (length data) c = data).
    rewrite (prefix_segment c _ _ (sizeFileHeader + k + 0) (length data) Hc) by lia.
    unfold segment. rewrite drop_app_length' by lia. apply take_ge. reflexivity. }
  assert (A4 : take 2 (drop 26 (take sizeFileHeader hdr)) = segment 26 2 hdr).
  { apply (segment_take 26 2 sizeFileHeader hdr). unfold sizeFileHeader. lia. }
  assert (A5 : take 2 (drop 28 (take sizeFileHeader hdr)) = segment 28 2 hdr).
  { apply (segment_take 28 2 sizeFileHeader hdr). unfold sizeFileHeader. lia. }
  assert (A6 : take 4 (take sizeFileHeader hdr) = stringFileHeader).
  { rewrite take_take. exact Hsig. }
  assert (A7 : length (take sizeFileHeader hdr) = sizeFileHeader).
  { rewrite length_take. lia. }
  unfold read_entry. rewrite Hg, Hoff. change (Z.to_nat 0) with 0%nat.
  rewrite drop_0. fold c. rewrite A1, A7, Nat.eqb_refl. cbn [negb].
  rewrite A6, bool_decide_eq_true_2 by reflexivity. cbn [negb].
  rewrite A4, A5, Hk, Hx, Nat2Z.id. change (Z.to_nat 0) with 0%nat.
  rewrite A2, Hn, bool_decide_eq_true_2 by reflexivity. cbn [negb].
  rewrite Hcs, Nat2Z.id, A3, Hdec. cbn [bind].
  rewrite Hfs, Nat2Z.id, firstn_all, Hcrc, Z.eqb_refl. reflexivity.
Qed.

(** Rewriting an entry in place: the header, the old data, the new data. *)
Lemma rewritten_entry_bytes (b0 hdr1 hdr2 data d tail : bytes) :
  length hdr1 = length hdr2 -> hdr1 <> [] ->
  segment (length hdr1) (length data) b0 = data ->
  let L := length hdr1 in
  let P := Z.of_nat (L + length data) in
  let s3 := write {| buf := buf (write {| buf := b0; pos := 0 |} hdr1);
                     pos := P |} d in
  let b5 := buf (write {| buf := buf s3; pos := 0 |} hdr2) in
  let D := (L + length (data ++ d))%nat in
  take D ((take D b5 ++ replicate (D - length b5) x00) ++ tail)
  = hdr2 ++ data ++ d.
Proof.
  intros Hlen Hne Hseg L P s3 b5 D.
  set (b1 := buf (write {| buf := b0; pos := 0 |} hdr1)) in *.
  set (n := length data) in *.
  assert (HD : D = (L + n + length d)%nat) by (unfold D; rewrite length_app; lia).
  assert (Hl1 : (L <= length b1)%nat).
  { destruct (length_buf_write {| buf := b0; pos := 0 |} hdr1) as [Hl | Hl];
      [exact Hl | contradiction]. }
  assert (Hl1' : (length b0 <= length b1)%nat)
    by apply (length_buf_write_ge {| buf := b0; pos := 0 |} hdr1).
  assert (Hn : (L + n <= length b1)%nat).
  { destruct (decide (n = 0)%nat) as [-> | Hn0]; [lia|].
    apply (f_equal length) in Hseg. unfold segment in Hseg.
    rewrite length_take, length_drop in Hseg. fold n L in Hseg. lia. }
  assert (Hl3 : (length b1 <= length (buf s3))%nat)
    by apply (length_buf_write_ge {| buf := b1; pos := P |} d).
  assert (Hl3' : (D <= length (buf s3))%nat).
  { destruct (length_buf_write {| buf := b1; pos := P |} d) as [Hl | Hl].
    - cbn [pos] in Hl. fold s3 in Hl. unfold P in Hl. lia.
    - subst d. simpl in HD. lia. }
  assert (Hl5 : (length (buf s3) <= length b5)%nat)
    by apply (length_buf_write_ge {| buf := buf s3; pos := 0 |} hdr2).
  replace (D - length b5)%nat with 0%nat by lia.
  cbn [replicate]. rewrite app_nil_r.
  rewrite take_app_le by (rewrite length_take; lia).
  rewrite take_take. replace (D `min` D)%nat with D by lia.
  rewrite HD. rewrite <- !take_take_drop.
  change (take n (drop L b5)) with (segment L n b5).
  change (take (length d) (drop (L + n) b5)) with (segment (L + n) (length d) b5).
  assert (E1 : take L b5 = hdr2).
  { unfold L. rewrite Hlen.
    apply (segment_written {| buf := buf s3; pos := 0 |} hdr2). }
  assert (E2 : segment L n b5 = data).
  { unfold b5. rewrite segment_after_write by (cbn [pos]; lia). cbn [buf].
    unfold s3. rewrite segment_before_write by (cbn [pos buf]; unfold P; lia).
    cbn [buf]. unfold b1. rewrite segment_after_write by (cbn [pos]; lia).
    exact Hseg. }
  assert (E3 : segment (L + n) (length d) b5 = d).
  { unfold b5. rewrite segment_after_write by (cbn [pos]; lia). cbn [buf].
    replace (L + n)%nat with (Z.to_nat (pos {| buf := b1; pos := P |}))
      by (cbn [pos]; unfold P; lia).
    apply segment_written. }
  rewrite E1, E2, E3, <- app_assoc. reflexivity.
Qed.

(** ** What the directory records of a small entry *)

Lemma central_record_small zi zi' b :
  central_record zi = Ok (zi', b) ->
  file_size zi <= ZIP64_LIMIT -> compress_size zi <= ZIP64_LIMIT ->
  header_offset zi <= ZIP64_LIMIT ->
  extra zi' = extra zi
  /\ flag_bits zi' = snd (_encodeFilenameFlags zi)
  /\ same_entry zi zi'.
Proof.
  intros H Hf Hc Ho.
  pose proof (central_record_same _ _ _ H) as Hsame.
  unfold central_record in H.
  replace (file_size zi >? ZIP64_LIMIT) with false in H by (symmetry; lia).
  replace (compress_size zi >? ZIP64_LIMIT) with false in H by (symmetry; lia).
  replace (header_offset zi >? ZIP64_LIMIT) with false in H by (symmetry; lia).
  cbn [orb app bind] in H.
  destruct (_encodeFilenameFlags zi) as [fname flags].
  inv_bind H. injection H as <- _. cbn. auto.
Qed.

Lemma flags_keep_descriptor_bit zi :
  Z.land (flag_bits zi) _MASK_USE_DATA_DESCRIPTOR = 0 ->
  Z.land (snd (_encodeFilenameFlags zi)) _MASK_USE_DATA_DESCRIPTOR = 0.
Proof.
  intros H. unfold _encodeFilenameFlags.
  destruct (is_ascii (filename zi)); cbn [snd]; [exact H|].
  rewrite Z.land_lor_distr_l, H. reflexivity.
Qed.

Lemma FileHeader_small zi zi' hdr :
  FileHeader zi false = Ok (zi', hdr) ->
  Z.land (flag_bits zi) _MASK_USE_DATA_DESCRIPTOR = 0 ->
  file_size zi <= ZIP64_LIMIT /\ compress_size zi <= ZIP64_LIMIT.
Proof.
  intros H Hflag.
  apply FileHeader_Ok in H as
    (crc & cs & fsz & z64 & fixed & mv & Ht & _ & Hbig & _).
  rewrite Hflag in Ht. cbn in Ht. injection Ht as -> -> ->.
  destruct ((file_size zi >? ZIP64_LIMIT) || (compress_size zi >? ZIP64_LIMIT)) eqn:E.
  - specialize (Hbig eq_refl). discriminate.
  - apply orb_false_iff in E as [E1 E2]. lia.
Qed.

Lemma central_records_last l x loaded b :
  central_records (l ++ [x]) = Ok (loaded, b) ->
  exists l' x' bx, loaded = l' ++ [x'] /\ central_record x = Ok (x', bx).
Proof.
  revert loaded b. induction l as [|y l IH]; intros loaded b H.
  - cbn [app central_records] in H. inv_bind H. destruct a as [x' bx].
    cbn [central_records bind] in H. injection H as <- _.
    exists [], x', bx. auto.
  - cbn [app central_records] in H. inv_bind H. destruct a as [y' by'].
    inv_bind H. destruct a as [rest' bs]. injection H as <- _.
    destruct (IH _ _ E0) as (l' & x' & bx & -> & Hx).
    exists (y' :: l'), x', bx. auto.
Qed.

Lemma _write_end_record_last sd l x loaded tail :
  _write_end_record sd (l ++ [x]) = Ok (loaded, tail) ->
  exists l' x' bx, loaded = l' ++ [x'] /\ central_record x = Ok (x', bx).
Proof.
  unfold _write_end_record. intros H.
  inv_bind H. destruct a as [ld cd]. inv_bind H. inv_bind H.
  injection H as <- _. eauto using central_records_last.
Qed.

Lemma getinfo_last l (x : ZipInfo) : getinfo (l ++ [x]) (filename x) = Some x.
Proof.
  unfold getinfo. rewrite filter_app, filter_cons.
  destruct (decide (filename x = filename x)); [|contradiction].
  rewrite filter_nil. apply last_snoc.
Qed.

Lemma fed_size_ge chunk fsz : fsz <= fed_size chunk fsz.
Proof. unfold fed_size. destruct chunk; lia. Qed.

Lemma force_zip64_small self :
  0 <= file_size (zipinfo self) < 2045222521 -> force_zip64 self = false.
Proof.
  intros H. rewrite force_zip64_threshold by (change (2 ^ 53) with 9007199254740992; lia).
  apply Z.leb_gt. lia.
Qed.

(** One [_write] for an entry at offset 0 puts the header, the data
    written before and the new data at the start of the archive. *)
Lemma _write_data_core self out name m crc fsz data chunk d w self' w' :
  writer_data self out name m crc fsz data ->
  segment (sizeFileHeader + length (bytes_of_string name)) (length data)
          (buf (open_stream (fs w !! out))) = data ->
  0 <= fsz -> fed_size chunk fsz < 2045222521 ->
  _write self chunk d w = Ok (self', w') ->
  writer_data self' out name m (fed_crc chunk crc) (fed_size chunk fsz) (data ++ d)
  /\ entry_data out name m (fed_crc chunk crc) (fed_size chunk fsz) (data ++ d) w'
  /\ zip_compressor_storage w' = zip_compressor_storage w.
Proof.
  intros (Ho & Hf & Hm & Hn & Hct & Hcrc & Hfs & Hcs & Hoff & Hex & Hflag)
         Hst Hfsz Hlim Hw.
  pose proof (fed_size_ge chunk fsz) as Hge.
  destruct (_write_frame _ _ _ _ _ _ Hw) as (_ & Hreg & Ho' & Hf' & Hm').
  apply _write_steps in Hw as
    (zi1 & hdr1 & hdr2 & b0 & tail & a & Hb0 & _ & _ & K2 & K5 & Hd & Hfl & Hex'
     & Hend & Hdir & Hcont & Ha).
  cbn zeta in *.
  destruct Hd as (D1 & D2 & D3 & D4 & D5 & D6).
  pose proof (counted_fields (zipinfo self) chunk d)
    as (C1 & C2 & C3 & _ & _ & _ & C7 & C8 & C9).
  assert (Hn' : filename (zipinfo self') = name) by congruence.
  assert (Hfs' : file_size (zipinfo self') = fed_size chunk fsz).
  { rewrite <- D5, C8, Hfs. unfold fed_size. destruct chunk; lia. }
  assert (Hcrc' : CRC (zipinfo self') = fed_crc chunk crc).
  { rewrite <- D3, C9, Hcrc. reflexivity. }
  assert (Hcs' : compress_size (zipinfo self') = Z.of_nat (length (data ++ d))).
  { rewrite <- D4, C7, Hcs, length_app. lia. }
  assert (Hoff' : header_offset (zipinfo self') = 0) by congruence.
  assert (Hct' : compress_type (zipinfo self') = m) by congruence.
  assert (Hex2 : extra (zipinfo self') = []) by congruence.
  assert (Hflag' : Z.land (flag_bits (zipinfo self')) _MASK_USE_DATA_DESCRIPTOR = 0)
    by congruence.
  rewrite (force_zip64_small self) in K2 by lia.
  rewrite (force_zip64_small self') in K5 by lia.
  pose proof (FileHeader_length _ _ _ _ K2) as L1.
  pose proof (FileHeader_length _ _ _ _ K5) as L2.
  unfold header_length in L1, L2.
  cbn [set_date_time filename extra] in L1.
  rewrite Hn, Hex in L1. rewrite Hn', Hex2 in L2.
  change (length (@nil byte)) with 0%nat in L1, L2.
  pose proof (FileHeader_plain _ _ _ K5 Hex2) as Hplain. rewrite Hn' in Hplain.
  destruct (FileHeader_small _ _ _ K5 Hflag') as [Sf Sc].
  apply _write_end_record_last in Hend as (l' & x' & bx & Hl' & Hx').
  destruct (central_record_small _ _ _ Hx' Sf Sc) as (X1 & X2 & X3);
    [rewrite Hoff'; discriminate|].
  destruct X3 as (Y1 & Y2 & Y3 & Y4 & Y5 & Y6).
  (* the bytes *)
  assert (Hseg0 : segment (length hdr1) (length data) b0 = data).
  { rewrite Hb0, Ho. replace (length hdr1)
      with (sizeFileHeader + length (bytes_of_string name))%nat by lia.
    exact Hst. }
  assert (Hne : hdr1 <> []).
  { intros ->. simpl in L1. unfold sizeFileHeader in L1. lia. }
  pose proof (rewritten_entry_bytes b0 hdr1 hdr2 data d tail
                ltac:(lia) Hne Hseg0) as Hbytes.
  cbn zeta in Hbytes.
  split; [|split; [|exact Hreg]].
  - unfold writer_data. repeat split; congruence.
  - exists a, x', hdr2.
    split; [rewrite <- Ho; exact Ha|].
    split; [rewrite Hl', <- Hn', Y1; apply getinfo_last|].
    split; [congruence|]. split; [congruence|]. split; [congruence|].
    split; [congruence|]. split; [congruence|]. split; [congruence|].
    split; [congruence|].
    split; [rewrite X2; apply flags_keep_descriptor_bit; exact Hflag'|].
    split; [exact Hplain|].
    assert (HD : dir_offset a = Z.of_nat (length hdr2 + length (data ++ d))).
    { rewrite Hdir, Hoff, Hcs, length_app. lia. }
    split; [exact HD|].
    rewrite Hcont, HD, Nat2Z.id, Hoff, Hcs.
    replace (0 + Z.of_nat (length hdr1) + Z.of_nat (length data))
      with (Z.of_nat (length hdr1 + length data)) by lia.
    replace (length hdr2) with (length hdr1) by lia.
    exact Hbytes.
Qed.

(** One [_write] on an entry that starts the archive appends the data. *)
Lemma _write_data self out name m crc fsz data chunk d w self' w' :
  writer_data self out name m crc fsz data ->
  entry_bytes out name m crc fsz data w ->
  0 <= fsz -> fed_size chunk fsz < 2045222521 ->
  _write self chunk d w = Ok (self', w') ->
  writer_data self' out name m (fed_crc chunk crc) (fed_size chunk fsz) (data ++ d)
  /\ entry_data out name m (fed_crc chunk crc) (fed_size chunk fsz) (data ++ d) w'
  /\ zip_compressor_storage w' = zip_compressor_storage w.
Proof.
  intros Hat Hst. apply _write_data_core; [exact Hat|].
  destruct Hst as [(Hnone & _ & _ & ->) | (a0 & zi0 & hdr0 & A1 & _ & _ & _ & _
                                           & _ & _ & _ & _ & _ & P0 & _ & T0)].
  - reflexivity.
  - rewrite A1. cbn [open_stream buf].
    destruct P0 as (PL & _).
    rewrite (prefix_segment _ _ _ _ (length data) T0) by lia.
    unfold segment. rewrite drop_app_length' by lia. apply take_ge. reflexivity.
Qed.

(** ** The entry through the chunk loop *)

Lemma entry_bytes_fs out name m crc fsz data w w1 :
  fs w1 = fs w -> entry_bytes out name m crc fsz data w ->
  entry_bytes out name m crc fsz data w1.
Proof. unfold entry_bytes, entry_data. intros ->. auto. Qed.

Lemma entry_bytes_exists out name m crc fsz data w :
  entry_bytes out name m crc fsz data w -> fs w !! out <> None ->
  entry_data out name m crc fsz data w.
Proof. intros [(Hn & _) | H] Hne; [contradiction | exact H]. Qed.

Lemma entry_data_exists out name m crc fsz data w :
  entry_data out name m crc fsz data w -> fs w !! out <> None.
Proof. intros (a & zi & hdr & -> & _). discriminate. Qed.

Lemma writer_data_at self out name m crc fsz data :
  writer_data self out name m crc fsz data ->
  writer_at self out name m crc fsz (Z.of_nat (length data)).
Proof.
  intros (Ho & Hf & Hm & Hn & Hct & Hcrc & Hfs & Hcs & _).
  unfold writer_at. auto 10.
Qed.

Lemma _extract_zipinfo_data out name m crc fsz data w zi w1 :
  terminate_at_nul name = name ->
  entry_bytes out name m crc fsz data w ->
  _extract_zipinfo out name m w = Ok (zi, w1) ->
  (filename zi = name /\ compress_type zi = m /\ CRC zi = crc
   /\ file_size zi = fsz /\ compress_size zi = Z.of_nat (length data)
   /\ header_offset zi = 0 /\ extra zi = []
   /\ Z.land (flag_bits zi) _MASK_USE_DATA_DESCRIPTOR = 0)
  /\ fs w1 = fs w /\ zip_compressor_storage w1 = zip_compressor_storage w.
Proof.
  intros Hnul Hst H.
  destruct (_extract_zipinfo_frame _ _ _ _ _ _ H) as (Hfs & Hreg & _).
  split; [|auto].
  unfold _extract_zipinfo in H.
  destruct Hst as [(Hnone & -> & -> & ->)
                  | (a & zi0 & hdr & Ha & Hg & Hn & Hct & Hc & Hf & Hs & Ho & Hex
                     & Hfl & _)].
  - rewrite Hnone in H. unfold datetime_now in H. inv_bind H.
    unfold new_ZipInfo in E. destruct (_ <? 1980); [discriminate|].
    injection E as <-. injection H as <- _. cbn. auto 10.
  - rewrite Ha, Hg in H. injection H as <- _. auto 10.
Qed.

Lemma stored_init_data out name crc fsz data w self w1 :
  terminate_at_nul name = name ->
  entry_bytes out name ZIP_STORED crc fsz data w ->
  ChunkedStoredZipWriter.__init__ out name w = Ok (self, w1) ->
  writer_data self out name ZIP_STORED crc fsz data
  /\ fs w1 = fs w /\ zip_compressor_storage w1 = zip_compressor_storage w.
Proof.
  intros Hnul Hst H. unfold ChunkedStoredZipWriter.__init__ in H.
  inv_bind H. destruct a as [zi w2]. injection H as <- <-.
  destruct (_extract_zipinfo_data _ _ _ _ _ _ _ _ _ Hnul Hst E)
    as ((? & ? & ? & ? & ? & ? & ? & ?) & ? & ?).
  unfold writer_data. cbn. auto 15.
Qed.

Lemma compressed_init_data out name m crc fsz data w self w1 :
  terminate_at_nul name = name ->
  entry_bytes out name m crc fsz data w ->
  ChunkedCompressedZipWriter.__init__ out name m w = Ok (self, w1) ->
  writer_data self out name m crc fsz data
  /\ fs w1 = fs w /\ zip_compressor_storage w1 = zip_compressor_storage w.
Proof.
  intros Hnul Hst H. unfold ChunkedCompressedZipWriter.__init__ in H.
  inv_bind H. destruct a as [zi w2]. injection H as <- <-.
  destruct (_extract_zipinfo_data _ _ _ _ _ _ _ _ _ Hnul Hst E)
    as ((? & ? & ? & ? & ? & ? & ? & ?) & ? & ?).
  unfold writer_data. cbn. auto 15.
Qed.

Lemma stored_loop_data chunks out name crc fsz data w w' :
  terminate_at_nul name = name ->
  entry_bytes out name ZIP_STORED crc fsz data w ->
  0 <= fsz -> fsz + Z.of_nat (length (concat chunks)) < 2045222521 ->
  stored_loop chunks out name w = Ok w' ->
  entry_bytes out name ZIP_STORED
    (fold_left (fun crc chunk => crc32 chunk crc) chunks crc)
    (fsz + Z.of_nat (length (concat chunks)))
    (data ++ concat chunks) w'
  /\ (chunks <> [] -> fs w' !! out <> None).
Proof.
  intros Hnul. revert crc fsz data w.
  induction chunks as [|chunk rest IH]; intros crc fsz data w Hst Hfsz Hlim Hl.
  - injection Hl as <-. simpl. rewrite Z.add_0_r, app_nil_r. split; [exact Hst | congruence].
  - cbn [stored_loop] in Hl.
    inv_bind Hl. destruct a as [zw w1]. inv_bind Hl. destruct a as [zw' w2].
    inv_bind Hl. destruct a as [zw'' w3]. injection E1 as _ <-.
    cbn [concat] in Hlim. rewrite length_app in Hlim.
    destruct (stored_init_data _ _ _ _ _ _ _ _ Hnul Hst E) as (Hat & Hfs & _).
    apply (entry_bytes_fs _ _ _ _ _ _ _ _ Hfs) in Hst.
    unfold ChunkedStoredZipWriter.write_chunk in E0.
    destruct (_write_data _ _ _ _ _ _ _ (Some chunk) chunk _ _ _ Hat Hst Hfsz
                ltac:(cbn [fed_size]; lia) E0) as (_ & Hed & _).
    cbn [fed_crc fed_size] in Hed.
    destruct (IH _ _ _ _ (or_intror Hed) ltac:(lia) ltac:(lia) Hl) as (Hst2 & Hne).
    cbn [fold_left concat]. rewrite length_app.
    replace (fsz + Z.of_nat (length chunk + length (concat rest)))
      with (fsz + Z.of_nat (length chunk) + Z.of_nat (length (concat rest))) by lia.
    rewrite app_assoc. split; [exact Hst2|].
    intros _. destruct rest as [|c2 rest].
    + injection Hl as <-. eapply entry_data_exists; eauto.
    + apply Hne. discriminate.
Qed.

Lemma drain_data `{C : codec} self out name m crc fsz data o w self' w' :
  writer_data self out name m crc fsz data -> m <> ZIP_STORED ->
  entry_bytes out name m crc fsz data w ->
  0 <= fsz < 2045222521 ->
  drain self o w = Ok (self', w') ->
  exists bd,
    ran m (key_of out name) w [o] [bd] w'
    /\ writer_data self' out name m crc fsz (data ++ bd)
    /\ entry_bytes out name m crc fsz (data ++ bd) w'
    /\ (fs w !! out <> None -> fs w' !! out <> None)
    /\ (bd = [] -> fs w' = fs w).
Proof.
  intros Hat Hm Hst Hfsz H. unfold drain in H.
  inv_bind H. destruct a as [a w1]. inv_bind H. destruct a0 as [bd w2].
  destruct (call_ran _ _ _ _ _ _ _ _ _ _ _ _ _ (writer_data_at _ _ _ _ _ _ _ Hat) Hm E E0)
    as [Hran Hfs].
  exists bd. destruct bd as [|b bd].
  - injection H as <- <-. rewrite app_nil_r.
    split; [exact Hran|]. split; [exact Hat|]. split; [|split].
    + eapply entry_bytes_fs; eauto.
    + rewrite Hfs. auto.
    + intros _. exact Hfs.
  - cbn [length Nat.eqb] in H.
    apply (entry_bytes_fs _ _ _ _ _ _ _ _ Hfs) in Hst.
    destruct (_write_data _ _ _ _ _ _ _ None (b :: bd) _ _ _ Hat Hst
                ltac:(lia) ltac:(cbn [fed_size]; lia) H) as (Hat' & Hed & Hreg).
    cbn [fed_crc fed_size] in *.
    split; [eapply ran_storage; eauto|]. split; [exact Hat'|].
    split; [right; exact Hed|]. split; [|discriminate].
    intros _. eapply entry_data_exists; eauto.
Qed.

Lemma compressed_write_chunk_data `{C : codec}
    self out name m crc fsz data chunk w self' w' :
  writer_data self out name m crc fsz data -> m <> ZIP_STORED ->
  entry_bytes out name m crc fsz data w ->
  0 <= fsz -> fsz + Z.of_nat (length chunk) < 2045222521 ->
  ChunkedCompressedZipWriter.write_chunk self chunk w = Ok (self', w') ->
  exists bd,
    ran m (key_of out name) w [Compress chunk] [bd] w'
    /\ writer_data self' out name m (crc32 chunk crc)
         (fsz + Z.of_nat (length chunk)) (data ++ bd)
    /\ entry_data out name m (crc32 chunk crc)
         (fsz + Z.of_nat (length chunk)) (data ++ bd) w'.
Proof.
  intros Hat Hm Hst Hfsz Hlim Hw. unfold ChunkedCompressedZipWriter.write_chunk in Hw.
  inv_bind Hw. destruct a as [a w1]. inv_bind Hw. destruct a0 as [bd w2].
  destruct (call_ran _ _ _ _ _ _ _ _ _ _ _ _ _ (writer_data_at _ _ _ _ _ _ _ Hat) Hm E E0)
    as [Hran Hfs].
  apply (entry_bytes_fs _ _ _ _ _ _ _ _ Hfs) in Hst.
  destruct (_write_data _ _ _ _ _ _ _ (Some chunk) bd _ _ _ Hat Hst Hfsz
              ltac:(cbn [fed_size]; lia) Hw) as (Hat' & Hed & Hreg).
  exists bd. split; [eapply ran_storage; eauto|]. split; assumption.
Qed.

Lemma concat_one (bd : bytes) : concat [bd] = bd.
Proof. simpl. apply app_nil_r. Qed.

Lemma compressed_exit_data `{C : codec}
    self out name m crc fsz data w self' w' :
  writer_data self out name m crc fsz data -> m <> ZIP_STORED ->
  entry_bytes out name m crc fsz data w ->
  0 <= fsz < 2045222521 ->
  ChunkedCompressedZipWriter.__exit__ self w = Ok (self', w') ->
  exists outs,
    ran m (key_of out name) w (exit_calls m) outs w'
    /\ entry_bytes out name m crc fsz (data ++ concat outs) w'
    /\ (fs w !! out <> None -> fs w' !! out <> None)
    /\ (concat outs = [] -> fs w' = fs w).
Proof.
  intros Hat Hm Hst Hfsz Hx.
  unfold ChunkedCompressedZipWriter.__exit__ in Hx. rewrite close_is_drain in Hx.
  assert (Hcm : compression self = m) by apply Hat. rewrite Hcm in Hx.
  destruct m; try contradiction;
    try (injection Hx as <- <-; exists [];
         split; [apply ran_nil; reflexivity|];
         simpl; rewrite app_nil_r; auto).
  destruct (drain_data _ _ _ _ _ _ _ _ _ _ _ Hat Hm Hst Hfsz Hx)
    as (bd & Hran & _ & Hst' & Hfs & Hsame).
  exists [bd]. rewrite concat_one. auto.
Qed.

Lemma compressed_flush_data `{C : codec}
    self out name m crc fsz data w self' w' :
  writer_data self out name m crc fsz data -> m <> ZIP_STORED ->
  entry_bytes out name m crc fsz data w ->
  0 <= fsz < 2045222521 ->
  ChunkedCompressedZipWriter.flush self w = Ok (self', w') ->
  exists outs,
    ran m (key_of out name) w (flush_calls m) outs w'
    /\ writer_data self' out name m crc fsz (data ++ concat outs)
    /\ entry_bytes out name m crc fsz (data ++ concat outs) w'
    /\ (fs w !! out <> None -> fs w' !! out <> None)
    /\ (concat outs = [] -> fs w' = fs w).
Proof.
  intros Hat Hm Hst Hfsz Hx. rewrite flush_is_drain in Hx.
  assert (Hcm : compression self = m) by apply Hat. rewrite Hcm in Hx.
  destruct m; try contradiction;
    try (injection Hx as <- <-; exists [];
         split; [apply ran_nil; reflexivity|];
         simpl; rewrite app_nil_r; auto);
    destruct (drain_data _ _ _ _ _ _ _ _ _ _ _ Hat Hm Hst Hfsz Hx)
      as (bd & Hran & Hat' & Hst' & Hfs & Hsame);
    exists [bd]; rewrite concat_one; auto 6.
Qed.

Lemma compressed_loop_data `{C : codec} chunks out name m crc fsz data w w' :
  terminate_at_nul name = name -> m <> ZIP_STORED ->
  entry_bytes out name m crc fsz data w ->
  0 <= fsz -> fsz + Z.of_nat (length (concat chunks)) < 2045222521 ->
  compressed_loop chunks out name m w = Ok w' ->
  exists outs,
    ran m (key_of out name) w (loop_calls m chunks) outs w'
    /\ entry_bytes out name m
         (fold_left (fun crc chunk => crc32 chunk crc) chunks crc)
         (fsz + Z.of_nat (length (concat chunks)))
         (data ++ concat outs) w'
    /\ (chunks <> [] -> fs w' !! out <> None).
Proof.
  intros Hnul Hm. revert crc fsz data w.
  induction chunks as [|chunk rest IH]; intros crc fsz data w Hst Hfsz Hlim Hl.
  - injection Hl as <-. exists []. split; [apply ran_nil; reflexivity|].
    simpl. rewrite Z.add_0_r, app_nil_r. split; [exact Hst | congruence].
  - cbn [compressed_loop] in Hl.
    inv_bind Hl. destruct a as [zw w1]. inv_bind Hl. destruct a as [zw' w2].
    inv_bind Hl. destruct a as [zw'' w3].
    cbn [concat] in Hlim. rewrite length_app in Hlim.
    destruct (compressed_init_data _ _ _ _ _ _ _ _ _ Hnul Hst E) as (Hat & Hfs & Hreg).
    apply (entry_bytes_fs _ _ _ _ _ _ _ _ Hfs) in Hst.
    assert (H1 : fsz + Z.of_nat (length chunk) < 2045222521) by lia.
    assert (H2 : 0 <= fsz + Z.of_nat (length chunk) < 2045222521) by lia.
    assert (H3 : fsz + Z.of_nat (length chunk) + Z.of_nat (length (concat rest))
                 < 2045222521) by lia.
    destruct (compressed_write_chunk_data _ _ _ _ _ _ _ _ _ _ _ Hat Hm Hst Hfsz
                H1 E0) as (bd & Hran & Hat' & Hed).
    destruct (compressed_exit_data _ _ _ _ _ _ _ _ _ _ Hat' Hm (or_intror Hed)
                H2 E1) as (outs & Hran' & Hst' & Hkeep & _).
    pose proof (Hkeep (entry_data_exists _ _ _ _ _ _ _ Hed)) as Hex3.
    destruct (IH _ _ _ _ Hst' (proj1 H2) H3 Hl) as (outs2 & Hran2 & Hst2 & Hne).
    exists ((bd :: outs) ++ outs2). split; [|split].
    + change (loop_calls m (chunk :: rest))
        with (chunk_calls m chunk ++ loop_calls m rest).
      eapply ran_trans; [|exact Hran2].
      change (chunk_calls m chunk) with ([Compress chunk] ++ exit_calls m).
      change (bd :: outs) with ([bd] ++ outs).
      eapply ran_trans; [|exact Hran'].
      destruct Hran as [R L]. rewrite (live_storage _ _ _ _ Hreg) in R, L.
      split; assumption.
    + cbn [fold_left concat]. rewrite length_app.
      replace (fsz + Z.of_nat (length chunk + length (concat rest)))
        with (fsz + Z.of_nat (length chunk) + Z.of_nat (length (concat rest))) by lia.
      rewrite concat_app. cbn [concat]. rewrite !app_assoc in *. exact Hst2.
    + intros _. destruct rest as [|c2 rest].
      * injection Hl as <-. exact Hex3.
      * apply Hne. discriminate.
Qed.

Lemma zip_chunks_data `{C : codec} chunks input out m w w' :
  terminate_at_nul (basename input) = basename input ->
  fs w !! out = None -> chunks <> [] ->
  Z.of_nat (length (concat chunks)) < 2045222521 ->
  zip_chunks chunks input out m w = Ok w' ->
  exists data,
    entry_data out (basename input) m (crc32 (concat chunks) 0)
      (Z.of_nat (length (concat chunks))) data w'
    /\ (m = ZIP_STORED -> data = concat chunks)
    /\ (m <> ZIP_STORED ->
        exists outs,
          ran m (key_of out (basename input)) w
              (loop_calls m chunks ++ final_calls m) outs w'
          /\ data = concat outs).
Proof.
  intros Hnul Hnone Hne Hlim Hz. unfold zip_chunks in Hz.
  assert (H0 : entry_bytes out (basename input) m (crc32 [] 0) 0 [] w)
    by (left; auto).
  assert (Hz0 : 0 <= 0) by lia.
  assert (Hlim0 : 0 + Z.of_nat (length (concat chunks)) < 2045222521) by lia.
  assert (Hlim1 : 0 <= Z.of_nat (length (concat chunks)) < 2045222521) by lia.
  destruct (decide (m = ZIP_STORED)) as [-> | Hm].
  - inv_bind Hz. rename a into w1. inv_bind Hz. destruct a as [zw w2].
    inv_bind Hz. destruct a as [zw' w3]. inv_bind Hz. destruct a as [zw'' w4].
    injection Hz as <-. injection E1 as <- <-. injection E2 as _ <-.
    destruct (stored_loop_data _ _ _ _ _ _ _ _ Hnul H0 Hz0 Hlim0 E)
      as (Hst & Hex).
    destruct (stored_init_data _ _ _ _ _ _ _ _ Hnul Hst E0) as (_ & Hfs & _).
    apply (entry_bytes_fs _ _ _ _ _ _ _ _ Hfs) in Hst.
    rewrite crc32_chunks_seeded, Z.add_0_l in Hst. cbn [app] in Hst.
    exists (concat chunks). split; [|split; [reflexivity | contradiction]].
    apply entry_bytes_exists; [exact Hst|]. rewrite Hfs. exact (Hex Hne).
  - inv_bind Hz. rename a into w1. inv_bind Hz. destruct a as [zw w2].
    inv_bind Hz. destruct a as [zw' w3]. inv_bind Hz. destruct a as [zw'' w4].
    injection Hz as <-.
    destruct (compressed_loop_data _ _ _ _ _ _ _ _ _ Hnul Hm H0 Hz0 Hlim0 E)
      as (outs1 & Hran1 & Hst1 & Hex).
    rewrite crc32_chunks_seeded, Z.add_0_l in Hst1. cbn [app] in Hst1.
    destruct (compressed_init_data _ _ _ _ _ _ _ _ _ Hnul Hst1 E0) as (Hat & Hfs & Hreg).
    apply (entry_bytes_fs _ _ _ _ _ _ _ _ Hfs) in Hst1.
    destruct (compressed_flush_data _ _ _ _ _ _ _ _ _ _ Hat Hm Hst1 Hlim1 E1)
      as (outs2 & Hran2 & Hat2 & Hst2 & Hk2 & _).
    destruct (compressed_exit_data _ _ _ _ _ _ _ _ _ _ Hat2 Hm Hst2 Hlim1 E2)
      as (outs3 & Hran3 & Hst3 & Hk3 & _).
    exists (concat (outs1 ++ outs2 ++ outs3)).
    split; [|split; [contradiction|]].
    + rewrite !concat_app, !app_assoc. rewrite <- app_assoc in Hst3.
      rewrite !app_assoc in Hst3.
      apply entry_bytes_exists; [exact Hst3|].
      apply Hk3, Hk2. rewrite Hfs. exact (Hex Hne).
    + intros _. exists (outs1 ++ outs2 ++ outs3). split; [|reflexivity].
      eapply ran_trans; [eapply ran_storage; [exact Hran1 | exact Hreg]|].
      eapply ran_trans; eassumption.
Qed.

Lemma entry_data_reads `{C : codec} out name m data plain w :
  entry_data out name m (crc32 plain 0) (Z.of_nat (length plain)) data w ->
  match m with
  | ZIP_STORED => Ok data
  | _ => codec_decompress m data
  end = Ok plain ->
  exists a, fs w !! out = Some a /\ read_entry a name = Ok plain.
Proof.
  intros (a & zi & hdr & Ha & Hg & Hn & Hct & Hc & Hf & Hs & Ho & _ & _ & Hp & _ & Ht)
         Hdec.
  exists a. split; [exact Ha|].
  apply (read_entry_data a zi hdr name data plain); auto.
  rewrite Hct. destruct m; exact Hdec.
Qed.

Lemma ran_fresh `{C : codec} m key w ops outs w' :
  zip_compressor_storage w !! key = None ->
  ran m key w ops outs w' -> codec_run m [] ops = Ok outs.
Proof. intros Hk [R _]. unfold live in R. rewrite Hk in R. exact R. Qed.

(** X13.  The round trip, for any way of cutting the source into chunks,
    empty chunks included, as long as there is at least one chunk, the
    source is shorter than 2045222521 bytes (the size from which headers
    take the ZIP64 record) and the output path holds no archive: when
    [zip_file_in_chunks], fed these chunks, succeeds, the archive lists
    the entry under the base name of the input, and reading the entry back
    (local header, data, decompression, CRC check) gives the source.  For
    a method other than STORED this supposes a compressor that is new to
    the registry and a backend whose decompressor inverts the stream that
    its compressor put out in this run. *)
Theorem zip_chunks_round_trip `{C : codec}
    (chunks : list bytes) (input out : string) (m : compress_method)
    (w w' : world) :
  chunks <> [] ->
  Z.of_nat (length (concat chunks)) < 2045222521 ->
  terminate_at_nul (basename input) = basename input ->
  fs w !! out = None ->
  (m <> ZIP_STORED ->
   zip_compressor_storage w !! (out ++ "/" ++ basename input)%string = None
   /\ forall outs,
        codec_run m [] (loop_calls m chunks ++ final_calls m) = Ok outs ->
        codec_decompress m (concat outs) = Ok (concat chunks)) ->
  zip_chunks chunks input out m w = Ok w' ->
  exists a,
    fs w' !! out = Some a
    /\ read_entry a (basename input) = Ok (concat chunks).
Proof.
  intros Hne Hlim Hnul Hnone Hcodec Hz.
  destruct (zip_chunks_data _ _ _ _ _ _ Hnul Hnone Hne Hlim Hz)
    as (data & Hed & Hs & Hc).
  apply (entry_data_reads _ _ _ _ _ _ Hed).
  destruct (decide (m = ZIP_STORED)) as [-> | Hm].
  - rewrite (Hs eq_refl). reflexivity.
  - destruct (Hc Hm) as (outs & Hran & ->).
    destruct (Hcodec Hm) as (Hfresh & Hinv).
    rewrite <- (Hinv outs (ran_fresh _ _ _ _ _ _ Hfresh Hran)).
    destruct m; [contradiction | reflexivity..].
Qed.

Lemma zip_chunks_round_trip_witness :
  example_chunks <> []
  /\ Z.of_nat (length (concat example_chunks)) < 2045222521
  /\ exists w' a,
      @zip_chunks hold_codec example_chunks "dir/in.txt" "out.zip" ZIP_BZIP2
        empty_world = Ok w'
      /\ fs w' !! "out.zip" = Some a
      /\ @read_entry hold_codec a "in.txt" = Ok (bytes_of_string "hello world").
Proof.
  split; [discriminate|]. split; [vm_compute; reflexivity|].
  destruct (@zip_chunks hold_codec example_chunks "dir/in.txt" "out.zip" ZIP_BZIP2
              empty_world) as [w'|e] eqn:E; [|vm_compute in E; discriminate].
  destruct (@zip_chunks_round_trip hold_codec example_chunks "dir/in.txt" "out.zip"
              ZIP_BZIP2 empty_world w')
    as (a & Ha & Hr).
  - discriminate.
  - vm_compute. reflexivity.
  - reflexivity.
  - reflexivity.
  - intros _. split; [reflexivity|].
    intros outs Ho. vm_compute in Ho. injection Ho as <-. reflexivity.
  - exact E.
  - exists w', a. split; [reflexivity|]. split; [exact Ha | exact Hr].
Defined.

(** X14.  The round trip of [zip_file_in_chunks] itself: for a source
    that is not empty and shorter than 2045222521 bytes, and an output
    path that holds no archive, a successful run leaves an archive whose
    entry, named by the base name of the input and read back through its
    local header with decompression and CRC check, is the source.  For a
    method other than STORED this supposes a compressor that is new to the
    registry and a backend whose decompressor inverts the stream that its
    compressor put out in this run. *)
Theorem zip_file_in_chunks_round_trip `{C : codec}
    (source : bytes) (input_file output_zip : string)
    (compression : compress_method) (w w' : world) :
  source <> [] ->
  Z.of_nat (length source) < 2045222521 ->
  terminate_at_nul (basename input_file) = basename input_file ->
  fs w !! output_zip = None ->
  (compression <> ZIP_STORED ->
   zip_compressor_storage w !! (output_zip ++ "/" ++ basename input_file)%string
   = None
   /\ forall outs,
        codec_run compression []
          (loop_calls compression (read_file_in_chunks source DEFAULT_CHUNK_SIZE)
             ++ final_calls compression) = Ok outs ->
        codec_decompress compression (concat outs) = Ok source) ->
  zip_file_in_chunks source input_file output_zip compression w = Ok w' ->
  exists a,
    fs w' !! output_zip = Some a
    /\ read_entry a (basename input_file) = Ok source.
Proof.
  intros Hne Hlim Hnul Hnone Hcodec Hz. unfold zip_file_in_chunks in Hz.
  set (chunks := read_file_in_chunks source DEFAULT_CHUNK_SIZE) in *.
  assert (Hcat : concat chunks = source).
  { apply read_chunks_concat; [unfold DEFAULT_CHUNK_SIZE; lia | reflexivity]. }
  assert (Hch : chunks <> []).
  { intros Hnil. rewrite Hnil in Hcat. simpl in Hcat. congruence. }
  rewrite <- Hcat in Hlim.
  destruct (zip_chunks_data _ _ _ _ _ _ Hnul Hnone Hch Hlim Hz)
    as (data & Hed & Hs & Hc).
  rewrite Hcat in Hed.
  apply (entry_data_reads _ _ _ _ _ _ Hed).
  destruct (decide (compression = ZIP_STORED)) as [-> | Hm].
  - rewrite (Hs eq_refl). rewrite Hcat. reflexivity.
  - destruct (Hc Hm) as (outs & Hran & ->).
    destruct (Hcodec Hm) as (Hfresh & Hinv).
    rewrite <- (Hinv outs (ran_fresh _ _ _ _ _ _ Hfresh Hran)).
    destruct compression; [contradiction | reflexivity..].
Qed.

Lemma zip_file_in_chunks_round_trip_witness :
  bytes_of_string "hello world" <> []
  /\ exists w' a,
      @zip_file_in_chunks hold_codec (bytes_of_string "hello world")
        "dir/in.txt" "out.zip" ZIP_STORED empty_world = Ok w'
      /\ fs w' !! "out.zip" = Some a
      /\ @read_entry hold_codec a "in.txt" = Ok (bytes_of_string "hello world").
Proof.
  split; [discriminate|].
  destruct (@zip_file_in_chunks hold_codec (bytes_of_string "hello world")
              "dir/in.txt" "out.zip" ZIP_STORED empty_world) as [w'|e] eqn:E;
    [|vm_compute in E; discriminate].
  destruct (@zip_file_in_chunks_round_trip hold_codec (bytes_of_string "hello world")
              "dir/in.txt" "out.zip" ZIP_STORED empty_world w')
    as (a & Ha & Hr).
  - discriminate.
  - vm_compute. reflexivity.
  - reflexivity.
  - reflexivity.
  - intros Hm. contradiction.
  - exact E.
  - exists w', a. split; [reflexivity|]. split; [exact Ha | exact Hr].
Defined.

(** ** The header that grows *)

Lemma final_header_on_disk self chunk data w self' w' :
  _write self chunk data w = Ok (self', w') ->
  exists zi1 hdr1 hdr2 a,
    FileHeader (set_date_time (zipinfo self) (clock w (ticks w)))
               (force_zip64 self) = Ok (zi1, hdr1)
    /\ FileHeader (zipinfo self') (force_zip64 self') = Ok (zipinfo self', hdr2)
    /\ filename (zipinfo self') = filename (zipinfo self)
    /\ extra (zipinfo self') = extra (zipinfo self)
    /\ compress_size (zipinfo self')
       = compress_size (zipinfo self) + Z.of_nat (length data)
    /\ header_offset (zipinfo self') = header_offset (zipinfo self)
    /\ 0 <= header_offset (zipinfo self)
    /\ fs w' !! output_zip self = Some a
    /\ dir_offset a
       = header_offset (zipinfo self) + Z.of_nat (length hdr1)
         + compress_size (zipinfo self) + Z.of_nat (length data)
    /\ (header_offset (zipinfo self) + Z.of_nat (length hdr2) <= dir_offset a ->
        segment (Z.to_nat (header_offset (zipinfo self))) (length hdr2) (contents a)
        = hdr2).
Proof.
  intros Hw.
  apply _write_steps in Hw as
    (zi1 & hdr1 & hdr2 & b0 & tail & a & Hb0 & H0 & HP & K2 & K5 & Hd & Hfl & Hex
     & Hend & Hdir & Hcont & Ha).
  cbn zeta in *.
  destruct Hd as (D1 & _ & _ & D4 & _ & D6).
  pose proof (counted_fields (zipinfo self) chunk data)
    as (C1 & _ & C3 & _ & _ & _ & C7 & _).
  exists zi1, hdr1, hdr2, a.
  split; [exact K2|]. split; [exact K5|].
  split; [congruence|]. split; [exact Hex|]. split; [congruence|].
  split; [congruence|]. split; [exact H0|]. split; [exact Ha|].
  split; [exact Hdir|].
  match type of Hcont with
  | context [take _ (buf (write ?s hdr2))] => set (s5 := s) in *
  end.
  assert (Hseg : segment (Z.to_nat (header_offset (zipinfo self))) (length hdr2)
                   (buf (write s5 hdr2)) = hdr2)
    by apply (segment_written s5 hdr2).
  intros Hguard. rewrite Hcont.
  pose proof (length_buf_write s5 hdr2) as [Hl | Hl].
  - change (Z.to_nat (pos s5)) with (Z.to_nat (header_offset (zipinfo self))) in Hl.
    rewrite segment_app_l by (rewrite length_padded; lia).
    rewrite segment_app_l by (rewrite length_take; lia).
    rewrite segment_take by lia.
    exact Hseg.
  - apply FileHeader_length in K5. rewrite Hl in K5.
    unfold header_length, sizeFileHeader in K5. simpl in K5. lia.
Qed.

Lemma segment_segment x n y k (b : bytes) :
  (x + n <= k)%nat -> segment x n (segment y k b) = segment (y + x) n b.
Proof.
  intros H. unfold segment.
  rewrite (take_drop_commute _ n x), take_take.
  replace ((x + n) `min` k)%nat with (x + n)%nat by lia.
  rewrite (take_drop_commute _ (x + n) y), drop_drop.
  rewrite (take_drop_commute _ n (y + x)).
  do 2 f_equal. lia.
Qed.

(** X15.  When a [_write] takes the size of the entry across the ZIP64
    threshold ([force_zip64] is false for the header written first and true
    for the header written last), the last header is twenty bytes longer
    than the first, and it is written at the same offset, after the data:
    its ZIP64 record lies on the first twenty bytes of the data region of
    the entry (given the entry has that many bytes), and the central
    directory starts twenty bytes before the end of the data as the final
    header delimits it. *)
Theorem zip64_header_overwrites_data
    (self : writer) (chunk : option bytes) (data : bytes) (w : world)
    (self' : writer) (w' : world) :
  _write self chunk data w = Ok (self', w') ->
  force_zip64 self = false -> force_zip64 self' = true ->
  20 <= compress_size (zipinfo self) + Z.of_nat (length data) ->
  exists zi1 hdr1 hdr2 a,
    FileHeader (set_date_time (zipinfo self) (clock w (ticks w))) false
    = Ok (zi1, hdr1)
    /\ FileHeader (zipinfo self') true = Ok (zipinfo self', hdr2)
    /\ length hdr2 = (length hdr1 + 20)%nat
    /\ fs w' !! output_zip self = Some a
    /\ segment (Z.to_nat (header_offset (zipinfo self)) + length hdr1) 20
               (contents a)
       = drop (length hdr1) hdr2
    /\ take 4 (drop (length hdr1) hdr2) = [x01; x00; x10; x00]
    /\ dir_offset a + 20
       = header_offset (zipinfo self') + Z.of_nat (length hdr2)
         + compress_size (zipinfo self').
Proof.
  intros Hw Hf1 Hf2 Hlen.
  apply final_header_on_disk in Hw as
    (zi1 & hdr1 & hdr2 & a & K2 & K5 & Hn & Hex & Hcs & Hoff & H0 & Ha & Hdir & Hseg).
  rewrite Hf1 in K2. rewrite Hf2 in K5.
  pose proof (FileHeader_length _ _ _ _ K2) as L1.
  pose proof (FileHeader_length _ _ _ _ K5) as L2.
  unfold header_length in L1, L2. cbn [set_date_time filename extra] in L1.
  rewrite Hn, Hex in L2.
  assert (HL : length hdr2 = (length hdr1 + 20)%nat) by lia.
  exists zi1, hdr1, hdr2, a.
  split; [exact K2|]. split; [exact K5|]. split; [exact HL|]. split; [exact Ha|].
  split; [|split].
  - rewrite <- (segment_segment (length hdr1) 20
                  (Z.to_nat (header_offset (zipinfo self))) (length hdr2)) by lia.
    rewrite Hseg by lia.
    unfold segment. apply take_ge. rewrite length_drop. lia.
  - apply FileHeader_Ok in K5 as
      (crc & cs & fsz & z64 & fixed & mv & _ & Hz & _ & _ & Hp & Hh).
    apply pack_length in Hp. cbn in Hp.
    assert (Hd : drop (length hdr1) hdr2 = z64).
    { rewrite Hh, !app_assoc. apply drop_app_length'.
      rewrite !length_app, Hp, Hn, Hex. simpl. rewrite L1.
      unfold sizeFileHeader. lia. }
    rewrite Hd. apply pack_Ok in Hz as [-> _]. reflexivity.
  - rewrite Hdir, Hoff, Hcs, HL. lia.
Qed.

Lemma zip64_header_overwrites_data_witness :
  force_zip64 example_crossing_writer = false
  /\ exists self' w' a,
      _write example_crossing_writer (Some [x68]) [x68] empty_world = Ok (self', w')
      /\ force_zip64 self' = true
      /\ fs w' !! "out.zip" = Some a
      /\ segment 36 4 (contents a) = [x01; x00; x10; x00].
Proof.
  split; [vm_compute; reflexivity|].
  destruct (_write example_crossing_writer (Some [x68]) [x68] empty_world)
    as [[self' w']|e] eqn:E; [|vm_compute in E; discriminate].
  assert (Hf2 : force_zip64 self' = true).
  { vm_compute in E. injection E as <- _. vm_compute. reflexivity. }
  destruct (zip64_header_overwrites_data example_crossing_writer _ _ _ _ _ E)
    as (zi1 & hdr1 & hdr2 & a & K2 & _ & _ & Ha & Hseg & Hrec & _).
  - vm_compute. reflexivity.
  - exact Hf2.
  - cbn. lia.
  - exists self', w', a. split; [reflexivity|]. split; [exact Hf2|].
    split; [exact Ha|].
    apply FileHeader_length in K2.
    change (header_length _ false) with 36%nat in K2.
    rewrite K2 in Hseg, Hrec. cbn [header_offset zipinfo example_crossing_writer] in Hseg.
    change (Z.to_nat 0 + 36)%nat with 36%nat in Hseg.
    rewrite <- Hrec. rewrite <- Hseg.
    unfold segment. rewrite take_take. reflexivity.
Defined.

(** ** A second entry *)

Lemma bytes_of_string_inj s1 s2 : bytes_of_string s1 = bytes_of_string s2 -> s1 = s2.
Proof.
  unfold bytes_of_string. intros H.
  rewrite <- (string_of_list_byte_of_string s1), <- (string_of_list_byte_of_string s2).
  rewrite H. reflexivity.
Qed.

Lemma getinfo_name infos name zi : getinfo infos name = Some zi -> filename zi = name.
Proof.
  unfold getinfo. intros H. apply last_Some in H as (l' & H).
  assert (Hin : zi ∈ filter (fun zi => filename zi = name) infos)
    by (rewrite H; set_solver).
  apply list_elem_of_filter in Hin as [Hn _]. exact Hn.
Qed.

Lemma getinfo_None_filter infos name :
  getinfo infos name = None ->
  filter (fun zi => filename zi <> name) infos = infos.
Proof.
  unfold getinfo. intros H. apply last_None in H.
  induction infos as [|zi rest IH]; [reflexivity|].
  rewrite filter_cons in H. rewrite filter_cons.
  destruct (decide (filename zi = name)) as [Heq | Hne]; [discriminate|].
  destruct (decide (filename zi <> name)); [|contradiction].
  rewrite IH by exact H. reflexivity.
Qed.

Lemma _extract_zipinfo_missing out name m w a0 zi w1 :
  fs w !! out = Some a0 -> getinfo (directory a0) name = None ->
  terminate_at_nul name = name ->
  _extract_zipinfo out name m w = Ok (zi, w1) ->
  (filename zi = name /\ compress_type zi = m /\ CRC zi = crc32 [] 0
   /\ file_size zi = 0 /\ compress_size zi = 0
   /\ header_offset zi = 0 /\ extra zi = []
   /\ Z.land (flag_bits zi) _MASK_USE_DATA_DESCRIPTOR = 0)
  /\ fs w1 = fs w.
Proof.
  intros Ha Hg Hnul H.
  destruct (_extract_zipinfo_frame _ _ _ _ _ _ H) as (Hfs & _).
  split; [|exact Hfs].
  unfold _extract_zipinfo in H. rewrite Ha, Hg in H.
  unfold datetime_now in H. inv_bind H.
  unfold new_ZipInfo in E. destruct (_ <? 1980); [discriminate|].
  injection E as <-. injection H as <- _. cbn. auto 10.
Qed.

(** An entry listed at offset 0 under another name than the one in the
    header that lies there cannot be read. *)
Lemma read_entry_foreign `{C : codec} a z hdr name n (data : bytes) :
  getinfo (directory a) n = Some z -> header_offset z = 0 ->
  plain_header name hdr ->
  take (length hdr + length data) (contents a) = hdr ++ data ->
  n <> name ->
  read_entry a n = Err BadZipFile.
Proof.
  intros Hg Hoff (Hlen & Hsig & Hk & Hx & Hname) Hc Hne.
  pose proof (getinfo_name _ _ _ Hg) as Hn.
  set (k := length (bytes_of_string name)) in *.
  set (c := contents a) in *.
  assert (A1 : take sizeFileHeader c = take sizeFileHeader hdr).
  { change (segment 0 sizeFileHeader c = segment 0 sizeFileHeader hdr).
    rewrite (prefix_segment c _ _ 0 sizeFileHeader Hc) by lia.
    apply segment_app_l. lia. }
  assert (A2 : take k (drop sizeFileHeader c) = bytes_of_string name).
  { change (segment sizeFileHeader k c = bytes_of_string name).
    rewrite (prefix_segment c _ _ sizeFileHeader k Hc) by lia.
    rewrite segment_app_l by lia. unfold segment. rewrite Hname.
    apply take_ge. reflexivity. }
  assert (A4 : take 2 (drop 26 (take sizeFileHeader hdr)) = segment 26 2 hdr).
  { apply (segment_take 26 2 sizeFileHeader hdr). unfold sizeFileHeader. lia. }
  assert (A6 : take 4 (take sizeFileHeader hdr) = stringFileHeader).
  { rewrite take_take. exact Hsig. }
  assert (A7 : length (take sizeFileHeader hdr) = sizeFileHeader).
  { rewrite length_take. lia. }
  unfold read_entry. rewrite Hg, Hoff. change (Z.to_nat 0) with 0%nat.
  rewrite drop_0. fold c. rewrite A1, A7, Nat.eqb_refl. cbn [negb].
  rewrite A6, bool_decide_eq_true_2 by reflexivity. cbn [negb].
  rewrite A4, Hk, Nat2Z.id, A2, Hn.
  rewrite bool_decide_eq_false_2; [reflexivity|].
  intros Heq. apply Hne. symmetry. apply bytes_of_string_inj. exact Heq.
Qed.

(** X16.  A writer for a name that an existing archive does not list
    starts its entry at offset 0, whatever the archive holds there: after
    its first [write_chunk] the archive begins with the header of the new
    entry and the chunk, and the central directory follows right behind
    them.  The directory still lists every old entry, with the counters and
    the offset it had, before the new one; but an old entry that was listed
    at offset 0 can no longer be read, since the header there now bears the
    new name. *)
Theorem new_entry_starts_at_offset_zero `{C : codec}
    (out name : string) (chunk : bytes) (w : world) (a0 : archive)
    (self : writer) (w1 : world) (self' : writer) (w' : world) :
  fs w !! out = Some a0 ->
  getinfo (directory a0) name = None ->
  terminate_at_nul name = name ->
  Z.of_nat (length chunk) < 2045222521 ->
  ChunkedStoredZipWriter.__init__ out name w = Ok (self, w1) ->
  ChunkedStoredZipWriter.write_chunk self chunk w1 = Ok (self', w') ->
  header_offset (zipinfo self) = 0
  /\ exists a hdr others mine,
      fs w' !! out = Some a
      /\ plain_header name hdr
      /\ take (length hdr + length chunk) (contents a) = hdr ++ chunk
      /\ dir_offset a = Z.of_nat (length hdr + length chunk)
      /\ directory a = others ++ [mine]
      /\ filename mine = name
      /\ Forall2 same_entry (directory a0) others
      /\ (forall n z,
            getinfo (directory a) n = Some z -> header_offset z = 0 ->
            n <> name -> read_entry a n = Err BadZipFile).
Proof.
  intros Ha0 Hg Hnul Hlim Hi Hw.
  unfold ChunkedStoredZipWriter.__init__ in Hi.
  inv_bind Hi. destruct a as [zi w2]. injection Hi as <- <-.
  destruct (_extract_zipinfo_missing _ _ _ _ _ _ _ Ha0 Hg Hnul E)
    as ((Z1 & Z2 & Z3 & Z4 & Z5 & Z6 & Z7 & Z8) & Hfs).
  split; [exact Z6|].
  unfold ChunkedStoredZipWriter.write_chunk in Hw.
  set (self := {| output_zip := out; filename_in_zip := name;
                  compression := ZIP_STORED; zipinfo := zi |}) in *.
  assert (Hat : writer_data self out name ZIP_STORED (crc32 [] 0) 0 []).
  { unfold writer_data. cbn. auto 15. }
  destruct (_write_data_core _ _ _ _ _ _ _ (Some chunk) chunk _ _ _ Hat
              eq_refl ltac:(lia) ltac:(cbn [fed_size]; lia) Hw)
    as (_ & (a & zi' & hdr & Ha & _ & _ & _ & _ & _ & _ & _ & _ & _ & Hp & Hd & Ht) & _).
  cbn [app] in Hd, Ht.
  apply _write_steps in Hw as
    (zi1 & hdr1 & hdr2 & b0 & tail & a' & _ & _ & _ & _ & _ & Hsame & _ & _
     & Hend & _ & _ & Ha').
  cbn [output_zip filename_in_zip self] in Hend, Ha'.
  rewrite Ha in Ha'. injection Ha' as <-.
  rewrite Hfs, Ha0 in Hend. cbn [old_directory] in Hend.
  rewrite (getinfo_None_filter _ _ Hg) in Hend.
  apply _write_end_record_same in Hend.
  apply Forall2_app_inv_l in Hend as (others & ys & Ho & Hy & Hdir).
  inversion Hy as [|x0 mine l0 l0' Hxy Hnil]; subst x0 l0 ys. inversion Hnil; subst l0'.
  exists a, hdr, others, mine.
  split; [exact Ha|]. split; [exact Hp|]. split; [exact Ht|]. split; [exact Hd|].
  split; [exact Hdir|]. split.
  - destruct Hxy as (X1 & _). destruct Hsame as (S1 & _).
    pose proof (counted_fields zi (Some chunk) chunk) as (C1 & _).
    cbn [zipinfo self] in S1. congruence.
  - split; [exact Ho|].
    intros n z Hgn Hoff Hne.
    exact (read_entry_foreign a z hdr name n chunk Hgn Hoff Hp Ht Hne).
Qed.

Lemma new_entry_starts_at_offset_zero_witness :
  exists w0 a0 self w1 self' w' a,
    fs w0 !! "out.zip" = Some a0
    /\ getinfo (directory a0) "b.txt" = None
    /\ ChunkedStoredZipWriter.__init__ "out.zip" "b.txt" w0 = Ok (self, w1)
    /\ ChunkedStoredZipWriter.write_chunk self [x68; x69] w1 = Ok (self', w')
    /\ fs w' !! "out.zip" = Some a
    /\ length (directory a) = 2%nat
    /\ @read_entry hold_codec a "a.txt" = Err BadZipFile.
Proof.
  destruct (@zip_chunks hold_codec [[x61]] "a.txt" "out.zip" ZIP_STORED empty_world)
    as [w0|] eqn:E0; [|vm_compute in E0; discriminate].
  destruct (ChunkedStoredZipWriter.__init__ "out.zip" "b.txt" w0)
    as [[self w1]|] eqn:Ei;
    [|exfalso; vm_compute in E0; injection E0 as <-; vm_compute in Ei; discriminate].
  destruct (ChunkedStoredZipWriter.write_chunk self [x68; x69] w1)
    as [[self' w']|] eqn:Ew;
    [|exfalso; vm_compute in E0; injection E0 as <-;
      vm_compute in Ei; injection Ei as <- <-; vm_compute in Ew; discriminate].
  destruct (fs w0 !! "out.zip") as [a0|] eqn:Ea0;
    [|exfalso; vm_compute in E0; injection E0 as <-; vm_compute in Ea0; discriminate].
  assert (Hd0 : exists zi_a,
             directory a0 = [zi_a] /\ filename zi_a = "a.txt"%string
             /\ header_offset zi_a = 0).
  { vm_compute in E0. injection E0 as <-. vm_compute in Ea0. injection Ea0 as <-.
    eexists. split; [reflexivity|]. split; reflexivity. }
  destruct Hd0 as (zi_a & Hd0 & Hna & Hoa).
  assert (Hg : getinfo (directory a0) "b.txt" = None).
  { rewrite Hd0. unfold getinfo. rewrite filter_cons, Hna.
    destruct (decide ("a.txt"%string = "b.txt"%string)); [discriminate | reflexivity]. }
  destruct (@new_entry_starts_at_offset_zero hold_codec "out.zip" "b.txt" [x68; x69]
              w0 a0 self w1 self' w' Ea0 Hg eq_refl ltac:(cbn; lia) Ei Ew)
    as (_ & a & hdr & others & mine & Ha & _ & _ & _ & Hdir & Hmine & HF & Hbad).
  exists w0, a0, self, w1, self', w', a.
  split; [exact Ea0|]. split; [exact Hg|]. split; [exact Ei|].
  split; [exact Ew|]. split; [exact Ha|].
  rewrite Hd0 in HF.
  inversion HF as [|? z ? ? Hz Hr]; subst. inversion Hr; subst.
  destruct Hz as (Z1 & _ & _ & _ & _ & Z6).
  split; [rewrite Hdir; reflexivity|].
  apply (Hbad "a.txt"%string z); [|congruence|discriminate].
  rewrite Hdir. unfold getinfo. cbn [app].
  rewrite !filter_cons, filter_nil, <- Z1, Hna, Hmine.
  destruct (decide ("a.txt"%string = "a.txt"%string)); [|contradiction].
  destruct (decide ("b.txt"%string = "a.txt"%string)); [discriminate | reflexivity].
Defined.

(** ** The other compressed methods, and the empty source *)

Lemma loop_calls_no_exit m chunks :
  exit_calls m = [] -> loop_calls m chunks = map Compress chunks.
Proof.
  intros He. unfold loop_calls, chunk_calls. rewrite He.
  induction chunks as [|c rest IH]; [reflexivity|].
  cbn [flat_map map app]. rewrite IH. reflexivity.
Qed.

(** X17.  With BZIP2 or LZMA, [zip_file_in_chunks] feeds the shared
    compressor one [compress] per chunk and nothing in between (leaving a
    writer does not flush), then a single argument-less [flush()] from the
    final writer.  The run leaves the compressor in the registry, with
    these calls after those it had served before, so in its finished
    state; and the compressed size of the entry that the archive lists,
    the archive being new, is the total length of what these calls
    returned. *)
Theorem bzip2_lzma_flush_once `{C : codec}
    (chunks : list bytes) (input out : string) (m : compress_method)
    (w w' : world) :
  m = ZIP_BZIP2 \/ m = ZIP_LZMA ->
  fs w !! out = None ->
  terminate_at_nul (basename input) = basename input ->
  zip_chunks chunks input out m w = Ok w' ->
  let key := (out ++ "/" ++ basename input)%string in
  let c0 := live m key w in
  let ops := map Compress chunks ++ [Flush None] in
  exists outs,
    codec_run (method c0) (calls c0) ops = Ok outs
    /\ zip_compressor_storage w' !! key
       = Some {| method := method c0; calls := calls c0 ++ ops |}
    /\ (forall a zi,
           fs w' !! out = Some a ->
           getinfo (directory a) (basename input) = Some zi ->
           compress_size zi = total_length outs).
Proof.
  intros Hm Hnone Hnul Hz key c0 ops.
  pose proof (entry_state_initial out (basename input) w Hnone) as H0.
  assert (Hns : m <> ZIP_STORED) by (destruct Hm; congruence).
  destruct (compressed_chunks_state _ _ _ _ _ _ _ _ _ Hnul Hns H0 Hz)
    as (outs & Hran & Hst & _).
  assert (Hops : loop_calls m chunks ++ final_calls m = ops).
  { unfold ops. rewrite loop_calls_no_exit by (destruct Hm; subst m; reflexivity).
    destruct Hm; subst m; reflexivity. }
  rewrite Hops in Hran.
  change (key_of out (basename input)) with key in Hran.
  exists outs. split; [apply Hran|]. split.
  - apply (ran_registered _ _ _ _ _ _ Hran). unfold ops.
    intros Habs. destruct (map Compress chunks); discriminate.
  - intros a zi Ha Hg.
    destruct Hst as [(Hn & _) | (a' & zi' & Ha' & Hg' & _ & _ & _ & Hs)]; [congruence|].
    rewrite Ha in Ha'. injection Ha' as <-. rewrite Hg in Hg'. injection Hg' as <-.
    rewrite Hs. lia.
Qed.

Lemma bzip2_lzma_flush_once_witness :
  (ZIP_LZMA = ZIP_BZIP2 \/ ZIP_LZMA = ZIP_LZMA)
  /\ exists w',
      @zip_chunks hold_codec example_chunks "dir/in.txt" "out.zip"
                  ZIP_LZMA empty_world = Ok w'
      /\ zip_compressor_storage w' !! "out.zip/in.txt"
         = Some {| method := ZIP_LZMA;
                   calls := [Compress (bytes_of_string "hello ");
                             Compress (bytes_of_string "world");
                             Flush None] |}.
Proof.
  split; [right; reflexivity|].
  destruct (@zip_chunks hold_codec example_chunks "dir/in.txt" "out.zip"
              ZIP_LZMA empty_world) as [w'|e] eqn:E;
    [|vm_compute in E; discriminate].
  exists w'. split; [reflexivity|].
  destruct (@bzip2_lzma_flush_once hold_codec example_chunks
              "dir/in.txt" "out.zip" ZIP_LZMA empty_world w'
              (or_intror eq_refl) eq_refl eq_refl E)
    as (outs & _ & Hreg & _).
  exact Hreg.
Defined.

(** X18.  For an empty source and a method other than STORED, the chunk
    loop has no round and all that [zip_file_in_chunks] does is the
    [flush()] and the [close()] of the final writer.  Whether an archive
    comes out depends on the backend alone: when its flush returns no
    byte, the files stay as they were; when it returns some, the archive is
    created with an entry of size 0 that holds these bytes, and reading
    the entry back gives the empty source as soon as the backend
    decompresses them to nothing. *)
Theorem empty_source_compressed `{C : codec}
    (input_file output_zip : string) (compression : compress_method)
    (w w' : world) :
  compression <> ZIP_STORED ->
  fs w !! output_zip = None ->
  terminate_at_nul (basename input_file) = basename input_file ->
  zip_file_in_chunks [] input_file output_zip compression w = Ok w' ->
  let key := (output_zip ++ "/" ++ basename input_file)%string in
  let c0 := live compression key w in
  exists outs,
    codec_run (method c0) (calls c0) (final_calls compression) = Ok outs
    /\ (concat outs = [] -> fs w' = fs w)
    /\ (concat outs <> [] ->
        entry_data output_zip (basename input_file) compression 0 0
                   (concat outs) w'
        /\ (codec_decompress compression (concat outs) = Ok [] ->
            exists a,
              fs w' !! output_zip = Some a
              /\ read_entry a (basename input_file) = Ok [])).
Proof.
  intros Hm Hnone Hnul Hz key c0.
  unfold zip_file_in_chunks, zip_chunks in Hz.
  cbn [read_file_in_chunks length read_chunks] in Hz.
  destruct (decide (compression = ZIP_STORED)); [contradiction|].
  cbn [compressed_loop bind] in Hz.
  inv_bind Hz. destruct a as [zw w2].
  inv_bind Hz. destruct a as [zw' w3]. inv_bind Hz. destruct a as [zw'' w4].
  injection Hz as <-.
  assert (H0 : entry_bytes output_zip (basename input_file) compression
                 (crc32 [] 0) 0 [] w) by (left; auto).
  assert (Hlim : 0 <= 0 < 2045222521) by lia.
  destruct (compressed_init_data _ _ _ _ _ _ _ _ _ Hnul H0 E) as (Hat & Hfs & Hreg).
  apply (entry_bytes_fs _ _ _ _ _ _ _ _ Hfs) in H0.
  destruct (compressed_flush_data _ _ _ _ _ _ _ _ _ _ Hat Hm H0 Hlim E0)
    as (outs2 & Hran2 & Hat2 & Hst2 & _ & Hsame2).
  destruct (compressed_exit_data _ _ _ _ _ _ _ _ _ _ Hat2 Hm Hst2 Hlim E1)
    as (outs3 & Hran3 & Hst3 & _ & Hsame3).
  cbn [app] in Hst2, Hst3, Hat2.
  exists (outs2 ++ outs3).
  assert (Hran : ran compression (key_of output_zip (basename input_file)) w
                   (final_calls compression) (outs2 ++ outs3) w4).
  { unfold final_calls. eapply ran_trans; [|exact Hran3].
    destruct Hran2 as [R L]. rewrite (live_storage _ _ _ _ Hreg) in R, L.
    split; assumption. }
  split; [apply Hran|]. rewrite concat_app. split.
  - intros Hnil. apply app_eq_nil in Hnil as [H2 H3].
    rewrite (Hsame3 H3), (Hsame2 H2). exact Hfs.
  - intros Hne.
    assert (Hed : entry_data output_zip (basename input_file) compression 0 0
                    (concat outs2 ++ concat outs3) w4).
    { destruct Hst3 as [(_ & _ & _ & Hnil) | Hed]; [contradiction|].
      change (crc32 [] 0) with 0 in Hed. exact Hed. }
    split; [exact Hed|].
    intros Hdec.
    apply (entry_data_reads _ _ _ _ [] _ Hed).
    destruct compression; [contradiction | exact Hdec..].
Qed.

Lemma empty_source_compressed_witness :
  ZIP_DEFLATED <> ZIP_STORED
  /\ exists w' a,
      @zip_file_in_chunks sync_codec [] "dir/empty.txt" "out.zip" ZIP_DEFLATED
        empty_world = Ok w'
      /\ fs w' !! "out.zip" = Some a
      /\ dir_offset a = 43.
Proof.
  split; [discriminate|].
  destruct (@zip_file_in_chunks sync_codec [] "dir/empty.txt" "out.zip" ZIP_DEFLATED
              empty_world) as [w'|e] eqn:E; [|vm_compute in E; discriminate].
  destruct (@empty_source_compressed sync_codec "dir/empty.txt" "out.zip"
              ZIP_DEFLATED empty_world w' ltac:(discriminate) eq_refl eq_refl E)
    as (outs & Hrun & _ & Hsome).
  vm_compute in Hrun. injection Hrun as <-.
  destruct (Hsome ltac:(discriminate))
    as ((a & zi & hdr & Ha & _ & _ & _ & _ & _ & _ & _ & _ & _ & Hp & Hd & _) & _).
  exists w', a. split; [reflexivity|]. split; [exact Ha|].
  destruct Hp as (Hlen & _). rewrite Hd, Hlen. reflexivity.
Defined.

(** ** When [_write] goes through *)

Ltac field_ranges :=
  repeat match goal with
         | |- context [2 ^ (8 * Z.of_nat ?k)] =>
             let v := eval vm_compute in (2 ^ (8 * Z.of_nat k)) in
             change (2 ^ (8 * Z.of_nat k)) with v
         end.

Lemma pack_total fields :
  Forall (fun fv => 0 <= snd fv < 2 ^ (8 * Z.of_nat (fmt_size (fst fv)))) fields ->
  exists b, pack fields = Ok b.
Proof.
  induction 1 as [|[f v] rest Hv _ (bs & IH)]; [exists []; reflexivity|].
  cbn [fst snd] in Hv. cbn [pack]. unfold pack1.
  replace ((0 <=? v) && (v <? 2 ^ (8 * Z.of_nat (fmt_size f)))) with true
    by (symmetry; apply andb_true_iff; lia).
  cbn [bind]. rewrite IH. cbn [bind]. eauto.
Qed.

Lemma lor_bound n a b :
  0 < n -> 0 <= a < 2 ^ n -> 0 <= b < 2 ^ n -> 0 <= Z.lor a b < 2 ^ n.
Proof.
  intros Hn Ha Hb.
  assert (H0 : 0 <= Z.lor a b) by (apply Z.lor_nonneg; lia).
  split; [exact H0|].
  destruct (Z.eq_dec (Z.lor a b) 0) as [-> | Hne]; [apply Z.pow_pos_nonneg; lia|].
  apply Z.log2_lt_pow2; [lia|].
  rewrite Z.log2_lor by lia.
  assert (Z.log2 a < n).
  { destruct (Z.eq_dec a 0) as [-> | ?]; [simpl; lia | apply Z.log2_lt_pow2; lia]. }
  assert (Z.log2 b < n).
  { destruct (Z.eq_dec b 0) as [-> | ?]; [simpl; lia | apply Z.log2_lt_pow2; lia]. }
  lia.
Qed.

Lemma dos_fields_bound dt :
  valid_datetime dt ->
  0 <= dosdate dt < 2 ^ 16 /\ 0 <= dostime dt < 2 ^ 16.
Proof.
  intros (Hy & Hmo & Hd & Hh & Hmi & Hs). unfold dosdate, dostime.
  rewrite !Z.shiftl_mul_pow2 by lia.
  change (2 ^ 9) with 512. change (2 ^ 5) with 32. change (2 ^ 11) with 2048.
  assert (0 <= second dt / 2 < 30).
  { split; [apply Z.div_pos; lia | apply Z.div_lt_upper_bound; lia]. }
  change (2 ^ 16) with 65536.
  split; (apply (lor_bound 16); [lia | apply (lor_bound 16); [lia | |] |]);
    change (2 ^ 16) with 65536; lia.
Qed.

Lemma method_version_bound c mv :
  0 <= mv <= 63 -> 0 <= method_version c mv <= 63.
Proof.
  unfold method_version, BZIP2_VERSION, LZMA_VERSION. destruct c; lia.
Qed.

Lemma flags_bound zi :
  flag_bits zi = 0 \/ flag_bits zi = _MASK_UTF_FILENAME ->
  (snd (_encodeFilenameFlags zi) = 0
   \/ snd (_encodeFilenameFlags zi) = _MASK_UTF_FILENAME).
Proof.
  unfold _encodeFilenameFlags.
  destruct (is_ascii (filename zi)); cbn [snd]; [auto|].
  intros [-> | ->]; right; reflexivity.
Qed.

Lemma flags_clear zi :
  flag_bits zi = 0 \/ flag_bits zi = _MASK_UTF_FILENAME ->
  Z.land (flag_bits zi) _MASK_USE_DATA_DESCRIPTOR = 0.
Proof. intros [-> | ->]; reflexivity. Qed.

Lemma FileHeader_total zi :
  packable zi -> valid_datetime (date_time zi) ->
  0 <= file_size zi <= ZIP64_LIMIT -> 0 <= compress_size zi <= ZIP64_LIMIT ->
  exists zi' hdr, FileHeader zi false = Ok (zi', hdr) /\ packable zi'.
Proof.
  intros (Hcv & Hev & Hfl & Hcrc & Hname & Hex & Hoff) Hdt Hfs Hcs.
  destruct (dos_fields_bound _ Hdt) as [Hdd Hdtm].
  unfold FileHeader. rewrite (flags_clear _ Hfl). cbn [Z.eqb bind].
  replace (file_size zi >? ZIP64_LIMIT) with false by (symmetry; lia).
  replace (compress_size zi >? ZIP64_LIMIT) with false by (symmetry; lia).
  cbn [orb bind].
  pose proof (method_version_bound (compress_type zi) 0 ltac:(lia)) as Hmv.
  set (mv := method_version (compress_type zi) 0) in *.
  set (zi' := set_versions zi (Z.max mv (create_version zi))
                              (Z.max mv (extract_version zi))).
  assert (Hp' : packable zi').
  { unfold packable, zi'. cbn. repeat split; auto; lia. }
  pose proof (flags_bound zi' (proj1 (proj2 (proj2 Hp')))) as Hflags.
  assert (Hfn : _encodeFilenameFlags zi'
                = (bytes_of_string (filename zi), snd (_encodeFilenameFlags zi'))).
  { unfold _encodeFilenameFlags. destruct (is_ascii (filename zi')); reflexivity. }
  rewrite Hfn.
  match goal with
  | |- context [pack ?l] => destruct (pack_total l) as (b & Hb)
  end.
  { unfold ZIP64_LIMIT in *. change (Z.shiftl 1 31 - 1) with 2147483647 in *.
    change (2 ^ 32) with 4294967296 in *. change (2 ^ 16) with 65536 in *.
    rewrite Hex.
    repeat (apply Forall_cons; split); try apply Forall_nil;
      cbn [fst snd fmt_size]; field_ranges;
      try (unfold zi'; cbn [extract_version set_versions compress_type]; lia);
      try lia.
    - destruct Hflags as [-> | ->]; [lia|].
      change _MASK_UTF_FILENAME with 2048. lia.
    - destruct (compress_type zi'); cbn [compress_code]; lia.
    - cbn [length]. lia. }
  rewrite Hb. cbn [bind]. eauto.
Qed.

Lemma central_record_total zi :
  packable zi -> valid_datetime (date_time zi) ->
  0 <= file_size zi <= ZIP64_LIMIT -> 0 <= compress_size zi <= ZIP64_LIMIT ->
  exists zi' b,
    central_record zi = Ok (zi', b) /\ packable zi'
    /\ filename zi' = filename zi
    /\ length b = (46 + length (bytes_of_string (filename zi)))%nat.
Proof.
  intros (Hcv & Hev & Hfl & Hcrc & Hname & Hex & Hoff) Hdt Hfs Hcs.
  destruct (dos_fields_bound _ Hdt) as [Hdd Hdtm].
  unfold central_record.
  replace (file_size zi >? ZIP64_LIMIT) with false by (symmetry; lia).
  replace (compress_size zi >? ZIP64_LIMIT) with false by (symmetry; lia).
  rewrite Hoff. change (0 >? ZIP64_LIMIT) with false.
  cbn [orb app bind].
  pose proof (method_version_bound (compress_type zi) 0 ltac:(lia)) as Hmv.
  set (mv := method_version (compress_type zi) 0) in *.
  pose proof (flags_bound zi Hfl) as Hflags.
  assert (Hfn : _encodeFilenameFlags zi
                = (bytes_of_string (filename zi), snd (_encodeFilenameFlags zi))).
  { unfold _encodeFilenameFlags. destruct (is_ascii (filename zi)); reflexivity. }
  rewrite Hfn.
  match goal with
  | |- context [pack ?l] => destruct (pack_total l) as (b & Hb)
  end.
  { unfold ZIP64_LIMIT in *. change (Z.shiftl 1 31 - 1) with 2147483647 in *.
    change (2 ^ 32) with 4294967296 in *. change (2 ^ 16) with 65536 in *.
    rewrite Hex.
    repeat (apply Forall_cons; split); try apply Forall_nil;
      cbn [fst snd fmt_size]; field_ranges; try lia.
    - destruct Hflags as [-> | ->]; [lia|].
      change _MASK_UTF_FILENAME with 2048. lia.
    - destruct (compress_type zi); cbn [compress_code]; lia.
    - cbn [length]. lia. }
  rewrite Hb. cbn [bind]. eexists _, _. split; [reflexivity|].
  split; [|split; [reflexivity|]].
  - unfold packable. cbn. repeat split; auto; lia.
  - apply pack_length in Hb. cbn in Hb.
    rewrite !length_app, Hb, Hex. simpl. lia.
Qed.

Lemma _write_end_record_total sd zi :
  packable zi -> valid_datetime (date_time zi) ->
  0 <= file_size zi <= ZIP64_LIMIT -> 0 <= compress_size zi <= ZIP64_LIMIT ->
  0 <= sd < 2 ^ 40 ->
  exists zi' tail,
    _write_end_record sd [zi] = Ok ([zi'], tail) /\ packable zi'
    /\ filename zi' = filename zi.
Proof.
  intros Hp Hdt Hfs Hcs Hsd.
  destruct (central_record_total zi Hp Hdt Hfs Hcs) as (zi' & b & Hc & Hp' & Hn & Hlen).
  destruct Hp as (_ & _ & _ & _ & Hname & _).
  unfold _write_end_record. cbn [central_records]. rewrite Hc. cbn [bind].
  rewrite app_nil_r. cbn [length].
  set (n := Z.of_nat (length b)).
  assert (Hn' : 46 <= n <= 65581) by (unfold n; lia).
  replace (sd + n - sd) with n by lia.
  change (Z.of_nat 1 >? ZIP_FILECOUNT_LIMIT) with false. cbn [orb].
  change (2 ^ 40) with 1099511627776 in Hsd.
  unfold ZIP64_LIMIT. change (Z.shiftl 1 31 - 1) with 2147483647.
  replace (n >? 2147483647) with false by (symmetry; lia).
  rewrite orb_false_r.
  destruct (sd >? 2147483647) eqn:Ebig.
  - match goal with
    | |- context [pack ?l] => destruct (pack_total l) as (b1 & Hb1)
    end.
    { repeat (apply Forall_cons; split); try apply Forall_nil;
        cbn [fst snd fmt_size]; field_ranges; lia. }
    rewrite Hb1. cbn [bind].
    match goal with
    | |- context [pack ?l] => destruct (pack_total l) as (b2 & Hb2)
    end.
    { repeat (apply Forall_cons; split); try apply Forall_nil;
        cbn [fst snd fmt_size]; field_ranges; lia. }
    rewrite Hb2. cbn [bind].
    match goal with
    | |- context [pack ?l] => destruct (pack_total l) as (b3 & Hb3)
    end.
    { repeat (apply Forall_cons; split); try apply Forall_nil;
        cbn [fst snd fmt_size]; field_ranges; lia. }
    rewrite Hb3. cbn [bind]. eauto.
  - cbn [bind].
    match goal with
    | |- context [pack ?l] => destruct (pack_total l) as (b3 & Hb3)
    end.
    { repeat (apply Forall_cons; split); try apply Forall_nil;
        cbn [fst snd fmt_size]; field_ranges; lia. }
    rewrite Hb3. cbn [bind]. eauto.
Qed.

Lemma seek_nonneg s p : 0 <= p -> seek s p = Ok {| buf := buf s; pos := p |}.
Proof. intros H. unfold seek. replace (p <? 0) with false by (symmetry; lia). reflexivity. Qed.

Lemma packable_date zi dt : packable zi -> packable (set_date_time zi dt).
Proof. intros H. exact H. Qed.

Lemma packable_counted zi chunk d : packable zi -> packable (counted zi chunk d).
Proof.
  intros (Hcv & Hev & Hfl & Hcrc & Hname & Hex & Hoff).
  unfold packable, counted. destruct chunk; cbn; repeat split; auto; try lia;
    apply crc32_bound.
Qed.

Lemma write_zipinfo_total self s :
  packable (zipinfo self) -> valid_datetime (date_time (zipinfo self)) ->
  0 <= file_size (zipinfo self) < 2045222521 ->
  0 <= compress_size (zipinfo self) <= ZIP64_LIMIT ->
  exists zi' hdr,
    write_zipinfo self (Some s)
    = Ok (set_zipinfo self zi', write {| buf := buf s; pos := 0 |} hdr)
    /\ FileHeader (zipinfo self) false = Ok (zi', hdr)
    /\ packable zi'.
Proof.
  intros Hp Hdt Hfs Hcs.
  destruct (FileHeader_total (zipinfo self) Hp Hdt) as (zi' & hdr & Hh & Hp');
    [unfold ZIP64_LIMIT; change (Z.shiftl 1 31 - 1) with 2147483647; lia | exact Hcs |].
  exists zi', hdr. split; [|auto].
  cbn [write_zipinfo].
  destruct Hp as (_ & _ & _ & _ & _ & _ & Hoff).
  rewrite Hoff, seek_nonneg by lia. cbn [bind].
  rewrite (force_zip64_small self) by lia. rewrite Hh. reflexivity.
Qed.

(** The conditions under which a [_write] goes through: a packable
    descriptor named as the writer, sizes below the ZIP64 limits after the
    write, a clock within the DOS years, and an archive that lists no other
    entry. *)
Lemma _write_total self chunk d w :
  filename (zipinfo self) = filename_in_zip self ->
  packable (zipinfo self) ->
  (forall n, valid_datetime (clock w n)) ->
  0 <= file_size (zipinfo self) ->
  fed_size chunk (file_size (zipinfo self)) < 2045222521 ->
  0 <= compress_size (zipinfo self) ->
  compress_size (zipinfo self) + Z.of_nat (length d) <= ZIP64_LIMIT ->
  sound_entry (output_zip self) (filename_in_zip self) w ->
  exists self' w',
    _write self chunk d w = Ok (self', w')
    /\ sound_entry (output_zip self) (filename_in_zip self) w'
    /\ packable (zipinfo self').
Proof.
  intros Hname Hp Hclock Hfs Hlim Hcs Hcl Hsound.
  pose proof (fed_size_ge chunk (file_size (zipinfo self))) as Hge.
  set (old := fs w !! output_zip self) in *.
  set (t1 := set_date_time (zipinfo self) (clock w (ticks w))).
  (* the session *)
  destruct (write_zipinfo_total (set_zipinfo self t1) (open_stream old))
    as (zi1 & hdr1 & W1 & K2 & Hp1); cbn [zipinfo set_zipinfo t1 set_date_time
      date_time file_size compress_size]; auto; try lia.
  cbn [zipinfo set_zipinfo] in K2.
  pose proof (FileHeader_same _ _ _ _ K2) as (A1 & A2 & A3 & A4 & A5 & A6 & A7 & A8 & A9).
  cbn [t1 set_date_time filename date_time compress_type extra flag_bits CRC
       compress_size file_size header_offset] in A1, A2, A3, A4, A5, A6, A7, A8, A9.
  set (s1 := write {| buf := buf (open_stream old); pos := 0 |} hdr1) in *.
  set (s2 := write {| buf := buf s1; pos := tell s1 + compress_size zi1 |} d).
  set (t3 := counted (set_date_time zi1 (clock w (S (ticks w)))) chunk d).
  pose proof (counted_fields (set_date_time zi1 (clock w (S (ticks w)))) chunk d)
    as (C1 & C2 & C3 & C4 & C5 & C6 & C7 & C8 & C9).
  fold t3 in C1, C2, C3, C4, C5, C6, C7, C8, C9.
  cbn [set_date_time filename date_time compress_type extra flag_bits CRC
       compress_size file_size header_offset] in C1, C2, C3, C4, C5, C6, C7, C8, C9.
  assert (Hfs3 : file_size t3 = fed_size chunk (file_size (zipinfo self))).
  { rewrite C8, <- A8. unfold fed_size. destruct chunk; lia. }
  destruct (write_zipinfo_total (set_zipinfo self t3) s2)
    as (zi2 & hdr2 & W2 & K5 & Hp2); cbn [zipinfo set_zipinfo].
  { apply packable_counted. exact Hp1. }
  { rewrite C6. apply Hclock. }
  { lia. }
  { rewrite C7, <- A7. lia. }
  cbn [zipinfo set_zipinfo] in K5.
  assert (Hpos1 : 0 <= tell s1).
  { unfold tell, s1. rewrite pos_write. cbn [pos]. lia. }
  assert (Hsession :
            _write_session self chunk d w
            = Ok (set_zipinfo self zi2,
                  mark_modified
                    {| fp := Some (write {| buf := buf s2; pos := 0 |} hdr2);
                       filelist := filelist (swap_zipinfo (set_zipinfo self t1)
                                               (ZipFile_append old));
                       NameToInfo := NameToInfo (swap_zipinfo (set_zipinfo self t1)
                                                   (ZipFile_append old));
                       start_dir := tell s2;
                       _didModify := _didModify (ZipFile_append old) |},
                  tick 2 w)).
  { unfold _write_session. cbn zeta. fold old.
    rewrite update_zip_info_time_eq. cbn iota beta.
    assert (Hfp : fp (ZipFile_append old) = Some (open_stream old))
      by (destruct old; reflexivity).
    cbn [swap_zipinfo fp]. rewrite Hfp. fold t1. rewrite W1. cbn [bind].
    cbn [set_fp fp write_appended_data zipinfo set_zipinfo].
    fold s1. rewrite seek_nonneg by (rewrite <- A7; lia). cbn [bind].
    fold s2. rewrite update_zipinfo_data_eq. cbn iota beta.
    cbn [zipinfo set_zipinfo tick clock ticks Nat.add]. 
    fold t3. cbn [update_start_dir bind set_fp fp].
    change (set_zipinfo (set_zipinfo (set_zipinfo self t1) zi1) t3)
      with (set_zipinfo self t3).
    rewrite W2. cbn [bind set_fp]. reflexivity. }
  (* closing *)
  assert (Hdt2 : date_time zi2 = clock w (S (ticks w))).
  { pose proof (FileHeader_same _ _ _ _ K5) as (_ & B2 & _). congruence. }
  pose proof (FileHeader_same _ _ _ _ K5) as (B1 & _ & _ & _ & _ & _ & B7 & B8 & _).
  assert (Hlist : deref zi2 <$> filelist (swap_zipinfo (set_zipinfo self t1)
                                           (ZipFile_append old)) = [zi2]).
  { cbn [swap_zipinfo filelist].
    assert (Hfl : filelist (ZipFile_append old) = Loaded <$> old_directory old)
      by (destruct old; reflexivity).
    rewrite Hfl, fmap_app, deref_exclude. cbn [filename_in_zip set_zipinfo].
    unfold sound_entry in Hsound. fold old in Hsound.
    destruct old as [a0|]; cbn [old_directory].
    - destruct Hsound as (zi0 & -> & Hn0 & _).
      rewrite filter_cons.
      destruct (decide (filename zi0 <> filename_in_zip self)); [contradiction|].
      reflexivity.
    - reflexivity. }
  assert (Hsd : 0 <= tell s2 < 2 ^ 40).
  { unfold tell, s2. rewrite pos_write. cbn [pos]. fold (tell s1).
    unfold tell, s1. rewrite pos_write. cbn [pos].
    apply FileHeader_length in K2. unfold header_length in K2.
    cbn [t1 set_date_time filename extra] in K2.
    destruct Hp as (_ & _ & _ & _ & Hnl & Hex & _). rewrite Hex in K2.
    cbn [length] in K2. unfold sizeFileHeader in K2.
    unfold ZIP64_LIMIT in Hcl. change (Z.shiftl 1 31 - 1) with 2147483647 in Hcl.
    change (2 ^ 40) with 1099511627776. lia. }
  destruct (_write_end_record_total (tell s2) zi2 Hp2) as (zi' & tail & Hend & Hp' & Hn').
  { rewrite Hdt2. apply Hclock. }
  { rewrite <- B8, Hfs3. unfold ZIP64_LIMIT.
    change (Z.shiftl 1 31 - 1) with 2147483647. lia. }
  { rewrite <- B7, C7, <- A7. lia. }
  { exact Hsd. }
  eexists _, _. split.
  - unfold _write. fold old. rewrite Hsession. cbn [bind].
    unfold ZipFile_close. cbn [mark_modified fp _didModify start_dir filelist].
    rewrite seek_nonneg by lia. cbn [bind zipinfo set_zipinfo].
    rewrite Hlist, Hend. cbn [bind]. reflexivity.
  - split; [|exact Hp2].
    unfold sound_entry. cbn [fs set_fs tick output_zip set_zipinfo].
    rewrite lookup_insert_eq. cbn [directory].
    exists zi'. split; [reflexivity|]. split; [|exact Hp'].
    rewrite Hn', <- B1, C1, <- A1. exact Hname.
Qed.

Lemma _extract_zipinfo_total out name m w :
  (forall n, valid_datetime (clock w n)) ->
  exists zi w1, _extract_zipinfo out name m w = Ok (zi, w1).
Proof.
  intros Hclock. unfold _extract_zipinfo.
  assert (Hfresh : exists zi w1,
             (let '(dt, w') := datetime_now w in
              let* zi := new_ZipInfo name dt in
              Ok ({| filename := filename zi; date_time := date_time zi;
                     compress_type := m; extra := extra zi;
                     create_version := create_version zi;
                     extract_version := extract_version zi;
                     flag_bits := flag_bits zi;
                     CRC := crc32 [] 0; compress_size := 0; file_size := 0;
                     header_offset := 0 |}, w')) = Ok (zi, w1)).
  { unfold datetime_now, new_ZipInfo.
    destruct (Hclock (ticks w)) as (Hy & _).
    replace (year (clock w (ticks w)) <? 1980) with false by (symmetry; lia).
    cbn [bind]. eauto. }
  destruct (fs w !! out) as [a|]; [|exact Hfresh].
  destruct (getinfo (directory a) name); [eauto | exact Hfresh].
Qed.

Lemma _extract_zipinfo_packable out name m w zi w1 :
  terminate_at_nul name = name ->
  Z.of_nat (length (bytes_of_string name)) <= 65535 ->
  sound_entry out name w ->
  _extract_zipinfo out name m w = Ok (zi, w1) ->
  packable zi /\ clock w1 = clock w.
Proof.
  intros Hnul Hlen Hsound H.
  destruct (_extract_zipinfo_frame _ _ _ _ _ _ H) as (_ & _ & Hck).
  split; [|exact Hck].
  unfold _extract_zipinfo in H. unfold sound_entry in Hsound.
  assert (Hfresh : forall r,
             (let '(dt, w') := datetime_now w in
              let* zi := new_ZipInfo name dt in
              Ok ({| filename := filename zi; date_time := date_time zi;
                     compress_type := m; extra := extra zi;
                     create_version := create_version zi;
                     extract_version := extract_version zi;
                     flag_bits := flag_bits zi;
                     CRC := crc32 [] 0; compress_size := 0; file_size := 0;
                     header_offset := 0 |}, w')) = Ok (r, w1) ->
             packable r).
  { intros r Hr. unfold datetime_now, new_ZipInfo in Hr.
    destruct (_ <? 1980); [discriminate|]. cbn [bind] in Hr.
    injection Hr as <- _. unfold packable.
    cbn [create_version extract_version flag_bits CRC filename extra header_offset].
    rewrite Hnul. change (crc32 [] 0) with 0. unfold DEFAULT_VERSION.
    change (2 ^ 32) with 4294967296.
    repeat split; auto; lia. }
  destruct (fs w !! out) as [a|]; [|eauto].
  destruct Hsound as (zi0 & Hd & Hn & Hp).
  rewrite Hd in H. unfold getinfo in H. rewrite filter_cons in H.
  destruct (decide (filename zi0 = name)); [|contradiction].
  cbn in H. injection H as <- _. exact Hp.
Qed.

Lemma sound_entry_fs out name w w1 :
  fs w1 = fs w -> sound_entry out name w -> sound_entry out name w1.
Proof. unfold sound_entry. intros ->. auto. Qed.

Lemma stored_loop_total chunks out name crc fsz data w :
  terminate_at_nul name = name ->
  Z.of_nat (length (bytes_of_string name)) <= 65535 ->
  (forall n, valid_datetime (clock w n)) ->
  entry_bytes out name ZIP_STORED crc fsz data w ->
  sound_entry out name w ->
  fsz = Z.of_nat (length data) ->
  fsz + Z.of_nat (length (concat chunks)) < 2045222521 ->
  exists w',
    stored_loop chunks out name w = Ok w'
    /\ clock w' = clock w /\ sound_entry out name w'.
Proof.
  intros Hnul Hlen. revert crc fsz data w.
  induction chunks as [|chunk rest IH]; intros crc fsz data w Hclock Hst Hsound Hfd Hlim.
  - exists w. auto.
  - cbn [concat] in Hlim. rewrite length_app in Hlim.
    cbn [stored_loop].
    unfold ChunkedStoredZipWriter.__init__.
    destruct (_extract_zipinfo_total out name ZIP_STORED w Hclock) as (zi & w1 & Hi).
    rewrite Hi. cbn [bind].
    set (self := {| output_zip := out; filename_in_zip := name;
                    compression := ZIP_STORED; zipinfo := zi |}).
    assert (Hinit : ChunkedStoredZipWriter.__init__ out name w = Ok (self, w1)).
    { unfold ChunkedStoredZipWriter.__init__. rewrite Hi. reflexivity. }
    destruct (stored_init_data _ _ _ _ _ _ _ _ Hnul Hst Hinit) as (Hat & Hfs & _).
    destruct (_extract_zipinfo_packable _ _ _ _ _ _ Hnul Hlen Hsound Hi) as (Hp & Hck).
    apply (entry_bytes_fs _ _ _ _ _ _ _ _ Hfs) in Hst.
    apply (sound_entry_fs _ _ _ _ Hfs) in Hsound.
    assert (Hclock1 : forall n, valid_datetime (clock w1 n))
      by (rewrite Hck; exact Hclock).
    pose proof Hat as (Ho & Hf & Hm & Hn & Hct & Hcrc & Hfsz & Hcs & Hoff & Hex & Hflag).
    unfold ChunkedStoredZipWriter.write_chunk.
    destruct (_write_total self (Some chunk) chunk w1)
      as (self' & w2 & Hw & Hsound2 & _).
    { cbn [zipinfo filename_in_zip self]. cbn [zipinfo self] in Hn. exact Hn. }
    { exact Hp. }
    { exact Hclock1. }
    { rewrite Hfsz. lia. }
    { rewrite Hfsz. cbn [fed_size]. lia. }
    { rewrite Hcs. lia. }
    { rewrite Hcs. unfold ZIP64_LIMIT. change (Z.shiftl 1 31 - 1) with 2147483647.
      lia. }
    { exact Hsound. }
    rewrite Hw. cbn [bind ChunkedStoredZipWriter.__exit__ ChunkedStoredZipWriter.close].
    assert (Hfsz0 : 0 <= fsz) by lia.
    assert (Hlim1 : fed_size (Some chunk) fsz < 2045222521) by (cbn [fed_size]; lia).
    destruct (_write_data _ _ _ _ _ _ _ (Some chunk) chunk _ _ _ Hat Hst Hfsz0 Hlim1 Hw)
      as (_ & Hed & _).
    cbn [fed_crc fed_size] in Hed.
    destruct (_write_frame _ _ _ _ _ _ Hw) as ((_ & _ & Hck2) & _).
    destruct (IH (crc32 chunk crc) (fsz + Z.of_nat (length chunk)) (data ++ chunk) w2)
      as (w' & Hl & Hck' & Hs').
    + rewrite Hck2. exact Hclock1.
    + right. exact Hed.
    + exact Hsound2.
    + rewrite length_app. lia.
    + lia.
    + exists w'. split; [exact Hl|]. split; [congruence | exact Hs'].
Qed.

Lemma example_clock_valid n : valid_datetime (example_clock n).
Proof.
  unfold valid_datetime, example_clock. cbn [year month day hour minute second].
  pose proof (Z.mod_pos_bound (Z.of_nat n) 60 ltac:(lia)). lia.
Qed.

(** X19.  With STORED, [zip_file_in_chunks] goes through and is right:
    for an output path that holds no archive, a source shorter than
    2045222521 bytes, an input whose base name has no null character and at
    most 65535 bytes, and a clock within the years that a DOS date can hold
    (1980 to 2107), the run raises nothing; it leaves the files as they
    were when the source is empty, and otherwise an archive whose entry,
    read back through its local header with the CRC check, is the
    source. *)
Theorem zip_file_in_chunks_stored_total `{C : codec}
    (source : bytes) (input_file output_zip : string) (w : world) :
  fs w !! output_zip = None ->
  (forall n, valid_datetime (clock w n)) ->
  terminate_at_nul (basename input_file) = basename input_file ->
  Z.of_nat (length (bytes_of_string (basename input_file))) <= 65535 ->
  Z.of_nat (length source) < 2045222521 ->
  exists w',
    zip_file_in_chunks source input_file output_zip ZIP_STORED w = Ok w'
    /\ (source = [] -> fs w' = fs w)
    /\ (source <> [] ->
        exists a,
          fs w' !! output_zip = Some a
          /\ read_entry a (basename input_file) = Ok source).
Proof.
  intros Hnone Hclock Hnul Hlen Hlim.
  set (name := basename input_file) in *.
  set (chunks := read_file_in_chunks source DEFAULT_CHUNK_SIZE).
  assert (Hcat : concat chunks = source).
  { apply read_chunks_concat; [unfold DEFAULT_CHUNK_SIZE; lia | reflexivity]. }
  assert (H0 : entry_bytes output_zip name ZIP_STORED (crc32 [] 0) 0 [] w)
    by (left; auto).
  assert (Hs0 : sound_entry output_zip name w)
    by (unfold sound_entry; rewrite Hnone; exact I).
  destruct (stored_loop_total chunks output_zip name _ 0 [] w Hnul Hlen Hclock H0 Hs0
              eq_refl) as (w1 & Hl & Hck & _).
  { rewrite Hcat. lia. }
  destruct (_extract_zipinfo_total output_zip name ZIP_STORED w1) as (zi & w2 & Hi).
  { rewrite Hck. exact Hclock. }
  assert (Hrun : zip_file_in_chunks source input_file output_zip ZIP_STORED w = Ok w2).
  { unfold zip_file_in_chunks, zip_chunks. fold chunks name.
    destruct (decide (ZIP_STORED = ZIP_STORED)); [|contradiction].
    rewrite Hl. cbn [bind]. unfold ChunkedStoredZipWriter.__init__.
    rewrite Hi. reflexivity. }
  exists w2. split; [exact Hrun|]. split.
  - intros ->. exact (stored_empty_source_writes_nothing _ _ _ _ Hrun).
  - intros Hne.
    assert (Hch : chunks <> []).
    { intros Hnil. rewrite Hnil in Hcat. simpl in Hcat. congruence. }
    unfold zip_file_in_chunks in Hrun. fold chunks in Hrun.
    rewrite <- Hcat in Hlim.
    destruct (zip_chunks_data _ _ _ _ _ _ Hnul Hnone Hch Hlim Hrun)
      as (data & Hed & Hs & _).
    fold name in Hed. rewrite Hcat in Hed.
    apply (entry_data_reads _ _ _ _ _ _ Hed).
    rewrite (Hs eq_refl), Hcat. reflexivity.
Qed.

Lemma zip_file_in_chunks_stored_total_witness :
  exists w' a,
    @zip_file_in_chunks hold_codec (bytes_of_string "hello world")
      "dir/in.txt" "out.zip" ZIP_STORED empty_world = Ok w'
    /\ fs w' !! "out.zip" = Some a
    /\ @read_entry hold_codec a "in.txt" = Ok (bytes_of_string "hello world").
Proof.
  destruct (@zip_file_in_chunks_stored_total hold_codec (bytes_of_string "hello world")
              "dir/in.txt" "out.zip" empty_world)
    as (w' & Hrun & _ & Hread).
  - reflexivity.
  - exact example_clock_valid.
  - reflexivity.
  - vm_compute. discriminate.
  - vm_compute. reflexivity.
  - destruct (Hread ltac:(discriminate)) as (a & Ha & Hr).
    exists w', a. auto.
Defined.

(** ** Running again *)

Lemma zip_chunks_stored_data `{C : codec} chunks input out crc fsz data w w' :
  terminate_at_nul (basename input) = basename input ->
  entry_data out (basename input) ZIP_STORED crc fsz data w ->
  0 <= fsz -> fsz + Z.of_nat (length (concat chunks)) < 2045222521 ->
  zip_chunks chunks input out ZIP_STORED w = Ok w' ->
  entry_data out (basename input) ZIP_STORED
    (fold_left (fun crc chunk => crc32 chunk crc) chunks crc)
    (fsz + Z.of_nat (length (concat chunks)))
    (data ++ concat chunks) w'.
Proof.
  intros Hnul Hed Hfsz Hlim Hz. unfold zip_chunks in Hz.
  destruct (decide (ZIP_STORED = ZIP_STORED)); [|contradiction].
  inv_bind Hz. rename a into w1. inv_bind Hz. destruct a as [zw w2].
  inv_bind Hz. destruct a as [zw' w3]. inv_bind Hz. destruct a as [zw'' w4].
  injection Hz as <-. injection E1 as <- <-. injection E2 as _ <-.
  destruct (stored_loop_data _ _ _ _ _ _ _ _ Hnul (or_intror Hed) Hfsz Hlim E)
    as (Hst & Hex).
  destruct (stored_init_data _ _ _ _ _ _ _ _ Hnul Hst E0) as (_ & Hfs & _).
  apply (entry_bytes_fs _ _ _ _ _ _ _ _ Hfs) in Hst.
  apply entry_bytes_exists; [exact Hst|]. rewrite Hfs.
  destruct chunks as [|c rest].
  - injection E as <-. eapply entry_data_exists; eauto.
  - apply Hex. discriminate.
Qed.

(** X20.  A second run of [zip_file_in_chunks] into the same archive and
    under the same entry name does not replace the entry: the writers
    resume it.  With STORED, after a first run with a source that is not
    empty and a second run with another source, the entry read back is the
    first source followed by the second, both together shorter than
    2045222521 bytes. *)
Theorem stored_second_run_appends `{C : codec}
    (source1 source2 : bytes) (input_file output_zip : string)
    (w w1 w2 : world) :
  fs w !! output_zip = None ->
  terminate_at_nul (basename input_file) = basename input_file ->
  source1 <> [] ->
  Z.of_nat (length (source1 ++ source2)) < 2045222521 ->
  zip_file_in_chunks source1 input_file output_zip ZIP_STORED w = Ok w1 ->
  zip_file_in_chunks source2 input_file output_zip ZIP_STORED w1 = Ok w2 ->
  exists a,
    fs w2 !! output_zip = Some a
    /\ read_entry a (basename input_file) = Ok (source1 ++ source2).
Proof.
  intros Hnone Hnul Hne Hlim H1 H2. unfold zip_file_in_chunks in H1, H2.
  set (chunks1 := read_file_in_chunks source1 DEFAULT_CHUNK_SIZE) in *.
  set (chunks2 := read_file_in_chunks source2 DEFAULT_CHUNK_SIZE) in *.
  assert (Hcat1 : concat chunks1 = source1).
  { apply read_chunks_concat; [unfold DEFAULT_CHUNK_SIZE; lia | reflexivity]. }
  assert (Hcat2 : concat chunks2 = source2).
  { apply read_chunks_concat; [unfold DEFAULT_CHUNK_SIZE; lia | reflexivity]. }
  assert (Hch : chunks1 <> []).
  { intros Hnil. rewrite Hnil in Hcat1. simpl in Hcat1. congruence. }
  rewrite length_app in Hlim.
  assert (Hlim1 : Z.of_nat (length (concat chunks1)) < 2045222521)
    by (rewrite Hcat1; lia).
  destruct (zip_chunks_data _ _ _ _ _ _ Hnul Hnone Hch Hlim1 H1)
    as (data & Hed & Hs & _).
  rewrite (Hs eq_refl), Hcat1 in Hed.
  assert (Hlim2 : Z.of_nat (length source1) + Z.of_nat (length (concat chunks2))
                  < 2045222521) by (rewrite Hcat2; lia).
  pose proof (zip_chunks_stored_data _ _ _ _ _ _ _ _ Hnul Hed ltac:(lia) Hlim2 H2)
    as Hed2.
  rewrite crc32_chunks in Hed2 by apply crc32_bound.
  rewrite crc32_app, Hcat2 in Hed2.
  replace (Z.of_nat (length source1) + Z.of_nat (length source2))
    with (Z.of_nat (length (source1 ++ source2))) in Hed2
    by (rewrite length_app; lia).
  apply (entry_data_reads _ _ _ _ _ _ Hed2). reflexivity.
Qed.

Lemma stored_second_run_appends_witness :
  exists w1 w2 a,
    @zip_file_in_chunks hold_codec (bytes_of_string "hello ")
      "dir/in.txt" "out.zip" ZIP_STORED empty_world = Ok w1
    /\ @zip_file_in_chunks hold_codec (bytes_of_string "world")
         "dir/in.txt" "out.zip" ZIP_STORED w1 = Ok w2
    /\ fs w2 !! "out.zip" = Some a
    /\ @read_entry hold_codec a "in.txt" = Ok (bytes_of_string "hello world").
Proof.
  destruct (@zip_file_in_chunks hold_codec (bytes_of_string "hello ")
              "dir/in.txt" "out.zip" ZIP_STORED empty_world) as [w1|e] eqn:E1;
    [|vm_compute in E1; discriminate].
  destruct (@zip_file_in_chunks hold_codec (bytes_of_string "world")
              "dir/in.txt" "out.zip" ZIP_STORED w1) as [w2|e] eqn:E2;
    [|exfalso; vm_compute in E1; injection E1 as <-; vm_compute in E2; discriminate].
  destruct (@stored_second_run_appends hold_codec (bytes_of_string "hello ")
              (bytes_of_string "world") "dir/in.txt" "out.zip" empty_world w1 w2)
    as (a & Ha & Hr).
  - reflexivity.
  - reflexivity.
  - discriminate.
  - vm_compute. reflexivity.
  - exact E1.
  - exact E2.
  - exists w1, w2, a. auto.
Defined.

(** ** When a compressed run goes through *)

Lemma codec_run_split `{C : codec} m h ops1 ops2 outs :
  codec_run m h (ops1 ++ ops2) = Ok outs ->
  exists o1 o2,
    codec_run m h ops1 = Ok o1 /\ codec_run m (h ++ ops1) ops2 = Ok o2
    /\ outs = o1 ++ o2.
Proof.
  revert h outs. induction ops1 as [|o ops1 IH]; intros h outs H.
  - exists [], outs. rewrite app_nil_r. auto.
  - cbn [app codec_run] in H. inv_bind H. rename a into bd. inv_bind H.
    injection H as <-.
    destruct (IH _ _ E0) as (o1 & o2 & H1 & H2 & ->).
    exists (bd :: o1), o2. cbn [codec_run]. rewrite E, H1. cbn [bind].
    split; [reflexivity|]. split; [|reflexivity].
    replace (h ++ o :: ops1) with ((h ++ [o]) ++ ops1)
      by (rewrite <- app_assoc; reflexivity).
    exact H2.
Qed.

Lemma codec_run_one `{C : codec} m h o outs :
  codec_run m h [o] = Ok outs -> exists bd, codec_call m h o = Ok bd /\ outs = [bd].
Proof.
  cbn [codec_run]. intros H. inv_bind H. cbn [bind] in H. injection H as <-. eauto.
Qed.

Lemma throwaway_header_total self :
  terminate_at_nul (filename_in_zip self) = filename_in_zip self ->
  Z.of_nat (length (bytes_of_string (filename_in_zip self))) <= 65535 ->
  exists r, throwaway_header self = Ok r.
Proof.
  intros Hnul Hlen. unfold throwaway_header, new_ZipInfo.
  cbn [year]. change (1980 <? 1980) with false. cbn [bind].
  match goal with
  | |- context [FileHeader ?zi false] =>
      destruct (FileHeader_total zi) as (zi' & hdr & Hh & _)
  end.
  - unfold packable. cbn [create_version extract_version flag_bits CRC filename
                          extra header_offset].
    rewrite Hnul. unfold DEFAULT_VERSION. change (2 ^ 32) with 4294967296.
    repeat split; auto; lia.
  - unfold valid_datetime. cbn [date_time year month day hour minute second]. lia.
  - cbn [file_size]. unfold ZIP64_LIMIT.
    change (Z.shiftl 1 31 - 1) with 2147483647. lia.
  - cbn [compress_size]. unfold ZIP64_LIMIT.
    change (Z.shiftl 1 31 - 1) with 2147483647. lia.
  - rewrite Hh. eauto.
Qed.

Lemma compressor_call_total `{C : codec} self o w bd :
  compression self <> ZIP_STORED ->
  terminate_at_nul (filename_in_zip self) = filename_in_zip self ->
  Z.of_nat (length (bytes_of_string (filename_in_zip self))) <= 65535 ->
  codec_call (method (live (compression self) (_compressor_path self) w))
             (calls (live (compression self) (_compressor_path self) w)) o = Ok bd ->
  exists a w1 w2,
    ChunkedCompressedZipWriter.get_compressor self w = Ok (a, w1)
    /\ adapter_call a o w1 = Ok (bd, w2).
Proof.
  intros Hm Hnul Hlen Hcall. unfold ChunkedCompressedZipWriter.get_compressor.
  destruct (decide (compression self = ZIP_STORED)); [contradiction|].
  unfold live in Hcall.
  destruct (zip_compressor_storage w !! _compressor_path self) as [c|] eqn:E.
  - eexists _, _, _. split; [reflexivity|].
    unfold adapter_call. rewrite E, Hcall. reflexivity.
  - destruct (throwaway_header_total self Hnul Hlen) as (r & ->). cbn [bind].
    eexists _, _, _. split; [reflexivity|].
    unfold adapter_call. cbn [zip_compressor_storage set_storage].
    rewrite lookup_insert_eq. cbn [method calls] in *. rewrite Hcall. reflexivity.
Qed.

Lemma run_state_call `{C : codec} self out name m crc fsz data h o w a w1 bd w2 :
  writer_data self out name m crc fsz data -> m <> ZIP_STORED ->
  run_state out name m crc fsz data h w ->
  ChunkedCompressedZipWriter.get_compressor self w = Ok (a, w1) ->
  adapter_call a o w1 = Ok (bd, w2) ->
  run_state out name m crc fsz data (h ++ [o]) w2.
Proof.
  intros Hat Hm (Hst & Hsound & Hclock & Hlive) Hg Hc.
  pose proof (writer_data_at _ _ _ _ _ _ _ Hat) as Hat'.
  pose proof (writer_at_key _ _ _ _ _ _ _ Hat') as Hk.
  assert (Hcm : compression self = m) by apply Hat.
  destruct (call_registered self o w a w1 bd w2 ltac:(congruence) Hg Hc)
    as (_ & Hreg & Hfs & Hck & _).
  rewrite Hk, Hcm, Hlive in Hreg. cbn [method calls] in Hreg.
  split; [eapply entry_bytes_fs; eauto|].
  split; [eapply sound_entry_fs; eauto|].
  split; [rewrite Hck; exact Hclock|].
  unfold live. rewrite Hreg, lookup_insert_eq. reflexivity.
Qed.

Lemma run_state_write self out name m crc fsz data h chunk d w :
  writer_data self out name m crc fsz data -> packable (zipinfo self) ->
  run_state out name m crc fsz data h w ->
  0 <= fsz -> fed_size chunk fsz < 2045222521 ->
  Z.of_nat (length (data ++ d)) <= ZIP64_LIMIT ->
  exists self' w',
    _write self chunk d w = Ok (self', w')
    /\ writer_data self' out name m (fed_crc chunk crc) (fed_size chunk fsz)
                   (data ++ d)
    /\ packable (zipinfo self')
    /\ run_state out name m (fed_crc chunk crc) (fed_size chunk fsz)
                 (data ++ d) h w'.
Proof.
  intros Hat Hp (Hst & Hsound & Hclock & Hlive) Hfsz Hlim Hcl.
  pose proof Hat as (Ho & Hf & Hm & Hn & Hct & Hcrc & Hfs & Hcs & Hoff & Hex & Hflag).
  rewrite length_app in Hcl.
  destruct (_write_total self chunk d w) as (self' & w' & Hw & Hsound' & Hp').
  { congruence. }
  { exact Hp. }
  { exact Hclock. }
  { rewrite Hfs. exact Hfsz. }
  { rewrite Hfs. exact Hlim. }
  { rewrite Hcs. lia. }
  { rewrite Hcs. lia. }
  { rewrite Ho, Hf. exact Hsound. }
  rewrite Ho, Hf in Hsound'.
  destruct (_write_data _ _ _ _ _ _ _ chunk d _ _ _ Hat Hst Hfsz Hlim Hw)
    as (Hat' & Hed & Hreg).
  destruct (_write_frame _ _ _ _ _ _ Hw) as ((_ & _ & Hck) & _).
  exists self', w'. split; [exact Hw|]. split; [exact Hat'|]. split; [exact Hp'|].
  split; [right; exact Hed|]. split; [exact Hsound'|].
  split; [rewrite Hck; exact Hclock|].
  rewrite (live_storage _ _ _ _ Hreg). exact Hlive.
Qed.

Lemma drain_total `{C : codec} self out name m crc fsz data h o bd w :
  writer_data self out name m crc fsz data -> packable (zipinfo self) ->
  m <> ZIP_STORED ->
  terminate_at_nul name = name ->
  Z.of_nat (length (bytes_of_string name)) <= 65535 ->
  run_state out name m crc fsz data h w ->
  0 <= fsz < 2045222521 ->
  codec_call m h o = Ok bd ->
  Z.of_nat (length (data ++ bd)) <= ZIP64_LIMIT ->
  exists self' w',
    drain self o w = Ok (self', w')
    /\ writer_data self' out name m crc fsz (data ++ bd)
    /\ packable (zipinfo self')
    /\ run_state out name m crc fsz (data ++ bd) (h ++ [o]) w'.
Proof.
  intros Hat Hp Hm Hnul Hlen Hrs Hfsz Hcall Hcl.
  pose proof Hat as (Ho & Hf & Hcm & _).
  pose proof Hrs as (_ & _ & _ & Hlive).
  destruct (compressor_call_total self o w bd) as (a & w1 & w2 & Hg & Hc).
  { congruence. }
  { rewrite Hf. exact Hnul. }
  { rewrite Hf. exact Hlen. }
  { unfold _compressor_path. rewrite Ho, Hf, Hcm.
    change (out ++ "/" ++ name)%string with (key_of out name).
    rewrite Hlive. exact Hcall. }
  pose proof (run_state_call _ _ _ _ _ _ _ _ _ _ _ _ _ _ Hat Hm Hrs Hg Hc) as Hrs2.
  unfold drain. rewrite Hg. cbn [bind]. rewrite Hc. cbn [bind].
  destruct bd as [|b bd].
  - cbn [length Nat.eqb]. rewrite app_nil_r.
    exists self, w2. split; [reflexivity|]. split; [exact Hat|].
    split; [exact Hp | exact Hrs2].
  - cbn [length Nat.eqb].
    destruct (run_state_write self out name m crc fsz data (h ++ [o]) None (b :: bd) w2
                Hat Hp Hrs2 ltac:(lia) ltac:(cbn [fed_size]; lia) Hcl)
      as (self' & w' & Hw & Hat' & Hp' & Hrs').
    cbn [fed_crc fed_size] in *.
    exists self', w'. split; [exact Hw|]. split; [exact Hat'|].
    split; [exact Hp' | exact Hrs'].
Qed.

Lemma compressed_write_chunk_total `{C : codec}
    self out name m crc fsz data h chunk bd w :
  writer_data self out name m crc fsz data -> packable (zipinfo self) ->
  m <> ZIP_STORED ->
  terminate_at_nul name = name ->
  Z.of_nat (length (bytes_of_string name)) <= 65535 ->
  run_state out name m crc fsz data h w ->
  0 <= fsz -> fsz + Z.of_nat (length chunk) < 2045222521 ->
  codec_call m h (Compress chunk) = Ok bd ->
  Z.of_nat (length (data ++ bd)) <= ZIP64_LIMIT ->
  exists self' w',
    ChunkedCompressedZipWriter.write_chunk self chunk w = Ok (self', w')
    /\ writer_data self' out name m (crc32 chunk crc)
                   (fsz + Z.of_nat (length chunk)) (data ++ bd)
    /\ packable (zipinfo self')
    /\ run_state out name m (crc32 chunk crc) (fsz + Z.of_nat (length chunk))
                 (data ++ bd) (h ++ [Compress chunk]) w'.
Proof.
  intros Hat Hp Hm Hnul Hlen Hrs Hfsz Hlim Hcall Hcl.
  pose proof Hat as (Ho & Hf & Hcm & _).
  pose proof Hrs as (_ & _ & _ & Hlive).
  destruct (compressor_call_total self (Compress chunk) w bd)
    as (a & w1 & w2 & Hg & Hc).
  { congruence. }
  { rewrite Hf. exact Hnul. }
  { rewrite Hf. exact Hlen. }
  { unfold _compressor_path. rewrite Ho, Hf, Hcm.
    change (out ++ "/" ++ name)%string with (key_of out name).
    rewrite Hlive. exact Hcall. }
  pose proof (run_state_call _ _ _ _ _ _ _ _ _ _ _ _ _ _ Hat Hm Hrs Hg Hc) as Hrs2.
  unfold ChunkedCompressedZipWriter.write_chunk.
  rewrite Hg. cbn [bind]. rewrite Hc. cbn [bind].
  destruct (run_state_write self out name m crc fsz data (h ++ [Compress chunk])
              (Some chunk) bd w2 Hat Hp Hrs2 Hfsz ltac:(cbn [fed_size]; lia) Hcl)
    as (self' & w' & Hw & Hat' & Hp' & Hrs').
  cbn [fed_crc fed_size] in *. eauto 6.
Qed.

Lemma compressed_exit_total `{C : codec} self out name m crc fsz data h outs w :
  writer_data self out name m crc fsz data -> packable (zipinfo self) ->
  m <> ZIP_STORED ->
  terminate_at_nul name = name ->
  Z.of_nat (length (bytes_of_string name)) <= 65535 ->
  run_state out name m crc fsz data h w ->
  0 <= fsz < 2045222521 ->
  codec_run m h (exit_calls m) = Ok outs ->
  Z.of_nat (length (data ++ concat outs)) <= ZIP64_LIMIT ->
  exists self' w',
    ChunkedCompressedZipWriter.__exit__ self w = Ok (self', w')
    /\ run_state out name m crc fsz (data ++ concat outs) (h ++ exit_calls m) w'.
Proof.
  intros Hat Hp Hm Hnul Hlen Hrs Hfsz Hrun Hcl.
  unfold ChunkedCompressedZipWriter.__exit__. rewrite close_is_drain.
  assert (Hcm : compression self = m) by apply Hat. rewrite Hcm.
  destruct m; try contradiction;
    try (cbn [exit_calls codec_run] in *; injection Hrun as <-;
         cbn [concat]; rewrite !app_nil_r; eauto).
  cbn [exit_calls] in *.
  apply codec_run_one in Hrun as (bd & Hcall & ->).
  rewrite concat_one in *.
  destruct (drain_total _ _ _ _ _ _ _ _ _ _ _ Hat Hp Hm Hnul Hlen Hrs Hfsz Hcall Hcl)
    as (self' & w' & Hd & _ & _ & Hrs').
  eauto.
Qed.

Lemma compressed_flush_total `{C : codec} self out name m crc fsz data h outs w :
  writer_data self out name m crc fsz data -> packable (zipinfo self) ->
  m <> ZIP_STORED ->
  terminate_at_nul name = name ->
  Z.of_nat (length (bytes_of_string name)) <= 65535 ->
  run_state out name m crc fsz data h w ->
  0 <= fsz < 2045222521 ->
  codec_run m h (flush_calls m) = Ok outs ->
  Z.of_nat (length (data ++ concat outs)) <= ZIP64_LIMIT ->
  exists self' w',
    ChunkedCompressedZipWriter.flush self w = Ok (self', w')
    /\ writer_data self' out name m crc fsz (data ++ concat outs)
    /\ packable (zipinfo self')
    /\ run_state out name m crc fsz (data ++ concat outs) (h ++ flush_calls m) w'.
Proof.
  intros Hat Hp Hm Hnul Hlen Hrs Hfsz Hrun Hcl.
  rewrite flush_is_drain.
  assert (Hcm : compression self = m) by apply Hat. rewrite Hcm.
  destruct m; try contradiction;
    try (cbn [flush_calls codec_run] in *; injection Hrun as <-;
         cbn [concat]; rewrite !app_nil_r;
         exists self, w; split; [reflexivity|]; split; [exact Hat|];
         split; [exact Hp | exact Hrs]);
    cbn [flush_calls] in *;
    apply codec_run_one in Hrun as (bd & Hcall & ->);
    rewrite concat_one in *;
    exact (drain_total _ _ _ _ _ _ _ _ _ _ _ Hat Hp Hm Hnul Hlen Hrs Hfsz Hcall Hcl).
Qed.

Lemma compressed_init_total out name m crc fsz data h w :
  terminate_at_nul name = name ->
  Z.of_nat (length (bytes_of_string name)) <= 65535 ->
  run_state out name m crc fsz data h w ->
  exists self w1,
    ChunkedCompressedZipWriter.__init__ out name m w = Ok (self, w1)
    /\ writer_data self out name m crc fsz data
    /\ packable (zipinfo self)
    /\ run_state out name m crc fsz data h w1.
Proof.
  intros Hnul Hlen (Hst & Hsound & Hclock & Hlive).
  destruct (_extract_zipinfo_total out name m w Hclock) as (zi & w1 & Hi).
  assert (Hinit : ChunkedCompressedZipWriter.__init__ out name m w
                  = Ok ({| output_zip := out; filename_in_zip := name;
                           compression := m; zipinfo := zi |}, w1)).
  { unfold ChunkedCompressedZipWriter.__init__. rewrite Hi. reflexivity. }
  destruct (compressed_init_data _ _ _ _ _ _ _ _ _ Hnul Hst Hinit) as (Hat & Hfs & Hreg).
  destruct (_extract_zipinfo_packable _ _ _ _ _ _ Hnul Hlen Hsound Hi) as (Hp & Hck).
  eexists _, _. split; [exact Hinit|]. split; [exact Hat|]. split; [exact Hp|].
  split; [eapply entry_bytes_fs; eauto|].
  split; [eapply sound_entry_fs; eauto|].
  split; [rewrite Hck; exact Hclock|].
  rewrite (live_storage _ _ _ _ Hreg). exact Hlive.
Qed.

Lemma length_app_le_l (a b : bytes) n :
  Z.of_nat (length (a ++ b)) <= n -> Z.of_nat (length a) <= n.
Proof. rewrite length_app. lia. Qed.

Lemma compressed_loop_total `{C : codec} chunks out name m crc fsz data h outs w :
  terminate_at_nul name = name ->
  Z.of_nat (length (bytes_of_string name)) <= 65535 ->
  m <> ZIP_STORED ->
  run_state out name m crc fsz data h w ->
  0 <= fsz -> fsz + Z.of_nat (length (concat chunks)) < 2045222521 ->
  codec_run m h (loop_calls m chunks) = Ok outs ->
  Z.of_nat (length (data ++ concat outs)) <= ZIP64_LIMIT ->
  exists w',
    compressed_loop chunks out name m w = Ok w'
    /\ run_state out name m
         (fold_left (fun crc chunk => crc32 chunk crc) chunks crc)
         (fsz + Z.of_nat (length (concat chunks)))
         (data ++ concat outs) (h ++ loop_calls m chunks) w'.
Proof.
  intros Hnul Hlen Hm. revert crc fsz data h outs w.
  induction chunks as [|chunk rest IH];
    intros crc fsz data h outs w Hrs Hfsz Hlim Hrun Hcl.
  - cbn [loop_calls flat_map codec_run] in *. injection Hrun as <-.
    exists w. cbn [compressed_loop fold_left concat length].
    rewrite !app_nil_r, Z.add_0_r. auto.
  - change (loop_calls m (chunk :: rest))
      with ([Compress chunk] ++ exit_calls m ++ loop_calls m rest) in *.
    apply codec_run_split in Hrun as (o1 & o23 & R1 & R23 & ->).
    apply codec_run_one in R1 as (bd & Hcall & ->).
    apply codec_run_split in R23 as (o2 & o3 & R2 & R3 & ->).
    cbn [concat] in Hlim. rewrite length_app in Hlim.
    rewrite !concat_app, concat_one in Hcl. rewrite !app_assoc in Hcl.
    pose proof (length_app_le_l _ _ _ Hcl) as Hcl2.
    pose proof (length_app_le_l _ _ _ Hcl2) as Hcl1.
    destruct (compressed_init_total _ _ _ _ _ _ _ _ Hnul Hlen Hrs)
      as (zw & w1 & Hi & Hat & Hp & Hrs1).
    assert (H1 : fsz + Z.of_nat (length chunk) < 2045222521) by lia.
    destruct (compressed_write_chunk_total _ _ _ _ _ _ _ _ _ _ _ Hat Hp Hm Hnul Hlen
                Hrs1 Hfsz H1 Hcall Hcl1)
      as (zw' & w2 & Hw & Hat' & Hp' & Hrs2).
    assert (H2 : 0 <= fsz + Z.of_nat (length chunk) < 2045222521) by lia.
    destruct (compressed_exit_total _ _ _ _ _ _ _ _ _ _ Hat' Hp' Hm Hnul Hlen
                Hrs2 H2 R2 Hcl2)
      as (zw'' & w3 & Hx & Hrs3).
    assert (H3 : fsz + Z.of_nat (length chunk) + Z.of_nat (length (concat rest))
                 < 2045222521) by lia.
    destruct (IH _ _ _ _ _ _ Hrs3 (proj1 H2) H3 R3 Hcl) as (w' & Hl & Hrs').
    exists w'. cbn [compressed_loop]. rewrite Hi. cbn [bind]. rewrite Hw. cbn [bind].
    rewrite Hx. cbn [bind]. split; [exact Hl|].
    cbn [fold_left concat]. rewrite length_app.
    replace (fsz + Z.of_nat (length chunk + length (concat rest)))
      with (fsz + Z.of_nat (length chunk) + Z.of_nat (length (concat rest))) by lia.
    rewrite !concat_app, concat_one, !app_assoc in *. exact Hrs'.
Qed.

(** X21.  With a compressing method, [zip_file_in_chunks] goes through and
    is right: for an output path that holds no archive, a compressor that
    is new to the registry, a source shorter than 2045222521 bytes, an
    input whose base name has no null character and at most 65535 bytes, a
    clock within the years that a DOS date can hold, and a backend that
    answers every call of the run with at most [ZIP64_LIMIT] bytes of output
    in all, the run raises nothing.  When moreover the source is not empty
    and the backend's decompressor inverts the stream of the run, the
    archive's entry, read back through its local header with decompression
    and CRC check, is the source. *)
Theorem zip_file_in_chunks_compressed_total `{C : codec}
    (source : bytes) (input_file output_zip : string)
    (compression : compress_method) (w : world) (outs : list bytes) :
  compression <> ZIP_STORED ->
  fs w !! output_zip = None ->
  zip_compressor_storage w !! (output_zip ++ "/" ++ basename input_file)%string
  = None ->
  (forall n, valid_datetime (clock w n)) ->
  terminate_at_nul (basename input_file) = basename input_file ->
  Z.of_nat (length (bytes_of_string (basename input_file))) <= 65535 ->
  Z.of_nat (length source) < 2045222521 ->
  codec_run compression []
    (loop_calls compression (read_file_in_chunks source DEFAULT_CHUNK_SIZE)
       ++ final_calls compression) = Ok outs ->
  total_length outs <= ZIP64_LIMIT ->
  exists w',
    zip_file_in_chunks source input_file output_zip compression w = Ok w'
    /\ (source <> [] ->
        codec_decompress compression (concat outs) = Ok source ->
        exists a,
          fs w' !! output_zip = Some a
          /\ read_entry a (basename input_file) = Ok source).
Proof.
  intros Hm Hnone Hfresh Hclock Hnul Hlen Hlim Hrun Hcl.
  set (name := basename input_file) in *.
  set (chunks := read_file_in_chunks source DEFAULT_CHUNK_SIZE) in *.
  assert (Hcat : concat chunks = source).
  { apply read_chunks_concat; [unfold DEFAULT_CHUNK_SIZE; lia | reflexivity]. }
  assert (Hrs0 : run_state output_zip name compression (crc32 [] 0) 0 [] [] w).
  { split; [left; auto|]. split; [unfold sound_entry; rewrite Hnone; exact I|].
    split; [exact Hclock|]. unfold live, key_of. rewrite Hfresh. reflexivity. }
  pose proof Hrun as Hrun0.
  apply codec_run_split in Hrun as (o1 & o23 & R1 & R23 & ->).
  unfold final_calls in R23.
  apply codec_run_split in R23 as (o2 & o3 & R2 & R3 & ->).
  unfold total_length in Hcl. rewrite !concat_app, !app_assoc in Hcl.
  pose proof (length_app_le_l _ _ _ Hcl) as Hcl2.
  pose proof (length_app_le_l _ _ _ Hcl2) as Hcl1.
  assert (Hl0 : 0 + Z.of_nat (length (concat chunks)) < 2045222521)
    by (rewrite Hcat; lia).
  destruct (compressed_loop_total chunks output_zip name compression _ 0 [] [] o1 w
              Hnul Hlen Hm Hrs0 ltac:(lia) Hl0 R1 Hcl1) as (w1 & Hl & Hrs1).
  cbn [app] in Hrs1, R2, R3.
  destruct (compressed_init_total _ _ _ _ _ _ _ _ Hnul Hlen Hrs1)
    as (zw & w2 & Hi & Hat & Hp & Hrs2).
  assert (Hf : 0 <= 0 + Z.of_nat (length (concat chunks)) < 2045222521) by lia.
  destruct (compressed_flush_total _ _ _ _ _ _ _ _ _ _ Hat Hp Hm Hnul Hlen Hrs2 Hf
              R2 Hcl2) as (zw' & w3 & Hfl & Hat' & Hp' & Hrs3).
  destruct (compressed_exit_total _ _ _ _ _ _ _ _ _ _ Hat' Hp' Hm Hnul Hlen Hrs3 Hf
              R3 Hcl) as (zw'' & w4 & Hx & _).
  assert (Hz : zip_chunks chunks input_file output_zip compression w = Ok w4).
  { unfold zip_chunks. fold name.
    destruct (decide (compression = ZIP_STORED)); [contradiction|].
    rewrite Hl. cbn [bind]. rewrite Hi. cbn [bind]. rewrite Hfl. cbn [bind].
    rewrite Hx. reflexivity. }
  exists w4. split; [exact Hz|].
  intros Hne Hdec.
  assert (Hch : chunks <> []).
  { intros Hnil. rewrite Hnil in Hcat. simpl in Hcat. congruence. }
  rewrite <- Hcat in Hlim.
  destruct (zip_chunks_data _ _ _ _ _ _ Hnul Hnone Hch Hlim Hz)
    as (data & Hed & _ & Hc).
  fold name in Hed, Hc. rewrite Hcat in Hed.
  apply (entry_data_reads _ _ _ _ _ _ Hed).
  destruct (Hc Hm) as (outs' & Hran & ->).
  pose proof (ran_fresh _ _ _ _ _ _ Hfresh Hran) as Hrun'.
  rewrite Hrun0 in Hrun'. injection Hrun' as <-.
  rewrite <- Hdec. destruct compression; [contradiction | reflexivity..].
Qed.

Lemma zip_file_in_chunks_compressed_total_witness :
  exists w' a,
    @zip_file_in_chunks hold_codec (bytes_of_string "hello world")
      "dir/in.txt" "out.zip" ZIP_DEFLATED empty_world = Ok w'
    /\ fs w' !! "out.zip" = Some a
    /\ @read_entry hold_codec a "in.txt" = Ok (bytes_of_string "hello world").
Proof.
  destruct (@zip_file_in_chunks_compressed_total hold_codec
              (bytes_of_string "hello world") "dir/in.txt" "out.zip" ZIP_DEFLATED
              empty_world
              [[]; bytes_of_string "hello world"; []])
    as (w' & Hrun & Hread).
  - discriminate.
  - reflexivity.
  - reflexivity.
  - exact example_clock_valid.
  - reflexivity.
  - vm_compute. discriminate.
  - vm_compute. reflexivity.
  - vm_compute. reflexivity.
  - vm_compute. discriminate.
  - destruct (Hread ltac:(discriminate) eq_refl) as (a & Ha & Hr).
    exists w', a. auto.
Defined.

(** ** Runs that cannot go through *)

Lemma _extract_zipinfo_early out name m w :
  (forall a, fs w !! out = Some a -> getinfo (directory a) name = None) ->
  year (clock w (ticks w)) < 1980 ->
  _extract_zipinfo out name m w = Err BadTimestamp.
Proof.
  intros Hno Hy. unfold _extract_zipinfo, datetime_now, new_ZipInfo.
  assert (Hlt : (year (clock w (ticks w)) <? 1980) = true) by (apply Z.ltb_lt; lia).
  destruct (fs w !! out) as [a|] eqn:Ea.
  - rewrite (Hno a eq_refl), Hlt. reflexivity.
  - rewrite Hlt. reflexivity.
Qed.

(** X22.  An entry cannot be started while the clock stands before 1980:
    when the output path holds no archive, or an archive that does not
    list the base name of the input, [zip_file_in_chunks] raises the
    [ValueError] of [ZipInfo] for timestamps before 1980, whatever the
    method and the source, the empty source included (the final writer is
    built even then). *)
Theorem zip_file_in_chunks_before_1980 `{C : codec}
    (source : bytes) (input_file output_zip : string)
    (compression : compress_method) (w : world) :
  (forall a, fs w !! output_zip = Some a ->
             getinfo (directory a) (basename input_file) = None) ->
  year (clock w (ticks w)) < 1980 ->
  zip_file_in_chunks source input_file output_zip compression w = Err BadTimestamp.
Proof.
  intros Hno Hy.
  pose proof (fun m => _extract_zipinfo_early output_zip (basename input_file) m w
                         Hno Hy) as He.
  unfold zip_file_in_chunks, zip_chunks.
  destruct (decide (compression = ZIP_STORED)) as [-> | Hm];
    destruct (read_file_in_chunks source DEFAULT_CHUNK_SIZE) as [|chunk rest];
    cbn [stored_loop compressed_loop bind];
    unfold ChunkedStoredZipWriter.__init__, ChunkedCompressedZipWriter.__init__;
    rewrite He; reflexivity.
Qed.

Lemma zip_file_in_chunks_before_1980_witness :
  @zip_file_in_chunks hold_codec (bytes_of_string "hello world")
    "dir/in.txt" "out.zip" ZIP_DEFLATED example_early_world = Err BadTimestamp.
Proof.
  apply (@zip_file_in_chunks_before_1980 hold_codec).
  - intros a Ha. vm_compute in Ha. discriminate.
  - vm_compute. reflexivity.
Defined.

Lemma flushed_In h : In (Flush None) h -> flushed h = true.
Proof.
  intros Hin. unfold flushed. apply existsb_exists.
  exists (Flush None). split; [exact Hin | reflexivity].
Qed.

Lemma once_codec_refuses m h chunk :
  In (Flush None) h -> @codec_call once_codec m h (Compress chunk) = Err CompressorError.
Proof. intros Hin. cbn. rewrite (flushed_In h Hin). reflexivity. Qed.

(** X23.  The registry is never emptied, so a compressor outlives the run
    that ended it.  With BZIP2 or LZMA, after a run of
    [zip_file_in_chunks] on a source that is not empty, a second run in the
    same process for the same output path and input name, on a source that
    is not empty either, hands its first chunk to the compressor that the
    first run has flushed: with a backend that raises on [compress] after
    [flush()], as those of [bz2] and [lzma] do, the second run raises that
    error at its first chunk. *)
Theorem second_run_meets_flushed_compressor `{C : codec}
    (source1 source2 : bytes) (input out : string)
    (m : compress_method) (w w1 : world) :
  m = ZIP_BZIP2 \/ m = ZIP_LZMA ->
  terminate_at_nul (basename input) = basename input ->
  fs w !! out = None ->
  zip_compressor_storage w !! (out ++ "/" ++ basename input)%string
  = None ->
  source1 <> [] -> source2 <> [] ->
  (forall h chunk, In (Flush None) h ->
     codec_call m h (Compress chunk) = Err CompressorError) ->
  zip_file_in_chunks source1 input out m w = Ok w1 ->
  zip_file_in_chunks source2 input out m w1
  = Err CompressorError.
Proof.
  intros Hbl Hnul Hnone Hfresh Hne1 Hne2 Hrefuse H1.
  assert (Hm : m <> ZIP_STORED) by (destruct Hbl; subst; discriminate).
  unfold zip_file_in_chunks in *.
  set (name := basename input) in *.
  set (chunks1 := read_file_in_chunks source1 DEFAULT_CHUNK_SIZE) in *.
  set (chunks2 := read_file_in_chunks source2 DEFAULT_CHUNK_SIZE) in *.
  assert (Hcat1 : concat chunks1 = source1).
  { apply read_chunks_concat; [unfold DEFAULT_CHUNK_SIZE; lia | reflexivity]. }
  assert (Hcat2 : concat chunks2 = source2).
  { apply read_chunks_concat; [unfold DEFAULT_CHUNK_SIZE; lia | reflexivity]. }
  assert (Hch1 : chunks1 <> []).
  { intros Hnil. rewrite Hnil in Hcat1. simpl in Hcat1. congruence. }
  destruct chunks2 as [|chunk rest] eqn:Ech2.
  { simpl in Hcat2. congruence. }
  destruct (compressed_chunks_state chunks1 input out m
              _ _ _ w w1 Hnul Hm (entry_state_initial _ _ _ Hnone) H1)
    as (outs & Hran & Hst & Hex).
  fold name in Hran, Hst.
  assert (Hops : loop_calls m chunks1 ++ final_calls m <> []).
  { destruct Hbl; subst m; cbn; intros Hnil;
      apply app_eq_nil in Hnil as [_ Hnil]; discriminate. }
  pose proof (ran_registered _ _ _ _ _ _ Hran Hops) as Hreg.
  unfold live, key_of in Hreg. rewrite Hfresh in Hreg. cbn [method calls app] in Hreg.
  destruct Hst as [(Hnone1 & _) | (a & zi & Ha & Hg & _)].
  { exfalso. exact (Hex Hch1 Hnone1). }
  unfold zip_chunks. fold name.
  destruct (decide (m = ZIP_STORED)); [contradiction|].
  cbn [compressed_loop].
  unfold ChunkedCompressedZipWriter.__init__, _extract_zipinfo.
  rewrite Ha, Hg. cbn [bind].
  unfold ChunkedCompressedZipWriter.write_chunk,
    ChunkedCompressedZipWriter.get_compressor.
  cbn [compression].
  destruct (decide (m = ZIP_STORED)); [contradiction|].
  unfold _compressor_path. cbn [output_zip filename_in_zip].
  rewrite Hreg. cbn [bind]. unfold adapter_call. rewrite Hreg. cbn [method calls].
  rewrite Hrefuse; [reflexivity|].
  apply in_or_app. right. destruct Hbl; subst m; cbn; auto.
Qed.

Lemma second_run_meets_flushed_compressor_witness :
  exists w1,
    @zip_file_in_chunks once_codec (bytes_of_string "hello")
      "dir/in.txt" "out.zip" ZIP_BZIP2 empty_world = Ok w1
    /\ @zip_file_in_chunks once_codec (bytes_of_string " world")
         "dir/in.txt" "out.zip" ZIP_BZIP2 w1 = Err CompressorError.
Proof.
  destruct (@zip_file_in_chunks once_codec (bytes_of_string "hello")
              "dir/in.txt" "out.zip" ZIP_BZIP2 empty_world) as [w1|e] eqn:E;
    [|vm_compute in E; discriminate].
  exists w1. split; [reflexivity|].
  apply (@second_run_meets_flushed_compressor once_codec (bytes_of_string "hello")
           (bytes_of_string " world") "dir/in.txt" "out.zip" ZIP_BZIP2
           empty_world w1).
  - left. reflexivity.
  - reflexivity.
  - reflexivity.
  - reflexivity.
  - discriminate.
  - discriminate.
  - intros h chunk Hin. apply once_codec_refuses. exact Hin.
  - exact E.
Defined.

(** ** The per-chunk flush of DEFLATE *)

Lemma compressed_loop_app `{C : codec} done rest out name m w w' :
  compressed_loop (done ++ rest) out name m w = Ok w' ->
  exists w1,
    compressed_loop done out name m w = Ok w1
    /\ compressed_loop rest out name m w1 = Ok w'.
Proof.
  revert w. induction done as [|chunk done IH]; intros w H.
  - exists w. split; [reflexivity | exact H].
  - cbn [app compressed_loop] in *.
    inv_bind H. destruct a as [zw w1]. inv_bind H. destruct a as [zw' w2].
    inv_bind H. destruct a as [zw'' w3].
    destruct (IH _ H) as (w4 & H1 & H2).
    exists w4. rewrite E. cbn [bind]. rewrite E0. cbn [bind]. rewrite E1.
    cbn [bind]. auto.
Qed.

Lemma zip_chunks_app `{C : codec} done rest input out m w w' :
  m <> ZIP_STORED ->
  zip_chunks (done ++ rest) input out m w = Ok w' ->
  exists w1,
    compressed_loop done out (basename input) m w = Ok w1
    /\ zip_chunks rest input out m w1 = Ok w'.
Proof.
  intros Hm H. unfold zip_chunks in *.
  destruct (decide (m = ZIP_STORED)); [contradiction|].
  inv_bind H. rename a into wl.
  destruct (compressed_loop_app _ _ _ _ _ _ _ E) as (w1 & H1 & H2).
  exists w1. split; [exact H1|]. rewrite H2. exact H.
Qed.

(** C10 (the per-chunk [close()]).  Leaving a compressed writer calls its
    [close()].  So when [zip_file_in_chunks] runs with DEFLATE on a new
    archive, then after every single chunk, that is for every way of
    cutting the chunks into those done and the rest, the shared compressor
    has served one [compress] and one full-sync flush per chunk done, it
    is registered with exactly these calls after the ones it had served
    before, and the archive exists and lists the entry with the data read
    so far and, as compressed size, the length of all that these calls
    returned, those of the flushes included; below the size from which
    headers take the ZIP64 record, the archive is the header followed by
    exactly these outputs in the order of the calls.  The final writer,
    which only flushes, takes one more full-sync flush on leaving, and the
    same holds of the archive that the run leaves. *)
Theorem deflate_flush_after_every_chunk `{C : codec}
    (chunks : list bytes) (input out : string) (w w' : world) :
  fs w !! out = None ->
  terminate_at_nul (basename input) = basename input ->
  zip_chunks chunks input out ZIP_DEFLATED w = Ok w' ->
  let name := basename input in
  let key := (out ++ "/" ++ name)%string in
  let c0 := live ZIP_DEFLATED key w in
  let round := fun chunk => [Compress chunk; Flush (Some Z_FULL_FLUSH)] in
  let ops := flat_map round chunks ++ [Flush (Some Z_FULL_FLUSH)] in
  (forall self w0,
      ChunkedCompressedZipWriter.__exit__ self w0
      = ChunkedCompressedZipWriter.close self w0)
  /\ (forall done rest,
        chunks = done ++ rest -> done <> [] ->
        exists w1 outs1,
          compressed_loop done out name ZIP_DEFLATED w = Ok w1
          /\ zip_chunks rest input out ZIP_DEFLATED w1 = Ok w'
          /\ codec_run (method c0) (calls c0) (flat_map round done) = Ok outs1
          /\ zip_compressor_storage w1 !! key
             = Some {| method := method c0;
                       calls := calls c0 ++ flat_map round done |}
          /\ holds_entry out name (crc32 (concat done) 0)
               (Z.of_nat (length (concat done))) (total_length outs1) w1
          /\ (Z.of_nat (length (concat done)) < 2045222521 ->
              entry_data out name ZIP_DEFLATED (crc32 (concat done) 0)
                (Z.of_nat (length (concat done))) (concat outs1) w1))
  /\ exists outs,
      codec_run (method c0) (calls c0) ops = Ok outs
      /\ zip_compressor_storage w' !! key
         = Some {| method := method c0; calls := calls c0 ++ ops |}
      /\ (forall a zi,
             fs w' !! out = Some a ->
             getinfo (directory a) name = Some zi ->
             compress_size zi = total_length outs)
      /\ (chunks <> [] ->
          holds_entry out name (crc32 (concat chunks) 0)
            (Z.of_nat (length (concat chunks))) (total_length outs) w')
      /\ (chunks <> [] -> Z.of_nat (length (concat chunks)) < 2045222521 ->
          entry_data out name ZIP_DEFLATED (crc32 (concat chunks) 0)
            (Z.of_nat (length (concat chunks))) (concat outs) w').
Proof.
  intros Hnone Hnul Hz name key c0 round ops. split; [reflexivity|].
  pose proof (entry_state_initial out name w Hnone) as H0.
  assert (Hb0 : entry_bytes out name ZIP_DEFLATED (crc32 [] 0) 0 [] w)
    by (left; auto).
  assert (Hm : ZIP_DEFLATED <> ZIP_STORED) by discriminate.
  split.
  - intros done rest -> Hne.
    destruct (zip_chunks_app _ _ _ _ _ _ _ Hm Hz) as (w1 & Hl & Hrest).
    fold name in Hl.
    destruct (compressed_loop_spec _ _ _ _ _ _ _ _ _ Hnul Hm H0 Hl)
      as (outs1 & Hran & Hst & Hex).
    change (loop_calls ZIP_DEFLATED done) with (flat_map round done) in Hran.
    change (key_of out name) with key in Hran.
    rewrite crc32_chunks_seeded, !Z.add_0_l in Hst.
    exists w1, outs1. split; [exact Hl|]. split; [exact Hrest|].
    split; [apply Hran|]. split.
    { apply (ran_registered _ _ _ _ _ _ Hran).
      destruct done; [contradiction | discriminate]. }
    split.
    { destruct Hst as [(Hn & _) | Hh]; [|exact Hh]. destruct (Hex Hne Hn). }
    intros Hlim.
    assert (Hz0 : 0 <= 0) by lia.
    assert (Hlim0 : 0 + Z.of_nat (length (concat done)) < 2045222521) by lia.
    destruct (compressed_loop_data _ _ _ _ _ _ _ _ _ Hnul Hm Hb0 Hz0 Hlim0 Hl)
      as (outs2 & Hran2 & Hst2 & _).
    change (loop_calls ZIP_DEFLATED done) with (flat_map round done) in Hran2.
    change (key_of out name) with key in Hran2.
    destruct Hran as [R1 _], Hran2 as [R2 _].
    fold c0 in R1, R2. rewrite R1 in R2. injection R2 as <-.
    rewrite crc32_chunks_seeded, Z.add_0_l in Hst2. cbn [app] in Hst2.
    apply entry_bytes_exists; [exact Hst2 | exact (Hex Hne)].
  - destruct (compressed_chunks_state _ _ _ _ _ _ _ _ _ Hnul Hm H0 Hz)
      as (outs & Hran & Hst & Hex).
    change (loop_calls ZIP_DEFLATED chunks ++ final_calls ZIP_DEFLATED)
      with ops in Hran.
    change (key_of out (basename input)) with key in Hran.
    fold name in Hst. rewrite crc32_chunks_seeded, !Z.add_0_l in Hst.
    exists outs. split; [apply Hran|]. split.
    { apply (ran_registered _ _ _ _ _ _ Hran). unfold ops.
      intros Habs. destruct (flat_map _ chunks); discriminate. }
    split.
    { intros a zi Ha Hg.
      destruct Hst as [(Hn & _) | (a' & zi' & Ha' & Hg' & _ & _ & _ & Hs)];
        [congruence|].
      rewrite Ha in Ha'. injection Ha' as <-. rewrite Hg in Hg'.
      injection Hg' as <-. exact Hs. }
    split.
    { intros Hne. destruct Hst as [(Hn & _) | Hh]; [|exact Hh].
      destruct (Hex Hne Hn). }
    intros Hne Hlim.
    destruct (zip_chunks_data _ _ _ _ _ _ Hnul Hnone Hne Hlim Hz)
      as (data & Hed & _ & Hc).
    destruct (Hc Hm) as (outs2 & Hran2 & ->).
    change (loop_calls ZIP_DEFLATED chunks ++ final_calls ZIP_DEFLATED)
      with ops in Hran2.
    change (key_of out (basename input)) with key in Hran2.
    destruct Hran as [R1 _], Hran2 as [R2 _].
    fold c0 in R1, R2. rewrite R1 in R2. injection R2 as <-.
    exact Hed.
Qed.

Lemma deflate_flush_after_every_chunk_witness :
  fs empty_world !! "out.zip" = None
  /\ terminate_at_nul (basename "dir/in.txt") = basename "dir/in.txt"
  /\ exists w' w1 a1 hdr,
      @zip_chunks hold_codec example_chunks "dir/in.txt" "out.zip"
                  ZIP_DEFLATED empty_world = Ok w'
      /\ zip_compressor_storage w' !! "out.zip/in.txt"
         = Some {| method := ZIP_DEFLATED;
                   calls := [Compress (bytes_of_string "hello ");
                             Flush (Some Z_FULL_FLUSH);
                             Compress (bytes_of_string "world");
                             Flush (Some Z_FULL_FLUSH);
                             Flush (Some Z_FULL_FLUSH)] |}
      /\ @compressed_loop hold_codec [bytes_of_string "hello "] "out.zip" "in.txt"
           ZIP_DEFLATED empty_world = Ok w1
      /\ fs w1 !! "out.zip" = Some a1
      /\ take (length hdr + 6) (contents a1) = hdr ++ bytes_of_string "hello ".
Proof.
  split; [reflexivity|]. split; [reflexivity|].
  destruct (@zip_chunks hold_codec example_chunks "dir/in.txt" "out.zip"
              ZIP_DEFLATED empty_world) as [w'|e] eqn:E;
    [|vm_compute in E; discriminate].
  destruct (@deflate_flush_after_every_chunk hold_codec example_chunks
              "dir/in.txt" "out.zip" empty_world w' eq_refl eq_refl E)
    as (_ & Hstep & outs & _ & Hreg & _).
  destruct (Hstep [bytes_of_string "hello "] [bytes_of_string "world"]
              eq_refl ltac:(discriminate))
    as (w1 & outs1 & Hl & _ & Hrun & _ & _ & Hdata).
  vm_compute in Hrun. injection Hrun as <-.
  destruct (Hdata ltac:(vm_compute; reflexivity))
    as (a1 & zi & hdr & Ha1 & _ & _ & _ & _ & _ & _ & _ & _ & _ & _ & _ & Htake).
  exists w', w1, a1, hdr. split; [reflexivity|]. split; [exact Hreg|].
  split; [exact Hl|]. split; [exact Ha1 | exact Htake].
Defined.
